(** * Service Bus client: sender link lifecycle, delivery settlement and
      the receive guards of the subscription client.

    A shallow embedding of [MessageSender] (src/lib/index.ts) and of
    [SubscriptionClient.receive] / [receiveBatch]
    (src/lib/subscriptionClient.ts).  JavaScript objects are finite maps
    from property names to values, the sender object and the link it
    owns are a record threaded through every operation, promises live in
    a store indexed by their identity, and every call on an external
    collaborator is appended to a trace so that ordering and absence of
    effects can be stated. *)

From Stdlib Require Import ZArith.
From stdpp Require Import base strings gmap option list.

Local Open Scope string_scope.

(** ** JavaScript values *)

Module JS.

Definition Buffer : Type := list Byte.byte.

#[warnings="-register-all"]
Inductive JsVal : Type :=
  | JUndefined
  | JNull
  | JBool (b : bool)
  | JNum (n : Z)
  | JStr (s : string)
  | JBuffer (b : Buffer)
  | JSections (l : list Buffer)      (* rhea's message.data_sections(...) *)
  | JArray (l : list JsVal)
  | JObj (o : gmap string JsVal).

(** ToBoolean, as used by [if (x)] and [!x]. *)
Definition truthy (v : JsVal) : bool :=
  match v with
  | JUndefined | JNull => false
  | JBool b => b
  | JNum n => negb (n =? 0)%Z
  | JStr EmptyString => false
  | JStr _ => true
  | JBuffer _ | JSections _ | JArray _ | JObj _ => true
  end.

(** [typeof v === "object"]. *)
Definition typeof_object (v : JsVal) : bool :=
  match v with
  | JNull | JBuffer _ | JSections _ | JArray _ | JObj _ => true
  | _ => false
  end.

(** [Array.isArray(v)]. *)
Definition isArray (v : JsVal) : bool :=
  match v with JArray _ => true | _ => false end.

(** [o[k]] on an object: a missing property reads as [undefined]. *)
Definition get (o : gmap string JsVal) (k : string) : JsVal :=
  default JUndefined (o !! k).

(** The one-character string holding a double quote. *)
Definition dquote : string := String (Ascii.ascii_of_nat 34) EmptyString.

End JS.
Export JS.

(** ** Errors *)

Record AmqpError := { condition : string; description : string }.

(** What a [throw] or a promise rejection may carry. *)
Inductive JsErr : Type :=
  | PlainError (msg : string)                 (* new Error(msg) *)
  | TypeError (msg : string)                  (* raised by the runtime *)
  | FromAmqp (e : AmqpError)                  (* an error reported by the peer *)
  | MessagingError (name msg : string).       (* what translate produces *)

(** Result of a call that may throw. *)
Inductive Res (A : Type) : Type :=
  | Return (a : A)
  | Throw (e : JsErr).
Arguments Return {A} a.
Arguments Throw {A} e.

(** ** The sender link and its events *)

Inductive SenderEvent := accepted | rejected | released | modified.

#[global] Instance SenderEvent_eq_dec : EqDecision SenderEvent.
Proof. solve_decision. Defined.

(** A delivery as a disposition event carries it: the source reads
    [context!.delivery!.remote_state!.error], asserting that the three
    links of that chain are present; [error] itself may be absent. *)
Record Delivery := { d_id : nat; remote_error : option AmqpError }.

Record EventContext := { delivery : Delivery }.

(** The closures [onAccepted], [onRejected], [onReleased], [onModified]
    of one [_trySend] call.  Each closes over the [resolve]/[reject] pair
    of the promise built by that call, so a closure is identified by the
    event it serves and that promise. *)
Record Handler := { h_event : SenderEvent; h_promise : nat }.

#[global] Instance Handler_eq_dec : EqDecision Handler.
Proof. solve_decision. Defined.

(** What [sender.send(message, tag, format)] is handed. *)
Inductive Payload : Type :=
  | PMessage (m : gmap string JsVal)
  | PEncoded (b : Buffer) (format : Z).

(** Modelled from the spec: the link engine (./rhea-promise) is not among
    the sources; section 6 gives its boundary: [isOpen], [close],
    [sendable] (a credit check), [send], and handler registration for the
    four disposition events.  Handlers are kept in registration order. *)
Record Link := {
  l_isOpen : bool;
  l_credit : nat;
  l_handlers : list (SenderEvent * Handler);
  l_sent : list Payload;
}.

Definition sendable (l : Link) : bool := (0 <? l_credit l)%nat.

Definition registerHandler (ev : SenderEvent) (h : Handler) (l : Link) : Link :=
  {| l_isOpen := l_isOpen l; l_credit := l_credit l;
     l_handlers := l_handlers l ++ [(ev, h)]; l_sent := l_sent l |}.

(** [removeListener] drops one registration of the given closure. *)
Fixpoint remove_first (x : SenderEvent * Handler)
    (hs : list (SenderEvent * Handler)) : list (SenderEvent * Handler) :=
  match hs with
  | [] => []
  | y :: ys => if decide (x = y) then ys else y :: remove_first x ys
  end.

Definition removeHandler (ev : SenderEvent) (h : Handler) (l : Link) : Link :=
  {| l_isOpen := l_isOpen l; l_credit := l_credit l;
     l_handlers := remove_first (ev, h) (l_handlers l); l_sent := l_sent l |}.

Definition link_send (m : Payload) (l : Link) : Link :=
  {| l_isOpen := l_isOpen l; l_credit := pred (l_credit l);
     l_handlers := l_handlers l; l_sent := l_sent l ++ [m] |}.

Definition add_credit (n : nat) (l : Link) : Link :=
  {| l_isOpen := l_isOpen l; l_credit := l_credit l + n;
     l_handlers := l_handlers l; l_sent := l_sent l |}.

(** ** Promises *)

Inductive PState : Type :=
  | Pending
  | Resolved (d : Delivery)
  | Rejected (e : JsErr).

(** ** Observable effects *)

Inductive Effect : Type :=
  | ELockAcquire (key : string)
  | ENegotiateClaim
  | ECreateSender
  | EEnsureTokenRenewal
  | ERegister (ev : SenderEvent) (h : Handler)
  | ERemove (ev : SenderEvent) (h : Handler)
  | ELinkSend (m : Payload)
  | EFired (h : Handler)
  | ELinkClose
  | EClearTimeout (t : option nat).

(** ** The sender object *)

Record World := {
  _sender : option Link;              (* this._sender *)
  ctx_sender : bool;                  (* this._context.sender is set *)
  _tokenRenewalTimer : option nat;    (* this._tokenRenewalTimer *)
  promises : list PState;             (* promise store, by identity *)
  trace : list Effect;
}.

Definition set_sender (s : option Link) (w : World) : World :=
  {| _sender := s; ctx_sender := ctx_sender w;
     _tokenRenewalTimer := _tokenRenewalTimer w;
     promises := promises w; trace := trace w |}.

Definition set_ctx_sender (b : bool) (w : World) : World :=
  {| _sender := _sender w; ctx_sender := b;
     _tokenRenewalTimer := _tokenRenewalTimer w;
     promises := promises w; trace := trace w |}.

Definition set_promises (ps : list PState) (w : World) : World :=
  {| _sender := _sender w; ctx_sender := ctx_sender w;
     _tokenRenewalTimer := _tokenRenewalTimer w;
     promises := ps; trace := trace w |}.

Definition log (e : Effect) (w : World) : World :=
  {| _sender := _sender w; ctx_sender := ctx_sender w;
     _tokenRenewalTimer := _tokenRenewalTimer w;
     promises := promises w; trace := trace w ++ [e] |}.

(** [new Promise(...)]: a fresh pending entry; its index is its identity. *)
Definition new_promise (w : World) : nat * World :=
  (length (promises w), set_promises (promises w ++ [Pending]) w).

(** [resolve] and [reject] settle a pending promise and do nothing on a
    settled one. *)
Definition settle (p : nat) (s : PState) (w : World) : World :=
  match promises w !! p with
  | Some Pending => set_promises (<[p := s]> (promises w)) w
  | _ => w
  end.

Definition resolve (p : nat) (d : Delivery) : World -> World := settle p (Resolved d).
Definition reject (p : nat) (e : JsErr) : World -> World := settle p (Rejected e).

(** [this._sender!.f(...)] where the link is known to be present; on an
    absent link the caller has already failed. *)
Definition with_link (f : Link -> Link) (w : World) : World :=
  match _sender w with
  | Some l => set_sender (Some (f l)) w
  | None => w
  end.

(** ** The event loop, as seen by one awaiting call *)

Inductive LoopEvent : Type :=
  | Disposition (ev : SenderEvent) (ctx : EventContext)
  | Flow (credit : nat)               (* the peer grants send credit *)
  | TimerFired.                       (* the pending backoff timer expires *)

(** An awaiting call either completes, leaving the events it did not
    consume, or is still suspended when the script of events ends. *)
Inductive Outcome (A : Type) : Type :=
  | Done (r : Res A) (rest : list LoopEvent) (w : World)
  | Hang (w : World).
Arguments Done {A} r rest w.
Arguments Hang {A} w.

Definition final_world {A} (o : Outcome A) : World :=
  match o with Done _ _ w => w | Hang w => w end.

(** ** MessageSender *)

(** What the sender takes from its surroundings: the members
    [this._context.namespace.connectionId], [this.id] and
    [this.senderLock]; [translate] of ./amqp-common, on an error object,
    and what a call of it on [undefined] does, which is to return an
    error or to throw one; which errors the retry policy tries again
    after, and how many further attempts it allows after the first;
    [ServiceBusMessage.toAmqpMessage], the data transformer's [encode],
    rhea's [message.encode] and the [messageProperties] table. *)
Class SenderEnv := {
  connectionId : string;
  this_id : string;
  senderLock : string;
  translate : JsErr -> JsErr;
  translate_undefined : Res JsErr;
  retryable : JsErr -> bool;
  retries : nat;
  toAmqpMessage : JsVal -> gmap string JsVal;
  dataTransformer_encode : JsVal -> JsVal;
  message_encode : gmap string JsVal -> Buffer;
  messageProperties : list string;
}.

Section MessageSender.

Context {E : SenderEnv}.

(** [_isOpen()]: [this._sender! && this._sender!.isOpen()]. *)
Definition _isOpen (w : World) : bool :=
  match _sender w with
  | Some l => l_isOpen l
  | None => false
  end.

(** *** _trySend *)

Definition handler (ev : SenderEvent) (p : nat) : Handler :=
  {| h_event := ev; h_promise := p |}.

Definition unregister (ev : SenderEvent) (p : nat) (w : World) : World :=
  log (ERemove ev (handler ev p))
      (with_link (removeHandler ev (handler ev p)) w).

(** [removeListeners()]; [None] when [this._sender] is absent and the
    first [removeHandler] call throws. *)
Definition removeListeners (p : nat) (w : World) : option World :=
  match _sender w with
  | None => None
  | Some _ =>
      Some (unregister modified p
             (unregister released p
               (unregister accepted p
                 (unregister rejected p w))))
  end.

Definition release_message : string :=
  "[" ++ connectionId ++ "]Sender '" ++ this_id ++ "', " ++
  "received a release disposition.Hence we are rejecting the promise.".

Definition modified_message : string :=
  "[" ++ connectionId ++ "]Sender " ++ dquote ++ this_id ++ dquote ++ ", " ++
  "received a modified disposition.Hence we are rejecting the promise.".

Definition try_later_message : string :=
  "[" ++ connectionId ++ "]Sender " ++ dquote ++ this_id ++ dquote ++ ", " ++
  "cannot send the message right now. Please try later.".

(** The body shared by [onReleased] and [onModified]: [translate] is
    called only when the delivery carries an error. *)
Definition disposition_error (synthetic : string) (ctx : EventContext) : JsErr :=
  match remote_error (delivery ctx) with
  | Some e => translate (FromAmqp e)
  | None => PlainError synthetic
  end.

(** [translate(context!.delivery!.remote_state!.error)] of [onRejected],
    which calls [translate] whether or not the delivery carries an
    error. *)
Definition rejection_error (ctx : EventContext) : Res JsErr :=
  match remote_error (delivery ctx) with
  | Some e => Return (translate (FromAmqp e))
  | None => translate_undefined
  end.

(** Running one of the four closures on a disposition event.  Each
    starts with [removeListeners()] and settles the promise last.  When
    [removeListeners] throws, or [translate] does in [onRejected], the
    exception leaves the closure and the promise is not settled. *)
Definition fire (h : Handler) (ctx : EventContext) (w : World)
    : Res unit * World :=
  let w := log (EFired h) w in
  match removeListeners (h_promise h) w with
  | None =>
      (Throw (TypeError "Cannot read property 'removeHandler' of undefined"), w)
  | Some w =>
      match h_event h with
      | accepted => (Return (), resolve (h_promise h) (delivery ctx) w)
      | rejected =>
          match rejection_error ctx with
          | Return e => (Return (), reject (h_promise h) e w)
          | Throw e => (Throw e, w)
          end
      | released =>
          (Return (),
           reject (h_promise h) (disposition_error release_message ctx) w)
      | modified =>
          (Return (),
           reject (h_promise h) (disposition_error modified_message ctx) w)
      end
  end.

(** The closures registered for [ev], in registration order. *)
Definition listeners (ev : SenderEvent) (l : Link) : list Handler :=
  (filter (fun x => x.1 = ev) (l_handlers l)).*2.

(** The closures of one event run in turn; one that throws ends the
    round, and those after it are not run. *)
Fixpoint run_listeners (hs : list Handler) (ctx : EventContext) (w : World)
    : Res unit * World :=
  match hs with
  | [] => (Return (), w)
  | h :: hs' =>
      match fire h ctx w with
      | (Return _, w) => run_listeners hs' ctx w
      | (Throw e, w) => (Throw e, w)
      end
  end.

(** The link raises [ev]: the closures registered at that moment run in
    turn.  An exception of a closure goes to whoever raised the
    event. *)
Definition emit (ev : SenderEvent) (ctx : EventContext) (w : World)
    : Res unit * World :=
  match _sender w with
  | None => (Return (), w)
  | Some l => run_listeners (listeners ev l) ctx w
  end.

Definition register (ev : SenderEvent) (p : nat) (w : World) : World :=
  log (ERegister ev (handler ev p))
      (with_link (registerHandler ev (handler ev p)) w).

(** [new Promise<Delivery>((resolve, reject) => { ... })] of [_trySend]:
    the executor runs once, when the promise is built.  A throw inside
    an executor rejects the promise. *)
Definition sendEventPromise (m : Payload) (w : World) : nat * World :=
  let '(p, w) := new_promise w in
  match _sender w with
  | None =>
      (p, reject p (TypeError "Cannot read property 'credit' of undefined") w)
  | Some l =>
      if sendable l then
        let w := register accepted p w in
        let w := register rejected p w in
        let w := register modified p w in
        let w := register released p w in
        (p, log (ELinkSend m) (with_link (link_send m) w))
      else
        (p, reject p (PlainError try_later_message) w)
  end.

(** One event of the loop.  An exception that left a closure is with
    the link engine, outside the sender; the loop goes on. *)
Definition dispatch (e : LoopEvent) (w : World) : World :=
  match e with
  | Disposition ev ctx => (emit ev ctx w).2
  | Flow n => with_link (add_credit n) w
  | TimerFired => w
  end.

(** [await p]: events are taken from the loop until [p] is settled. *)
Fixpoint await (p : nat) (evs : list LoopEvent) (w : World) : Outcome Delivery :=
  match promises w !! p with
  | Some (Resolved d) => Done (Return d) evs w
  | Some (Rejected e) => Done (Throw e) evs w
  | _ =>
      match evs with
      | [] => Hang w
      | e :: evs' => await p evs' (dispatch e w)
      end
  end.

(** [await delay(...)]: events are taken until the timer expires. *)
Fixpoint delay (evs : list LoopEvent) (w : World) : option (list LoopEvent * World) :=
  match evs with
  | [] => None
  | TimerFired :: evs' => Some (evs', w)
  | e :: evs' => delay evs' (dispatch e w)
  end.

(** Modelled from the spec: [retry] of ./amqp-common is not among the
    sources.  Section 4.2 words it as a retry policy of bounded attempts
    with backoff around the operation it is handed: the operation is
    called, its promise awaited, and after a retryable failure with
    attempts left the policy backs off and calls the operation again. *)
Fixpoint retry (n : nat) (operation : World -> nat * World)
    (evs : list LoopEvent) (w : World) : Outcome Delivery :=
  let '(p, w) := operation w in
  match await p evs w with
  | Done (Throw e) evs w =>
      match n with
      | S n' =>
          if retryable e then
            match delay evs w with
            | Some (evs, w) => retry n' operation evs w
            | None => Hang w
            end
          else Done (Throw e) evs w
      | 0 => Done (Throw e) evs w
      end
  | o => o
  end.

(** [_trySend(message, tag, format)]: the promise is built first, and
    the operation handed to [retry] is [() => sendEventPromise]. *)
Definition _trySend (m : Payload) (evs : list LoopEvent) (w : World) : Outcome Delivery :=
  let '(p, w) := sendEventPromise m w in
  retry retries (fun w => (p, w)) evs w.


(** *** _init *)

(** Where a run of [_init] stands: suspended at one of its three
    [await]s, or finished with what it threw, if anything. *)
Inductive InitPhase : Type :=
  | AwaitClaim                     (* await this._negotiateClaim() *)
  | AwaitCreate                    (* await connection.createSender(options) *)
  | AwaitRenewal                   (* await this._ensureTokenRenewal() *)
  | Finished (r : option JsErr).

(** The [catch] of [_init]: whatever was thrown is translated. *)
Definition init_failed (e : JsErr) : InitPhase :=
  Finished (Some (translate e)).

(** Entry of [_init], up to its first [await]. *)
Definition init_start (w : World) : InitPhase * World :=
  if negb (_isOpen w) then (AwaitClaim, log ENegotiateClaim w)
  else (Finished None, w).

(** [_negotiateClaim()] settled. *)
Definition init_after_claim (r : option JsErr) (w : World) : InitPhase * World :=
  match r with
  | Some e => (init_failed e, w)
  | None => (AwaitCreate, log ECreateSender w)
  end.

(** [createSender(options)] settled. *)
Definition init_after_create (r : JsErr + Link) (w : World) : InitPhase * World :=
  match r with
  | inl e => (init_failed e, w)
  | inr l =>
      let w := set_sender (Some l) w in
      let w := if ctx_sender w then w else set_ctx_sender true w in
      (AwaitRenewal, log EEnsureTokenRenewal w)
  end.

Definition set_timer (t : option nat) (w : World) : World :=
  {| _sender := _sender w; ctx_sender := ctx_sender w;
     _tokenRenewalTimer := t;
     promises := promises w; trace := trace w |}.

(** [_ensureTokenRenewal()] settled.
    Modelled from the spec: [LinkEntity] is not among the sources;
    section 4.5 has the entity schedule a renewal task once its link is
    open, which is the timer [close] cancels. *)
Definition init_after_renewal (r : JsErr + nat) (w : World) : InitPhase * World :=
  match r with
  | inl e => (init_failed e, w)
  | inr t => (Finished None, set_timer (Some t) w)
  end.

(** How the three awaited operations of one run settle. *)
Record InitEnv := {
  claim : option JsErr;
  created : JsErr + Link;
  renewal : JsErr + nat;
}.

(** [_init()] run to completion by a caller that is alone. *)
Definition _init (ie : InitEnv) (w : World) : option JsErr * World :=
  match init_start w with
  | (Finished r, w) => (r, w)
  | (_, w) =>
      match init_after_claim (claim ie) w with
      | (Finished r, w) => (r, w)
      | (_, w) =>
          match init_after_create (created ie) w with
          | (Finished r, w) => (r, w)
          | (_, w) =>
              match init_after_renewal (renewal ie) w with
              | (Finished r, w) => (r, w)
              | (_, w) => (None, w)
              end
          end
      end
  end.

(** Lines 97-101 and 125-129: [if (!this._isOpen()) await
    defaultLock.acquire(this.senderLock, () => this._init())], for a
    caller that finds the lock free. *)
Definition ensure_init (ie : InitEnv) (w : World) : option JsErr * World :=
  if negb (_isOpen w) then _init ie (log (ELockAcquire senderLock) w)
  else (None, w).

(** *** send *)

(** [v.k]: reading a property of [undefined] or [null] throws. *)
Definition prop (v : JsVal) (k : string) : Res JsVal :=
  match v with
  | JUndefined => Throw (TypeError ("Cannot read property '" ++ k ++ "' of undefined"))
  | JNull => Throw (TypeError ("Cannot read property '" ++ k ++ "' of null"))
  | JObj o => Return (get o k)
  | _ => Return JUndefined
  end.

(** [ServiceBusMessage.toAmqpMessage(d)] followed by
    [message.body = dataTransformer.encode(d.body)]. *)
Definition to_wire (d : JsVal) : Res (gmap string JsVal) :=
  let message := toAmqpMessage d in
  match prop d "body" with
  | Throw e => Throw e
  | Return b => Return (<["body" := dataTransformer_encode b]> message)
  end.

Definition send_arg_ok (data : JsVal) : bool :=
  truthy data && typeof_object data.

Definition send (data : JsVal) (ie : InitEnv) (evs : list LoopEvent)
    (w : World) : Outcome Delivery :=
  if negb (send_arg_ok data) then
    Done (Throw (PlainError "data is required and it must be of type object.")) evs w
  else
    match ensure_init ie w with
    | (Some e, w) => Done (Throw e) evs w
    | (None, w) =>
        match to_wire data with
        | Throw e => Done (Throw e) evs w
        | Return message => _trySend (PMessage message) evs w
        end
    end.

(** *** sendBatch *)

(** The conversion loop of [sendBatch]; it stops at the first throw. *)
Fixpoint to_wire_all (datas : list JsVal) : Res (list (gmap string JsVal)) :=
  match datas with
  | [] => Return []
  | d :: ds =>
      match to_wire d with
      | Throw e => Throw e
      | Return m =>
          match to_wire_all ds with
          | Throw e => Throw e
          | Return ms => Return (m :: ms)
          end
      end
  end.

(** [if (m0[k]) batchMessage[k] = m0[k]]. *)
Definition copy_if_set (k : string) (m0 batchMessage : gmap string JsVal)
    : gmap string JsVal :=
  if truthy (get m0 k) then <[k := get m0 k]> batchMessage else batchMessage.

(** The envelope of a batch, before it is encoded. *)
Definition batchMessage_of (messages : list (gmap string JsVal))
    : Res (gmap string JsVal) :=
  let batchMessage : gmap string JsVal :=
    {["body" := JSections (message_encode <$> messages)]} in
  match messages !! 0 with
  | None =>
      Throw (TypeError "Cannot read property 'message_annotations' of undefined")
  | Some m0 =>
      let batchMessage := copy_if_set "message_annotations" m0 batchMessage in
      let batchMessage := copy_if_set "application_properties" m0 batchMessage in
      Return (foldl (fun b k => copy_if_set k m0 b) batchMessage messageProperties)
  end.

Definition batch_arg_ok (datas : JsVal) : bool :=
  truthy datas && isArray datas.

Definition batch_format : Z := 0x80013700.

Definition sendBatch (datas : JsVal) (ie : InitEnv) (evs : list LoopEvent)
    (w : World) : Outcome Delivery :=
  if negb (batch_arg_ok datas) then
    Done (Throw (PlainError "data is required and it must be an Array.")) evs w
  else
    match ensure_init ie w with
    | (Some e, w) => Done (Throw e) evs w
    | (None, w) =>
        let ds := match datas with JArray l => l | _ => [] end in
        match to_wire_all ds with
        | Throw e => Done (Throw e) evs w
        | Return messages =>
            match batchMessage_of messages with
            | Throw e => Done (Throw e) evs w
            | Return batchMessage =>
                _trySend (PEncoded (message_encode batchMessage) batch_format) evs w
            end
        end
    end.

(** *** close *)

Definition link_close (l : Link) : Link :=
  {| l_isOpen := false; l_credit := l_credit l;
     l_handlers := l_handlers l; l_sent := l_sent l |}.

(** [close()]; [r] is how [await this._sender.close()] settles. *)
Definition close (r : option JsErr) (w : World) : Res unit * World :=
  match _sender w with
  | Some _ =>
      let w := log ELinkClose w in
      match r with
      | Some e => (Throw e, w)
      | None =>
          let w := with_link link_close w in
          let w := set_ctx_sender false w in
          let w := set_sender None w in
          let w := log (EClearTimeout (_tokenRenewalTimer w)) w in
          (Return (), w)
      end
  | None => (Return (), w)
  end.

End MessageSender.

(** ** Concurrent callers of one sender

    Calls interleave at their [await]s on a single event loop.  A call
    runs without interruption up to its first suspension; what is
    scheduled afterwards is the settling of the operations a run of
    [_init] awaits, and the passing of the sender's key from one caller
    to the next. *)

Module Concurrent.
Section Concurrent.

Context {E : SenderEnv}.

(** What a [send] or [sendBatch] call has reached.  Every call that
    goes to the lock hands it a closure of its own,
    [() => { return this._init(); }], so it waits on a run of its
    own. *)
Inductive CallState : Type :=
  | Invalid (e : JsErr)                     (* the argument check threw *)
  | Skipped                                 (* the link was open: no lock taken *)
  | Waiting (run : nat)                     (* awaiting defaultLock.acquire *)
  | Initialised (run : nat) (r : option JsErr). (* acquire settled with the run's outcome *)

(** A closure handed to the lock: not called yet, or a run of [_init]
    in some phase. *)
Inductive Run : Type :=
  | Queued
  | Started (ph : InitPhase).

Record Sys := {
  world : World;
  holder : option nat;         (* defaultLock: the run holding the sender's key *)
  queue : list nat;            (* defaultLock: the runs waiting for the key, oldest first *)
  runs : list Run;             (* every closure handed to the lock so far *)
  calls : list CallState;      (* every call issued so far *)
}.

Inductive SysEvent : Type :=
  | CallSend (data : JsVal)
  | CallSendBatch (datas : JsVal)
  | ClaimDone (run : nat) (r : option JsErr)
  | CreateDone (run : nat) (r : JsErr + Link)
  | RenewalDone (run : nat) (r : JsErr + nat)
  | Grant                                   (* the key passes to the oldest waiter *)
  | LinkDown.                               (* the peer closes the link *)

Definition unfinished (ph : InitPhase) : bool :=
  match ph with Finished _ => false | _ => true end.

Definition creating (ph : InitPhase) : bool :=
  match ph with AwaitCreate => true | _ => false end.

Definition wake (run : nat) (r : option JsErr) (c : CallState) : CallState :=
  match c with
  | Waiting run' => if decide (run' = run) then Initialised run r else c
  | _ => c
  end.

(** A run moved to phase [ph].  When it has finished, the key is
    released and the call that handed the run to the lock receives its
    outcome. *)
Definition record_phase (run : nat) (ph : InitPhase) (w : World) (s : Sys) : Sys :=
  match ph with
  | Finished r =>
      {| world := w; holder := None; queue := queue s;
         runs := <[run := Started ph]> (runs s);
         calls := wake run r <$> calls s |}
  | _ =>
      {| world := w; holder := holder s; queue := queue s;
         runs := <[run := Started ph]> (runs s); calls := calls s |}
  end.

(** The lock calls the closure of the run that now holds the key:
    [_init] runs up to its first suspension. *)
Definition start (run : nat) (rest : list nat) (s : Sys) : Sys :=
  let '(ph, w) := init_start (world s) in
  record_phase run ph w
    {| world := world s; holder := Some run; queue := rest;
       runs := runs s; calls := calls s |}.

(** Modelled from the spec: [defaultLock] of ./amqp-common is not among
    the sources.  Section 2 has it a named mutex under which at most one
    initialization routine runs per key at a time; by section 4.2 every
    caller runs [_init] once it has acquired the key, and [_init] looks
    at the link again because another waiter may have opened it; by
    section 7 the key is released when initialisation fails, so that a
    later call may try again.  So [acquire] calls the closure at once
    when the key is free, and otherwise keeps it until the runs handed
    in before it have finished; it settles with the outcome of the
    closure it was given.  (Section 4.1 has later callers share the
    result of the run in progress without their closure being called;
    lines 100 and 128 hand the lock a closure per call and [_init]
    re-checks, which is the discipline taken here.) *)
Definition acquire (s : Sys) : Sys :=
  let run := length (runs s) in
  let s' := {| world := log (ELockAcquire senderLock) (world s);
               holder := holder s; queue := queue s;
               runs := runs s ++ [Queued];
               calls := calls s ++ [Waiting run] |} in
  match holder s, queue s with
  | None, [] => start run [] s'
  | _, _ =>
      {| world := world s'; holder := holder s; queue := queue s ++ [run];
         runs := runs s'; calls := calls s' |}
  end.

(** The key, released, goes to the oldest waiter. *)
Definition grant (s : Sys) : option Sys :=
  match holder s, queue s with
  | None, run :: rest => Some (start run rest s)
  | _, _ => None
  end.

Definition add_call (c : CallState) (s : Sys) : Sys :=
  {| world := world s; holder := holder s; queue := queue s;
     runs := runs s; calls := calls s ++ [c] |}.

(** A call, up to its first suspension (lines 92-101 and 120-129). *)
Definition call (arg_ok : bool) (msg : string) (s : Sys) : Sys :=
  if negb arg_ok then add_call (Invalid (PlainError msg)) s
  else if negb (_isOpen (world s)) then acquire s
  else add_call Skipped s.

(** Whether a run is suspended at the given [await]. *)
Definition suspended_at (expected : InitPhase) (r : Run) : bool :=
  match expected, r with
  | AwaitClaim, Started AwaitClaim
  | AwaitCreate, Started AwaitCreate
  | AwaitRenewal, Started AwaitRenewal => true
  | _, _ => false
  end.

(** The operation a run awaits settles and the run goes on to its next
    suspension. *)
Definition resume (run : nat) (expected : InitPhase)
    (k : World -> InitPhase * World) (s : Sys) : option Sys :=
  match runs s !! run with
  | Some r =>
      if suspended_at expected r then
        let '(ph', w) := k (world s) in Some (record_phase run ph' w s)
      else None
  | None => None
  end.

Definition link_down (l : Link) : Link :=
  {| l_isOpen := false; l_credit := l_credit l;
     l_handlers := l_handlers l; l_sent := l_sent l |}.

(** One scheduling step; [None] when the event cannot occur. *)
Definition step (s : Sys) (e : SysEvent) : option Sys :=
  match e with
  | CallSend data =>
      Some (call (send_arg_ok data)
                 "data is required and it must be of type object." s)
  | CallSendBatch datas =>
      Some (call (batch_arg_ok datas)
                 "data is required and it must be an Array." s)
  | ClaimDone run r => resume run AwaitClaim (init_after_claim r) s
  | CreateDone run r => resume run AwaitCreate (init_after_create r) s
  | RenewalDone run r => resume run AwaitRenewal (init_after_renewal r) s
  | Grant => grant s
  | LinkDown =>
      Some {| world := with_link link_down (world s); holder := holder s;
              queue := queue s; runs := runs s; calls := calls s |}
  end.

Fixpoint exec (s : Sys) (es : list SysEvent) : option Sys :=
  match es with
  | [] => Some s
  | e :: es' =>
      match step s e with
      | Some s' => exec s' es'
      | None => None
      end
  end.

(** A sender just constructed by [MessageSender.create], which puts it
    in the context's slot: no link, nothing under its key. *)
Definition fresh_world : World :=
  {| _sender := None; ctx_sender := true; _tokenRenewalTimer := None;
     promises := []; trace := [] |}.

Definition fresh : Sys :=
  {| world := fresh_world; holder := None; queue := [];
     runs := []; calls := [] |}.

(** The run a call handed to the lock. *)
Definition run_of (c : CallState) : option nat :=
  match c with
  | Waiting r | Initialised r _ => Some r
  | _ => None
  end.

(** Runs of [_init] under way, link-open attempts in flight, and
    attempts made so far. *)
Definition under_way (r : Run) : bool :=
  match r with Started ph => unfinished ph | Queued => false end.

Definition attempting (r : Run) : bool :=
  match r with Started ph => creating ph | Queued => false end.

Definition running (s : Sys) : nat :=
  length (filter (fun r => under_way r = true) (runs s)).

Definition in_flight (s : Sys) : nat :=
  length (filter (fun r => attempting r = true) (runs s)).

Definition is_create (e : Effect) : bool :=
  match e with ECreateSender => true | _ => false end.

Definition attempts (s : Sys) : nat :=
  length (filter (fun e => is_create e = true) (trace (world s))).

End Concurrent.
End Concurrent.

(** ** SubscriptionClient: the receive guards *)

Module SubscriptionClient.

Record ReceiveOptions := {
  maxConcurrentCalls : Z;
  receiveMode : Z;
  autoComplete : option bool;
}.

(** A receiver as the client sees it: [isOpen()] and
    [isReceivingMessages] answer from the state the receiver is in when
    asked. *)
Record Receiver := {
  receiverType : string;
  r_id : string;
  isOpen : bool;
  isReceivingMessages : bool;
  r_options : ReceiveOptions;
}.

Inductive ClientEffect : Type :=
  | EStreamingReceive (r : Receiver)            (* sReceiver.receive(onMessage, onError) *)
  | EBatchingReceive (r : Receiver) (maxMessageCount : Z)
                     (maxWaitTimeInSeconds : option Z).

(** The client together with its entity context. *)
Record Client := {
  name : string;
  this_maxConcurrentCalls : Z;
  this_receiveMode : Z;
  streamingReceiver : option Receiver;     (* this._context.streamingReceiver *)
  batchingReceiver : option Receiver;      (* this._context.batchingReceiver *)
  effects : list ClientEffect;
}.

(** [StreamingReceiver.create] and [BatchingReceiver.create], which are
    not among the sources: each builds a receiver for the context from
    the options it is given. *)
Class Receivers := {
  StreamingReceiver_create : Client -> ReceiveOptions -> Receiver;
  BatchingReceiver_create : Client -> ReceiveOptions -> Receiver;
}.

Record MessageHandlerOptions := { mh_autoComplete : option bool }.

(** [new ReceiveHandler(sReceiver)]. *)
Record ReceiveHandler := { rh_receiver : Receiver }.

Section Client.

Context {R : Receivers}.

Definition set_streaming (r : Receiver) (c : Client) : Client :=
  {| name := name c; this_maxConcurrentCalls := this_maxConcurrentCalls c;
     this_receiveMode := this_receiveMode c;
     streamingReceiver := Some r; batchingReceiver := batchingReceiver c;
     effects := effects c |}.

Definition set_batching (r : Receiver) (c : Client) : Client :=
  {| name := name c; this_maxConcurrentCalls := this_maxConcurrentCalls c;
     this_receiveMode := this_receiveMode c;
     streamingReceiver := streamingReceiver c; batchingReceiver := Some r;
     effects := effects c |}.

Definition note (e : ClientEffect) (c : Client) : Client :=
  {| name := name c; this_maxConcurrentCalls := this_maxConcurrentCalls c;
     this_receiveMode := this_receiveMode c;
     streamingReceiver := streamingReceiver c;
     batchingReceiver := batchingReceiver c;
     effects := effects c ++ [e] |}.

Definition receive_conflict (rcvr : Receiver) (c : Client) : string :=
  "A " ++ dquote ++ receiverType rcvr ++ dquote ++ " receiver with id " ++
  dquote ++ r_id rcvr ++ dquote ++ " has already been " ++
  "created for the Subscription " ++ dquote ++ name c ++ dquote ++
  ". Another receive() call cannot be made while " ++
  "the previous one is active. Please stop the previous receive() by calling " ++
  dquote ++ "receiveHandler.stop()" ++ dquote ++ ".".

Definition receiveBatch_conflict (rcvr : Receiver) (c : Client) : string :=
  "A " ++ dquote ++ receiverType rcvr ++ dquote ++ " receiver with id " ++
  dquote ++ r_id rcvr ++ dquote ++ " has already been " ++
  "created for the Subscription " ++ dquote ++ name c ++ dquote ++
  ". Another receiveBatch() call cannot be made" ++
  "while the previous one is active. Please wait for the previous receiveBatch() to complete" ++
  "and then call receiveBatch() again.".

(** The guard of [receive]:
    [!sr || (sr && !sr.isOpen())]. *)
Definition may_receive (c : Client) : bool :=
  match streamingReceiver c with
  | None => true
  | Some sr => negb (isOpen sr)
  end.

(** [receive(onMessage, onError, options)]. *)
Definition receive (options : option MessageHandlerOptions) (c : Client)
    : Res ReceiveHandler * Client :=
  if may_receive c then
    let options := default {| mh_autoComplete := None |} options in
    let rcvOptions :=
      {| maxConcurrentCalls := this_maxConcurrentCalls c;
         receiveMode := this_receiveMode c;
         autoComplete := mh_autoComplete options |} in
    let sReceiver := StreamingReceiver_create c rcvOptions in
    let c := set_streaming sReceiver c in
    let c := note (EStreamingReceive sReceiver) c in
    (Return {| rh_receiver := sReceiver |}, c)
  else
    match streamingReceiver c with
    | Some rcvr => (Throw (PlainError (receive_conflict rcvr c)), c)
    | None => (Throw (TypeError "Cannot read property 'receiverType' of undefined"), c)
    end.

(** The guard of [receiveBatch]:
    [!br || (br && !br.isOpen()) || (br && !br.isReceivingMessages)]. *)
Definition may_receiveBatch (c : Client) : bool :=
  match batchingReceiver c with
  | None => true
  | Some br => negb (isOpen br) || negb (isReceivingMessages br)
  end.

(** [receiveBatch(maxMessageCount, maxWaitTimeInSeconds)]; [result]
    is how [await bReceiver.receive(...)] settles. *)
Definition receiveBatch {Message : Type} (maxMessageCount : Z)
    (maxWaitTimeInSeconds : option Z) (result : Res (list Message))
    (c : Client) : Res (list Message) * Client :=
  if may_receiveBatch c then
    let options :=
      {| maxConcurrentCalls := this_maxConcurrentCalls c;
         receiveMode := this_receiveMode c;
         autoComplete := None |} in
    let bReceiver := BatchingReceiver_create c options in
    let c := set_batching bReceiver c in
    let c := note (EBatchingReceive bReceiver maxMessageCount maxWaitTimeInSeconds) c in
    (result, c)
  else
    match batchingReceiver c with
    | Some rcvr => (Throw (PlainError (receiveBatch_conflict rcvr c)), c)
    | None => (Throw (TypeError "Cannot read property 'receiverType' of undefined"), c)
    end.

End Client.

End SubscriptionClient.

(** ** Concrete surroundings, used to run the model *)

Module Fixtures.

Definition sample_translate (e : JsErr) : JsErr :=
  match e with
  | FromAmqp a => MessagingError (condition a) (description a)
  | PlainError m => MessagingError "Error" m
  | TypeError m => MessagingError "TypeError" m
  | MessagingError n m => MessagingError n m
  end.

(** The property names of rhea-promise's [messageProperties]. *)
Definition sample_messageProperties : list string :=
  ["message_id"; "reply_to"; "to"; "correlation_id"; "content_type";
   "absolute_expiry_time"; "group_id"; "group_sequence";
   "reply_to_group_id"; "content_encoding"; "creation_time"; "subject";
   "user_id"].

Definition sample_toAmqpMessage (v : JsVal) : gmap string JsVal :=
  match v with JObj o => o | _ => ∅ end.

Definition sample_encode (m : gmap string JsVal) : Buffer :=
  match get m "body" with
  | JBuffer b => b
  | _ => []
  end.

Definition sample_env : SenderEnv :=
  {| connectionId := "conn-1";
     this_id := "sender-1";
     senderLock := "sender-lock-1";
     translate := sample_translate;
     translate_undefined :=
       Throw (TypeError "Cannot read properties of undefined");
     retryable := fun _ => true;
     retries := 2;
     toAmqpMessage := sample_toAmqpMessage;
     dataTransformer_encode := fun v => v;
     message_encode := sample_encode;
     messageProperties := sample_messageProperties |}.

Definition open_link (credit : nat) : Link :=
  {| l_isOpen := true; l_credit := credit; l_handlers := []; l_sent := [] |}.

Definition world_with (l : option Link) : World :=
  {| _sender := l; ctx_sender := true; _tokenRenewalTimer := Some 7%nat;
     promises := []; trace := [] |}.

Definition sample_delivery (e : option AmqpError) : EventContext :=
  {| delivery := {| d_id := 0; remote_error := e |} |}.

Definition sample_message : gmap string JsVal :=
  {["body" := JStr "Hello sb world!!"]}.

Definition sample_payload : Payload := PMessage sample_message.

(** The first message numbers itself 0. *)
Definition first_message : gmap string JsVal :=
  <["message_id" := JNum 0]> {["body" := JBuffer []]}.

Definition second_message : gmap string JsVal :=
  <["message_id" := JNum 1]> {["body" := JBuffer []]}.

Definition sample_receiver (kind rid : string) (open receiving : bool)
    (o : SubscriptionClient.ReceiveOptions) : SubscriptionClient.Receiver :=
  {| SubscriptionClient.receiverType := kind;
     SubscriptionClient.r_id := rid;
     SubscriptionClient.isOpen := open;
     SubscriptionClient.isReceivingMessages := receiving;
     SubscriptionClient.r_options := o |}.

(** Receivers as they are right after construction: no link yet. *)
Definition sample_receivers : SubscriptionClient.Receivers :=
  {| SubscriptionClient.StreamingReceiver_create :=
       fun _ o => sample_receiver "streaming" "receiver-2" false false o;
     SubscriptionClient.BatchingReceiver_create :=
       fun _ o => sample_receiver "batching" "receiver-3" false false o |}.

Definition sample_options : SubscriptionClient.ReceiveOptions :=
  {| SubscriptionClient.maxConcurrentCalls := 1;
     SubscriptionClient.receiveMode := 1;
     SubscriptionClient.autoComplete := None |}.

(** A client whose context holds an open streaming receiver and an open
    batching receiver that is receiving. *)
Definition busy_client : SubscriptionClient.Client :=
  {| SubscriptionClient.name := "topic/Subscriptions/sub";
     SubscriptionClient.this_maxConcurrentCalls := 1;
     SubscriptionClient.this_receiveMode := 1;
     SubscriptionClient.streamingReceiver :=
       Some (sample_receiver "streaming" "receiver-0" true true sample_options);
     SubscriptionClient.batchingReceiver :=
       Some (sample_receiver "batching" "receiver-1" true true sample_options);
     SubscriptionClient.effects := [] |}.

End Fixtures.

(** ** Notions used to state the properties *)

(** The registrations on the sender's link whose closure belongs to
    promise [p]. *)
Definition mentions (p : nat) (w : World) : list (SenderEvent * Handler) :=
  match _sender w with
  | Some l => filter (fun x => h_promise x.2 = p) (l_handlers l)
  | None => []
  end.

(** The four registrations one [_trySend] call makes, in its order. *)
Definition own_handlers (p : nat) : list (SenderEvent * Handler) :=
  [(accepted, handler accepted p); (rejected, handler rejected p);
   (modified, handler modified p); (released, handler released p)].

Definition is_settled (s : option PState) : bool :=
  match s with
  | Some (Resolved _) | Some (Rejected _) => true
  | _ => false
  end.


(** How often a closure of promise [p] has run. *)
Definition is_fire_of (p : nat) (e : Effect) : bool :=
  match e with
  | EFired h => bool_decide (h_promise h = p)
  | _ => false
  end.

Definition fired_for (p : nat) (tr : list Effect) : nat :=
  length (filter (fun e => is_fire_of p e = true) tr).

(** Whether the sender holds a link with send credit. *)
Definition sendable_now (w : World) : bool :=
  match _sender w with
  | Some l => sendable l
  | None => false
  end.

(** Messages handed to the link so far. *)
Definition sent (w : World) : list Payload :=
  match _sender w with
  | Some l => l_sent l
  | None => []
  end.

(** The outcome the settlement contract gives a disposition: accepted
    resolves with the delivery; rejected fails with the translated remote
    error; released and modified fail with the translated remote error
    when there is one and with a synthetic error otherwise.  The contract
    names no outcome for a rejected disposition that reports no error. *)
Definition spec_outcome `{SenderEnv} (ev : SenderEvent) (ctx : EventContext)
    : option PState :=
  match ev with
  | accepted => Some (Resolved (delivery ctx))
  | rejected =>
      match remote_error (delivery ctx) with
      | Some e => Some (Rejected (translate (FromAmqp e)))
      | None => None
      end
  | released =>
      match remote_error (delivery ctx) with
      | Some e => Some (Rejected (translate (FromAmqp e)))
      | None => Some (Rejected (PlainError release_message))
      end
  | modified =>
      match remote_error (delivery ctx) with
      | Some e => Some (Rejected (translate (FromAmqp e)))
      | None => Some (Rejected (PlainError modified_message))
      end
  end.

(** Two worlds agree on everything that concerns promise [p]. *)
Definition untouched (p : nat) (w w' : World) : Prop :=
  promises w' !! p = promises w !! p
  ∧ mentions p w' = mentions p w
  ∧ (_sender w' = None ↔ _sender w = None)
  ∧ fired_for p (trace w') = fired_for p (trace w).

(** The link's registrations are such as [_trySend] makes them: each
    names a promise that exists and sits under the event its closure
    serves. *)
Definition handlers_wf (w : World) : Prop :=
  match _sender w with
  | Some l =>
      Forall (fun x => h_promise x.2 < length (promises w) ∧ h_event x.2 = x.1)
             (l_handlers l)
  | None => True
  end.

(** The sender once the four registrations of promise [p] are taken off
    its link, in the order of [removeListeners]. *)
Definition stripped `{SenderEnv} (p : nat) (w : World) : World :=
  unregister modified p
    (unregister released p
      (unregister accepted p
        (unregister rejected p w))).

(** Where the attempt with promise [p], made in world [w0], stands in
    [w]: its four closures are on the link and none has run, or one has
    run and none is on the link. *)
Definition attempt_open (p : nat) (w0 w : World) : Prop :=
  mentions p w = own_handlers p
  ∧ promises w !! p = Some Pending
  ∧ fired_for p (trace w) = fired_for p (trace w0).

Definition attempt_over (p : nat) (w0 w : World) : Prop :=
  mentions p w = []
  ∧ fired_for p (trace w) = S (fired_for p (trace w0)).

(** The retry as section 4.2 words it, to be compared with [_trySend]:
    what is retried is the send attempt, so every attempt builds its
    promise anew and runs the executor again. *)
Definition _trySend_as_specified `{SenderEnv} (m : Payload)
    (evs : list LoopEvent) (w : World) : Outcome Delivery :=
  retry retries (sendEventPromise m) evs w.

(** The properties the envelope of a batch may take from the first
    message. *)
Definition metadata_keys `{SenderEnv} : list string :=
  "message_annotations" :: "application_properties" :: messageProperties.

(** The effects of initialisation: everything but handler registration
    and sending. *)
Definition is_delivery_effect (e : Effect) : bool :=
  match e with
  | ERegister _ _ | ELinkSend _ => true
  | _ => false
  end.

(** What holds of every state the callers of one sender can reach: the
    run that holds the key is the only one under way; the runs in the
    queue are those not called yet, each once; every call that went to
    the lock has a run of its own, which is not finished while the call
    waits and whose outcome the call holds afterwards; and a run is
    before or at its [createSender] only while there is no open link. *)
Record serialised (s : Concurrent.Sys) : Prop := {
  ser_holder : ∀ r ph,
    Concurrent.runs s !! r = Some (Concurrent.Started ph) →
    Concurrent.unfinished ph = true → Concurrent.holder s = Some r;
  ser_held : ∀ r,
    Concurrent.holder s = Some r →
    ∃ ph, Concurrent.runs s !! r = Some (Concurrent.Started ph)
          ∧ Concurrent.unfinished ph = true;
  ser_queue : ∀ r,
    r ∈ Concurrent.queue s ↔ Concurrent.runs s !! r = Some Concurrent.Queued;
  ser_nodup : NoDup (Concurrent.queue s);
  ser_own : ∀ i j c c' r,
    Concurrent.calls s !! i = Some c → Concurrent.calls s !! j = Some c' →
    Concurrent.run_of c = Some r → Concurrent.run_of c' = Some r → i = j;
  ser_waiting : ∀ i r,
    Concurrent.calls s !! i = Some (Concurrent.Waiting r) →
    Concurrent.runs s !! r = Some Concurrent.Queued
    ∨ ∃ ph, Concurrent.runs s !! r = Some (Concurrent.Started ph)
            ∧ Concurrent.unfinished ph = true;
  ser_done : ∀ i r o,
    Concurrent.calls s !! i = Some (Concurrent.Initialised r o) →
    Concurrent.runs s !! r = Some (Concurrent.Started (Finished o));
  ser_closed : ∀ r ph,
    Concurrent.runs s !! r = Some (Concurrent.Started ph) →
    ph = AwaitClaim ∨ ph = AwaitCreate →
    _isOpen (Concurrent.world s) = false;
}.

(** The outcome of a run of [_init] whose claim negotiation succeeds. *)
Definition init_outcome `{SenderEnv} (cr : JsErr + Link) (rr : JsErr + nat)
    : option JsErr :=
  match cr, rr with
  | inl e, _ => Some (translate e)
  | inr _, inl e => Some (translate e)
  | inr _, inr _ => None
  end.

(** The sender after [n] more calls went to the lock. *)
Definition acquired `{SenderEnv} (n : nat) (w : World) : World :=
  Nat.iter n (log (ELockAcquire senderLock)) w.

(** [n] calls issued before anything settles. *)
Definition burst (n : nat) (data : JsVal) : list Concurrent.SysEvent :=
  replicate n (Concurrent.CallSend data).

(** The run of the first caller taken through an attempt that yields the
    link [l], after which the key goes to each waiter in turn. *)
Definition first_opens (n : nat) (l : Link) (rr : JsErr + nat)
    : list Concurrent.SysEvent :=
  [Concurrent.ClaimDone 0 None; Concurrent.CreateDone 0 (inr l);
   Concurrent.RenewalDone 0 rr]
  ++ replicate n Concurrent.Grant.

(** The run of the first caller taken through an attempt that fails,
    after which the key goes to the next waiter. *)
Definition first_fails (e : JsErr) : list Concurrent.SysEvent :=
  [Concurrent.ClaimDone 0 None; Concurrent.CreateDone 0 (inl e);
   Concurrent.Grant].

(** ** Sequences of operations on one sender *)




(** Calls to [createSender] and to [defaultLock.acquire] made so far. *)
Definition creates (w : World) : nat :=
  length (filter (fun e => Concurrent.is_create e = true) (trace w)).

Definition is_acquire (e : Effect) : bool :=
  match e with ELockAcquire _ => true | _ => false end.

Definition acquires (w : World) : nat :=
  length (filter (fun e => is_acquire e = true) (trace w)).

(** What initialisation decides about a sender: whether its link is
    open, how often a link was asked for and the lock taken, the context
    slot and the renewal timer. *)
Definition opening (w : World) : bool * nat * nat * bool * option nat :=
  (_isOpen w, creates w, acquires w, ctx_sender w, _tokenRenewalTimer w).

(** ** TopicClient *)

Module TopicClient.

(** The client with the part of its entity context it uses: the
    connection of the namespace, absent or open or not, and the sender
    slot with the state of the sender it refers to. *)
Record Client := {
  client_id : string;
  connection : option bool;
  context_sender : option World;
}.

Section TopicClient.

Context {E : SenderEnv}.
(** [JSON.stringify] on what was caught. *)
Variable JSON_stringify : JsErr -> string.

(** [connection && connection.isOpen()]. *)
Definition connected (c : Client) : bool :=
  match connection c with
  | Some isOpen => isOpen
  | None => false
  end.

(** The slot as the sender leaves it: the sender clears or sets
    [this._context.sender] itself, and the client reads the slot back. *)
Definition store (w : World) (c : Client) : Client :=
  {| client_id := client_id c; connection := connection c;
     context_sender := if ctx_sender w then Some w else None |}.

Definition close_message (e : JsErr) (c : Client) : string :=
  "An error occurred while closing the topic client " ++
  dquote ++ client_id c ++ dquote ++ ": " ++ JSON_stringify e ++ " ".

(** [TopicClient.close()]; [r] is how the link's own close settles. *)
Definition close (r : option JsErr) (c : Client) : Res unit * Client :=
  if connected c then
    match context_sender c with
    | Some w =>
        match close r w with
        | (Return _, w') => (Return (), store w' c)
        | (Throw e, w') => (Throw (PlainError (close_message e c)), store w' c)
        end
    | None => (Return (), c)
    end
  else (Return (), c).

(** [MessageSender.create(context)]: the sender of the context, built
    and put in the slot when the slot is empty. *)
Definition MessageSender_create (c : Client) : World * Client :=
  match context_sender c with
  | Some w => (w, c)
  | None =>
      (Concurrent.fresh_world,
       {| client_id := client_id c; connection := connection c;
          context_sender := Some Concurrent.fresh_world |})
  end.

(** [await sender.send(data); return Promise.resolve()]: the delivery is
    dropped. *)
Definition void (o : Outcome Delivery) : Outcome unit :=
  match o with
  | Done (Return _) rest w => Done (Return ()) rest w
  | Done (Throw e) rest w => Done (Throw e) rest w
  | Hang w => Hang w
  end.

(** [TopicClient.send(data)]. *)
Definition send (data : JsVal) (ie : InitEnv) (evs : list LoopEvent)
    (c : Client) : Outcome unit * Client :=
  let '(w, c) := MessageSender_create c in
  let o := send data ie evs w in
  (void o, store (final_world o) c).

(** [TopicClient.sendBatch(datas)]. *)
Definition sendBatch (datas : JsVal) (ie : InitEnv) (evs : list LoopEvent)
    (c : Client) : Outcome unit * Client :=
  let '(w, c) := MessageSender_create c in
  let o := sendBatch datas ie evs w in
  (void o, store (final_world o) c).

End TopicClient.

End TopicClient.

(** ** SubscriptionClient: construction and close *)

Module SubscriptionLifecycle.

Import SubscriptionClient.

Record SubscriptionClientOptions := {
  opt_receiveMode : option Z;
  opt_maxConcurrentCalls : option Z;
}.

(** [v || d] on an optional number: [undefined] and 0 give [d]. *)
Definition or_default (v : option Z) (d : Z) : Z :=
  match v with
  | Some n => if (n =? 0)%Z then d else n
  | None => d
  end.

(** The constructor.  [peekLock] is [ReceiveMode.peekLock]; [streaming]
    and [batching] are the receiver slots of the context the base class
    set up. *)
Definition constructor (peekLock : Z) (topicPath subscriptionName : string)
    (options : option SubscriptionClientOptions)
    (streaming batching : option Receiver) : Client :=
  let options :=
    default {| opt_receiveMode := None; opt_maxConcurrentCalls := None |}
            options in
  {| name := topicPath ++ "/Subscriptions/" ++ subscriptionName;
     this_maxConcurrentCalls := or_default (opt_maxConcurrentCalls options) 1;
     this_receiveMode := or_default (opt_receiveMode options) peekLock;
     streamingReceiver := streaming;
     batchingReceiver := batching;
     effects := [] |}.

(** The calls [close] makes on its collaborators. *)
Inductive CloseCall : Type :=
  | CloseStreaming (r : Receiver)       (* this._context.streamingReceiver.close() *)
  | CloseBatching (r : Receiver)
  | CloseManagementSession.             (* this._context.managementSession!.close() *)

Definition close_message (JSON_stringify : JsErr -> string) (id : string)
    (e : JsErr) : string :=
  "An error occurred while closing the subscription client " ++
  dquote ++ id ++ dquote ++ ": " ++ JSON_stringify e ++ " ".

(** [SubscriptionClient.close()].  [connection] is the namespace's
    connection, absent or open or not; [sr] and [ms] are how the
    receiver's and the management session's close settle. *)
Definition close (JSON_stringify : JsErr -> string) (id : string)
    (connection : option bool) (sr ms : option JsErr) (c : Client)
    : Res unit * list CloseCall :=
  if match connection with Some isOpen => isOpen | None => false end then
    match streamingReceiver c with
    | Some r =>
        match sr with
        | Some e =>
            (Throw (PlainError (close_message JSON_stringify id e)),
             [CloseStreaming r])
        | None =>
            match ms with
            | Some e =>
                (Throw (PlainError (close_message JSON_stringify id e)),
                 [CloseStreaming r; CloseManagementSession])
            | None => (Return (), [CloseStreaming r; CloseManagementSession])
            end
        end
    | None =>
        match ms with
        | Some e =>
            (Throw (PlainError (close_message JSON_stringify id e)),
             [CloseManagementSession])
        | None => (Return (), [CloseManagementSession])
        end
    end
  else (Return (), []).

End SubscriptionLifecycle.

(** ** More concrete surroundings *)

Module Scenario.

Import Fixtures.

(** Initialisation that succeeds and yields an open link with credit. *)
Definition good_init : InitEnv :=
  {| claim := None; created := inr (open_link 2); renewal := inr 11%nat |}.

(** Initialisation whose token renewal fails after the link is open. *)
Definition renewal_fails : InitEnv :=
  {| claim := None; created := inr (open_link 2);
     renewal := inl (PlainError "renewal failed") |}.

Definition claim_fails : InitEnv :=
  {| claim := Some (PlainError "unauthorized");
     created := inr (open_link 2); renewal := inr 11%nat |}.

Definition sample_stringify (e : JsErr) : string := "{}".

Definition topic_client (s : option World) : TopicClient.Client :=
  {| TopicClient.client_id := "topic-1";
     TopicClient.connection := Some true;
     TopicClient.context_sender := s |}.

Definition idle_client : SubscriptionClient.Client :=
  SubscriptionLifecycle.constructor 1 "topic" "sub"
    (Some {| SubscriptionLifecycle.opt_receiveMode := None;
             SubscriptionLifecycle.opt_maxConcurrentCalls := Some 0%Z |})
    None None.

End Scenario.

(** * Properties *)

Local Open Scope list_scope.

Lemma string_app_assoc (a b c : string) :
  ((a ++ b) ++ c = a ++ (b ++ c))%string.
Proof.
  induction a as [|x a IH]; [reflexivity|].
  change (String x ((a ++ b) ++ c) = String x (a ++ (b ++ c)))%string.
  by f_equal.
Qed.

(** ** Promises settle once *)

Section PromiseFacts.

Implicit Types (w : World) (p q : nat) (s : PState).

Lemma settle_sender p s w : _sender (settle p s w) = _sender w.
Proof. unfold settle. by repeat case_match. Qed.

Lemma settle_trace p s w : trace (settle p s w) = trace w.
Proof. unfold settle. by repeat case_match. Qed.

Lemma settle_pending p s w :
  promises w !! p = Some Pending → promises (settle p s w) !! p = Some s.
Proof.
  intros Hp. unfold settle. rewrite Hp. simpl.
  apply list_lookup_insert_eq. by eapply lookup_lt_Some.
Qed.

Lemma settle_other p q s w :
  p ≠ q → promises (settle p s w) !! q = promises w !! q.
Proof.
  intros Hne. unfold settle.
  repeat case_match; try done. simpl. by apply list_lookup_insert_ne.
Qed.

Lemma settle_settled p s w :
  promises w !! p ≠ Some Pending → settle p s w = w.
Proof. intros Hp. unfold settle. by repeat case_match. Qed.

Lemma settle_length p s w : length (promises (settle p s w)) = length (promises w).
Proof. unfold settle. repeat case_match; try done. simpl. apply length_insert. Qed.

End PromiseFacts.

(** ** Disposition handlers *)

Section HandlerFacts.

Context {E : SenderEnv}.
Implicit Types (w : World) (p q : nat) (h : Handler) (ev : SenderEvent)
  (ctx : EventContext) (hs : list (SenderEvent * Handler)).

Lemma remove_first_filter_out (P : SenderEvent * Handler → Prop)
    `{!∀ x, Decision (P x)} x hs :
  ¬ P x → filter P (remove_first x hs) = filter P hs.
Proof.
  intros Hx. induction hs as [|y ys IH]; [done|]. simpl.
  case_decide as Heq.
  - subst y. by rewrite filter_cons_False.
  - rewrite !filter_cons. by rewrite IH.
Qed.

Lemma remove_first_filter_in (P : SenderEvent * Handler → Prop)
    `{!∀ x, Decision (P x)} x hs :
  P x → filter P (remove_first x hs) = remove_first x (filter P hs).
Proof.
  intros Hx. induction hs as [|y ys IH]; [done|]. simpl.
  case_decide as Heq.
  - subst y. rewrite filter_cons_True by done. simpl. by rewrite decide_True.
  - rewrite !filter_cons. destruct (decide (P y)); simpl.
    + rewrite decide_False by done. by rewrite IH.
    + done.
Qed.

Lemma fired_for_app p tr tr' :
  fired_for p (tr ++ tr') = fired_for p tr + fired_for p tr'.
Proof. unfold fired_for. by rewrite filter_app, length_app. Qed.

Lemma untouched_refl p w : untouched p w w.
Proof. by repeat split. Qed.

Lemma untouched_trans p w1 w2 w3 :
  untouched p w1 w2 → untouched p w2 w3 → untouched p w1 w3.
Proof.
  intros (a1 & a2 & a3 & a4) (b1 & b2 & b3 & b4). repeat split.
  - congruence.
  - congruence.
  - intros. by apply a3, b3.
  - intros. by apply b3, a3.
  - congruence.
Qed.

Lemma untouched_unregister ev p q w :
  q ≠ p → untouched p w (unregister ev q w).
Proof.
  intros Hne. unfold untouched, mentions, unregister, with_link.
  destruct w as [[l|] c t ps tr]; simpl; rewrite fired_for_app; simpl.
  - repeat split; try done; try lia.
    apply remove_first_filter_out. simpl. congruence.
  - repeat split; try done; lia.
Qed.

Lemma untouched_settle p q s w : q ≠ p → untouched p w (settle q s w).
Proof.
  intros Hne. unfold untouched, mentions.
  rewrite settle_other, settle_sender, settle_trace by done. by repeat split.
Qed.

Lemma untouched_log_fired p h w :
  h_promise h ≠ p → untouched p w (log (EFired h) w).
Proof.
  intros Hne. unfold untouched, mentions. simpl. rewrite fired_for_app.
  unfold fired_for at 2. simpl. rewrite filter_cons_False, filter_nil.
  - repeat split; try done; simpl; lia.
  - simpl. rewrite bool_decide_eq_false_2 by done. done.
Qed.

Lemma sent_unregister ev q w : sent (unregister ev q w) = sent w.
Proof. unfold sent, unregister, with_link. by destruct w as [[l|] c t ps tr]. Qed.

Lemma sent_settle q s w : sent (settle q s w) = sent w.
Proof. unfold sent. by rewrite settle_sender. Qed.

Lemma removeListeners_stripped p w :
  _sender w ≠ None → removeListeners p w = Some (stripped p w).
Proof. intros Hs. unfold removeListeners. by destruct (_sender w). Qed.

(** What running a closure comes to: without a link its first call
    throws; with one, the four registrations of its promise are taken
    off, and then the promise is settled, or the closure throws and the
    promise is left as it was. *)
Lemma fire_shape h ctx w :
  let w0 := log (EFired h) w in
  match _sender w with
  | None => ∃ e, fire h ctx w = (Throw e, w0)
  | Some _ =>
      (∃ s, fire h ctx w
            = (Return (), settle (h_promise h) s (stripped (h_promise h) w0)))
      ∨ (∃ e, fire h ctx w = (Throw e, stripped (h_promise h) w0))
  end.
Proof.
  simpl. unfold fire, removeListeners.
  change (_sender (log (EFired h) w)) with (_sender w).
  destruct (_sender w) as [l|]; [|by eexists].
  fold (stripped (h_promise h) (log (EFired h) w)).
  destruct (h_event h); unfold resolve, reject;
    [left; by eexists| |left; by eexists|left; by eexists].
  destruct (rejection_error ctx); [left|right]; by eexists.
Qed.

Lemma untouched_stripped p q w : q ≠ p → untouched p w (stripped q w).
Proof.
  intros Hne. unfold stripped.
  repeat (eapply untouched_trans; [|by apply untouched_unregister]).
  apply untouched_refl.
Qed.

Lemma sent_stripped q w : sent (stripped q w) = sent w.
Proof. unfold stripped. by rewrite !sent_unregister. Qed.

(** A closure of another promise leaves promise [p] and its
    registrations alone. *)
Lemma fire_other h ctx p w :
  h_promise h ≠ p → untouched p w (fire h ctx w).2.
Proof.
  intros Hne. pose proof (fire_shape h ctx w) as Hshape. simpl in Hshape.
  pose proof (untouched_log_fired p h w Hne) as H0.
  destruct (_sender w) as [l|].
  - pose proof (untouched_stripped p (h_promise h) (log (EFired h) w) Hne) as H1.
    destruct Hshape as [[s ->]|[e ->]]; simpl.
    + eapply untouched_trans; [exact H0|].
      eapply untouched_trans; [exact H1|]. by apply untouched_settle.
    + eapply untouched_trans; [exact H0|exact H1].
  - by destruct Hshape as [e ->].
Qed.

Lemma fire_sent h ctx w : sent (fire h ctx w).2 = sent w.
Proof.
  pose proof (fire_shape h ctx w) as Hshape. simpl in Hshape.
  destruct (_sender w) as [l|] eqn:Hl.
  - destruct Hshape as [[s ->]|[e ->]]; simpl;
      rewrite ?sent_settle, sent_stripped; unfold sent; simpl; by rewrite Hl.
  - destruct Hshape as [e ->]. unfold sent. simpl. by rewrite Hl.
Qed.

Lemma run_listeners_app (hs1 hs2 : list Handler) ctx w :
  run_listeners (hs1 ++ hs2) ctx w =
    match run_listeners hs1 ctx w with
    | (Return _, w') => run_listeners hs2 ctx w'
    | (Throw e, w') => (Throw e, w')
    end.
Proof.
  revert w. induction hs1 as [|h hs1 IH]; intros w; simpl; [done|].
  destruct (fire h ctx w) as [[[]|e] w']; [apply IH|done].
Qed.

Lemma run_listeners_other ctx p (hs : list Handler) w :
  Forall (λ h, h_promise h ≠ p) hs →
  untouched p w (run_listeners hs ctx w).2.
Proof.
  intros Hall. revert w. induction Hall as [|h hs Hh _ IH]; intros w; simpl.
  - apply untouched_refl.
  - pose proof (fire_other h ctx p w Hh) as H1.
    destruct (fire h ctx w) as [[[]|e] w']; simpl in *; [|done].
    eapply untouched_trans; [exact H1|apply IH].
Qed.

Lemma run_listeners_sent ctx (hs : list Handler) w :
  sent (run_listeners hs ctx w).2 = sent w.
Proof.
  revert w. induction hs as [|h hs IH]; intros w; simpl; [done|].
  pose proof (fire_sent h ctx w) as H1.
  destruct (fire h ctx w) as [[[]|e] w']; simpl in *; [|done].
  by rewrite IH.
Qed.

Lemma emit_sent ev ctx w : sent (emit ev ctx w).2 = sent w.
Proof. unfold emit. destruct (_sender w); [apply run_listeners_sent|done]. Qed.

Lemma dispatch_sent e w : sent (dispatch e w) = sent w.
Proof.
  destruct e; simpl; [apply emit_sent| |done].
  unfold sent, with_link. by destruct w as [[l|] c t ps tr].
Qed.

End HandlerFacts.

(** ** One send attempt *)

Section TrySendFacts.

Context {E : SenderEnv}.
Implicit Types (w : World) (p q : nat) (h : Handler) (ev : SenderEvent)
  (ctx : EventContext) (l : Link) (m : Payload).

Lemma register_world ev p l c t ps tr :
  register ev p {| _sender := Some l; ctx_sender := c;
                   _tokenRenewalTimer := t; promises := ps; trace := tr |}
  = {| _sender := Some (registerHandler ev (handler ev p) l);
       ctx_sender := c; _tokenRenewalTimer := t; promises := ps;
       trace := tr ++ [ERegister ev (handler ev p)] |}.
Proof. reflexivity. Qed.

(** The attempt on a link with credit, written out. *)
Lemma sendEventPromise_sendable m w l :
  _sender w = Some l → sendable l = true →
  let p := length (promises w) in
  sendEventPromise m w =
    (p, {| _sender := Some {| l_isOpen := l_isOpen l;
                              l_credit := pred (l_credit l);
                              l_handlers := l_handlers l ++ own_handlers p;
                              l_sent := l_sent l ++ [m] |};
           ctx_sender := ctx_sender w;
           _tokenRenewalTimer := _tokenRenewalTimer w;
           promises := promises w ++ [Pending];
           trace := trace w ++
             [ERegister accepted (handler accepted p);
              ERegister rejected (handler rejected p);
              ERegister modified (handler modified p);
              ERegister released (handler released p);
              ELinkSend m] |}).
Proof.
  intros Hl Hs. destruct w as [s c t ps tr]. simpl in *. subst s.
  unfold sendEventPromise, new_promise. cbn [_sender set_promises promises
    ctx_sender _tokenRenewalTimer trace]. rewrite Hs.
  unfold set_promises at 1. cbn [_sender promises ctx_sender
    _tokenRenewalTimer trace].
  rewrite !register_world. unfold with_link, log, registerHandler, link_send.
  cbn [_sender set_sender promises ctx_sender _tokenRenewalTimer trace
       l_isOpen l_credit l_handlers l_sent].
  unfold own_handlers. by rewrite <- !app_assoc.
Qed.

(** The attempt on a link without credit, written out. *)
Lemma sendEventPromise_no_credit m w l :
  _sender w = Some l → sendable l = false →
  sendEventPromise m w =
    (length (promises w),
     set_promises (promises w ++ [Rejected (PlainError try_later_message)]) w).
Proof.
  intros Hl Hs. destruct w as [s c t ps tr]. simpl in *. subst s.
  unfold sendEventPromise, new_promise. simpl. rewrite Hs.
  unfold reject, settle, set_promises. simpl.
  rewrite lookup_app_r, Nat.sub_diag by done. simpl.
  by rewrite insert_app_r_alt, Nat.sub_diag by done.
Qed.

Lemma sendEventPromise_sent_le m w :
  let w' := (sendEventPromise m w).2 in
  sent w' = sent w ++ (if sendable_now w then [m] else []).
Proof.
  unfold sendable_now, sent. destruct (_sender w) as [l|] eqn:Hl.
  - destruct (sendable l) eqn:Hs.
    + rewrite (sendEventPromise_sendable m w l Hl Hs). done.
    + rewrite (sendEventPromise_no_credit m w l Hl Hs). simpl.
      by rewrite Hl, app_nil_r.
  - unfold sendEventPromise, new_promise. simpl. rewrite Hl. simpl.
    unfold reject. rewrite settle_sender. simpl. by rewrite Hl.
Qed.

(** After a send on a well-formed link, the new promise is pending and
    owns exactly its four registrations. *)
Lemma sendEventPromise_owned m w l :
  _sender w = Some l → sendable l = true → handlers_wf w →
  let '(p, w') := sendEventPromise m w in
  p = length (promises w)
  ∧ promises w' !! p = Some Pending
  ∧ mentions p w' = own_handlers p
  ∧ fired_for p (trace w') = fired_for p (trace w).
Proof.
  intros Hl Hs Hwf. rewrite (sendEventPromise_sendable m w l Hl Hs).
  split; [done|]. split; [|split].
  - simpl. rewrite lookup_app_r, Nat.sub_diag by done. done.
  - unfold mentions. simpl. rewrite filter_app.
    unfold handlers_wf in Hwf. rewrite Hl in Hwf.
    assert (filter (λ x : SenderEvent * Handler,
                      h_promise x.2 = length (promises w)) (l_handlers l) = [])
      as ->.
    { clear -Hwf. induction Hwf as [|x xs [Hx _] _ IH]; [done|].
      rewrite filter_cons_False; [done|lia]. }
    simpl. unfold own_handlers.
    by rewrite !filter_cons_True by done.
  - simpl. rewrite fired_for_app. unfold fired_for at 2. simpl. lia.
Qed.

End TrySendFacts.

(** ** A disposition settles the attempt it belongs to *)

Section SettlementFacts.

Context {E : SenderEnv}.
Implicit Types (w : World) (p q : nat) (h : Handler) (ev : SenderEvent)
  (ctx : EventContext) (l : Link) (m : Payload) (s : PState).

Lemma mentions_unregister_own ev p w :
  mentions p (unregister ev p w) = remove_first (ev, handler ev p) (mentions p w).
Proof.
  unfold mentions, unregister, with_link.
  destruct w as [[l|] c t ps tr]; simpl; [|done].
  by apply remove_first_filter_in.
Qed.

Lemma remove_own p :
  remove_first (modified, handler modified p)
    (remove_first (released, handler released p)
      (remove_first (accepted, handler accepted p)
        (remove_first (rejected, handler rejected p) (own_handlers p)))) = [].
Proof.
  unfold own_handlers.
  repeat (cbn [remove_first];
          first [ rewrite decide_True by done
                | rewrite decide_False by (intros ?; simplify_eq) ]).
  done.
Qed.

Lemma mentions_settle p q s w : mentions p (settle q s w) = mentions p w.
Proof. unfold mentions. by rewrite settle_sender. Qed.

Lemma unregister_trace ev p w :
  trace (unregister ev p w) = trace w ++ [ERemove ev (handler ev p)].
Proof. unfold unregister, with_link. by destruct w as [[l|] c t ps tr]. Qed.

Lemma unregister_promises ev p w : promises (unregister ev p w) = promises w.
Proof. unfold unregister, with_link. by destruct w as [[l|] c t ps tr]. Qed.

Lemma unregister_sender_None ev p w :
  _sender (unregister ev p w) = None ↔ _sender w = None.
Proof. unfold unregister, with_link. by destruct w as [[l|] c t ps tr]. Qed.

Lemma stripped_trace p w :
  trace (stripped p w) = trace w ++
    [ERemove rejected (handler rejected p);
     ERemove accepted (handler accepted p);
     ERemove released (handler released p);
     ERemove modified (handler modified p)].
Proof. unfold stripped. rewrite !unregister_trace. by rewrite <- !app_assoc. Qed.

Lemma stripped_promises p w : promises (stripped p w) = promises w.
Proof. unfold stripped. by rewrite !unregister_promises. Qed.

Lemma stripped_sender_None p w : _sender (stripped p w) = None ↔ _sender w = None.
Proof. unfold stripped. by rewrite !unregister_sender_None. Qed.

Lemma stripped_own p w :
  mentions p w = own_handlers p → mentions p (stripped p w) = [].
Proof.
  intros Hm. unfold stripped. rewrite !mentions_unregister_own, Hm.
  apply remove_own.
Qed.

(** What a closure does first, and to the link only: it takes the four
    registrations of its promise off. *)
Lemma fire_trace h ctx w :
  _sender w ≠ None →
  trace (fire h ctx w).2 = trace w ++
    [EFired h;
     ERemove rejected (handler rejected (h_promise h));
     ERemove accepted (handler accepted (h_promise h));
     ERemove released (handler released (h_promise h));
     ERemove modified (handler modified (h_promise h))].
Proof.
  intros Hs. pose proof (fire_shape h ctx w) as Hshape. simpl in Hshape.
  destruct (_sender w) as [l|]; [|done].
  destruct Hshape as [[s ->]|[e ->]]; cbn [snd];
    rewrite ?settle_trace, stripped_trace; simpl; by rewrite <- app_assoc.
Qed.

Lemma fire_sender_None h ctx w :
  _sender (fire h ctx w).2 = None ↔ _sender w = None.
Proof.
  pose proof (fire_shape h ctx w) as Hshape. simpl in Hshape.
  destruct (_sender w) as [l|] eqn:Hl.
  - destruct Hshape as [[s ->]|[e ->]]; cbn [snd];
      rewrite ?settle_sender, stripped_sender_None; simpl; by rewrite Hl.
  - destruct Hshape as [e ->]. simpl. by rewrite Hl.
Qed.

(** A closure run on a disposition for which the contract names an
    outcome returns, having settled its promise with that outcome after
    the registrations were taken off. *)
Lemma fire_returns h ctx s w :
  _sender w ≠ None → spec_outcome (h_event h) ctx = Some s →
  fire h ctx w =
    (Return (),
     settle (h_promise h) s (stripped (h_promise h) (log (EFired h) w))).
Proof.
  intros Hs Ho. unfold fire.
  rewrite removeListeners_stripped by done.
  unfold spec_outcome in Ho. unfold resolve, reject, rejection_error,
    disposition_error.
  destruct (h_event h); destruct (remote_error (delivery ctx));
    by simplify_eq.
Qed.


(** Whatever it does afterwards, the closure of [p] leaves [p] without
    registrations and counts as one run. *)
Lemma fire_own_over ev ctx p w :
  _sender w ≠ None → mentions p w = own_handlers p →
  let w' := (fire (handler ev p) ctx w).2 in
  mentions p w' = []
  ∧ fired_for p (trace w') = S (fired_for p (trace w))
  ∧ (promises w' !! p = promises w !! p
     ∨ ∃ s, w' = settle p s (stripped p (log (EFired (handler ev p)) w))).
Proof.
  intros Hs Hm. simpl.
  assert (fired_for p (trace (fire (handler ev p) ctx w).2) =
          S (fired_for p (trace w))) as Hf.
  { rewrite fire_trace by done. rewrite fired_for_app.
    unfold fired_for at 2.
    rewrite filter_cons_True
      by (simpl; by rewrite bool_decide_eq_true_2).
    simpl. lia. }
  split; [|split; [exact Hf|]].
  - pose proof (fire_shape (handler ev p) ctx w) as Hshape. simpl in Hshape.
    destruct (_sender w) as [l|] eqn:Hl; [|done].
    assert (mentions p (stripped p (log (EFired (handler ev p)) w)) = [])
      as Hm1.
    { apply stripped_own. rewrite <- Hm. unfold mentions. simpl. done. }
    destruct Hshape as [[s ->]|[e ->]]; cbn [snd]; by rewrite ?mentions_settle.
  - pose proof (fire_shape (handler ev p) ctx w) as Hshape. simpl in Hshape.
    destruct (_sender w) as [l|] eqn:Hl; [|done].
    destruct Hshape as [[s ->]|[e ->]]; cbn [snd].
    + right. by exists s.
    + left. by rewrite stripped_promises.
Qed.

(** The closure of [p] for the event raised settles [p], and [p] is left
    with no registration. *)
Lemma fire_own ev ctx p s w :
  _sender w ≠ None → mentions p w = own_handlers p →
  promises w !! p = Some Pending → spec_outcome ev ctx = Some s →
  let w' := (fire (handler ev p) ctx w).2 in
  (fire (handler ev p) ctx w).1 = Return ()
  ∧ promises w' !! p = Some s
  ∧ mentions p w' = []
  ∧ fired_for p (trace w') = S (fired_for p (trace w)).
Proof.
  intros Hs Hm Hp Ho. simpl.
  destruct (fire_own_over ev ctx p w Hs Hm) as (Hm' & Hf & _).
  split; [|split; [|split]]; [| |exact Hm'|exact Hf].
  - by rewrite (fire_returns (handler ev p) ctx s w Hs Ho).
  - rewrite (fire_returns (handler ev p) ctx s w Hs Ho). cbn [snd].
    apply settle_pending. by rewrite stripped_promises.
Qed.

Lemma filter_singleton_split {A} (P : A → Prop) `{!∀ x, Decision (P x)}
    (xs : list A) (x : A) :
  filter P xs = [x] →
  ∃ pre post, xs = pre ++ x :: post
              ∧ Forall (λ y, ¬ P y) pre ∧ Forall (λ y, ¬ P y) post.
Proof.
  induction xs as [|y ys IH]; [done|]. rewrite filter_cons.
  destruct (decide (P y)) as [Hy|Hy]; intros Heq.
  - injection Heq as -> Heq. exists [], ys. split; [done|]. split; [constructor|].
    apply Forall_forall. intros z Hz Pz.
    assert (z ∈ filter P ys) as Hin by (by apply list_elem_of_filter).
    rewrite Heq in Hin. by apply elem_of_nil in Hin.
  - destruct (IH Heq) as (pre & post & -> & Hpre & Hpost).
    exists (y :: pre), post. split; [done|]. split; [by constructor|done].
Qed.

(** Among the closures registered for an event, the one of a pending
    attempt occurs once. *)
Lemma listeners_split ev p l :
  filter (λ x : SenderEvent * Handler, h_promise x.2 = p) (l_handlers l)
    = own_handlers p →
  ∃ pre post, listeners ev l = pre ++ handler ev p :: post
              ∧ Forall (λ h, h_promise h ≠ p) pre
              ∧ Forall (λ h, h_promise h ≠ p) post.
Proof.
  intros Hm. unfold listeners.
  assert (filter (λ x : SenderEvent * Handler, h_promise x.2 = p)
            (filter (λ x : SenderEvent * Handler, x.1 = ev) (l_handlers l))
          = [(ev, handler ev p)]) as Hone.
  { rewrite list_filter_filter.
    rewrite (list_filter_iff _ (λ x, x.1 = ev ∧ h_promise x.2 = p))
      by (intros; tauto).
    rewrite <- list_filter_filter, Hm. unfold own_handlers.
    destruct ev; simpl; repeat (rewrite filter_cons; case_decide; simplify_eq);
      done. }
  destruct (filter_singleton_split _ _ _ Hone) as (pre & post & -> & Hpre & Hpost).
  exists pre.*2, post.*2. rewrite fmap_app. split; [done|].
  split; by apply Forall_fmap.
Qed.


(** On a link whose registrations [_trySend] made, the closures under
    an event all serve that event. *)
Lemma listeners_serve ev w l :
  handlers_wf w → _sender w = Some l →
  Forall (λ h, h_event h = ev) (listeners ev l).
Proof.
  intros Hwf Hl. unfold handlers_wf in Hwf. rewrite Hl in Hwf.
  unfold listeners. apply Forall_fmap, Forall_forall.
  intros x [Hev Hin]%list_elem_of_filter. simpl.
  rewrite Forall_forall in Hwf. destruct (Hwf x Hin) as [_ Hx]. congruence.
Qed.

(** On a disposition for which the contract names an outcome, every
    closure serving the event returns. *)
Lemma run_listeners_returns ev ctx s (hs : list Handler) w :
  _sender w ≠ None → spec_outcome ev ctx = Some s →
  Forall (λ h, h_event h = ev) hs →
  (run_listeners hs ctx w).1 = Return ().
Proof.
  intros Hs Ho Hall. revert w Hs.
  induction Hall as [|h hs Hh _ IH]; intros w Hs; simpl; [done|].
  pose proof (fire_sender_None h ctx w) as Hn.
  rewrite (fire_returns h ctx s w Hs) in * by (by rewrite Hh).
  apply IH. cbn [snd] in Hn. by rewrite Hn.
Qed.

(** The first disposition raised after a send settles it, when the
    contract names an outcome for it. *)
Lemma emit_own ev ctx p s w :
  handlers_wf w → _sender w ≠ None → mentions p w = own_handlers p →
  promises w !! p = Some Pending → spec_outcome ev ctx = Some s →
  let w' := (emit ev ctx w).2 in
  (emit ev ctx w).1 = Return ()
  ∧ promises w' !! p = Some s
  ∧ mentions p w' = []
  ∧ fired_for p (trace w') = S (fired_for p (trace w)).
Proof.
  intros Hwf Hs Hm Hp Ho. unfold emit.
  destruct (_sender w) as [l|] eqn:Hl; [|done].
  pose proof (listeners_serve ev w l Hwf Hl) as Hserve.
  assert (filter (λ x : SenderEvent * Handler, h_promise x.2 = p)
            (l_handlers l) = own_handlers p) as Hm'.
  { unfold mentions in Hm. by rewrite Hl in Hm. }
  destruct (listeners_split ev p l Hm') as (pre & post & Heq & Hpre & Hpost).
  rewrite Heq in *. apply Forall_app in Hserve as [Hspre Hspost].
  apply Forall_cons in Hspost as [_ Hspost].
  rewrite run_listeners_app.
  pose proof (run_listeners_returns ev ctx s pre w
                ltac:(by rewrite Hl) Ho Hspre) as Hr1.
  pose proof (run_listeners_other ctx p pre w Hpre) as (a1 & a2 & a3 & a4).
  destruct (run_listeners pre ctx w) as [r1 w1]. cbn [fst snd] in *. subst r1.
  cbn [run_listeners].
  assert (_sender w1 ≠ None) as Hs1 by (rewrite a3; by rewrite Hl).
  destruct (fire_own ev ctx p s w1 Hs1) as (b0 & b1 & b2 & b4);
    [by rewrite a2|by rewrite a1|done|].
  pose proof (fire_sender_None (handler ev p) ctx w1) as Hn.
  destruct (fire (handler ev p) ctx w1) as [r2 w2]. cbn [fst snd] in *.
  subst r2.
  assert (_sender w2 ≠ None) as Hs2 by (by rewrite Hn).
  pose proof (run_listeners_returns ev ctx s post w2 Hs2 Ho Hspost) as Hr3.
  pose proof (run_listeners_other ctx p post w2 Hpost) as (c1 & c2 & c3 & c4).
  simpl. rewrite c1, c2, c4, b1, b2, b4, a4. done.
Qed.





End SettlementFacts.

(** ** What awaiting and retrying can and cannot do *)

Section RetryFacts.

Context {E : SenderEnv}.
Implicit Types (w : World) (p q : nat) (h : Handler) (ev : SenderEvent)
  (ctx : EventContext) (l : Link) (m : Payload) (es : list LoopEvent).

Lemma fire_keeps_settled h ctx p w :
  is_settled (promises w !! p) = true →
  promises (fire h ctx w).2 !! p = promises w !! p.
Proof.
  intros Hs. pose proof (fire_shape h ctx w) as Hshape. simpl in Hshape.
  destruct (_sender w) as [l|]; [|by destruct Hshape as [e ->]].
  destruct Hshape as [[s ->]|[e ->]]; cbn [snd];
    [|by rewrite stripped_promises].
  destruct (decide (h_promise h = p)) as [->|Hne].
  - rewrite settle_settled; [by rewrite stripped_promises|].
    rewrite stripped_promises. simpl. intros Heq. by rewrite Heq in Hs.
  - rewrite settle_other by done. by rewrite stripped_promises.
Qed.

Lemma dispatch_keeps_settled e p w :
  is_settled (promises w !! p) = true →
  promises (dispatch e w) !! p = promises w !! p.
Proof.
  intros Hs. destruct e as [ev ctx|n|]; simpl; [|by destruct w as [[?|] ? ? ? ?]|done].
  unfold emit. destruct (_sender w) as [l|]; [|done].
  generalize (listeners ev l). intros hs. revert w Hs.
  induction hs as [|h hs IH]; intros w Hs; simpl; [done|].
  pose proof (fire_keeps_settled h ctx p w Hs) as Hf.
  destruct (fire h ctx w) as [[[]|e] w']; cbn [snd] in *; [|done].
  rewrite IH; [done|]. by rewrite Hf.
Qed.


Lemma delay_keeps_settled es p w es' w' :
  is_settled (promises w !! p) = true →
  delay es w = Some (es', w') →
  promises w' !! p = promises w !! p.
Proof.
  revert w. induction es as [|e es IH]; intros w Hs Hd; [done|].
  destruct e as [ev ctx|n|]; cbn [delay] in Hd.
  - rewrite (IH _ ltac:(by rewrite dispatch_keeps_settled) Hd).
    by apply dispatch_keeps_settled.
  - rewrite (IH _ ltac:(by rewrite dispatch_keeps_settled) Hd).
    by apply dispatch_keeps_settled.
  - by simplify_eq.
Qed.

Lemma await_resolved p d es w :
  promises w !! p = Some (Resolved d) → await p es w = Done (Return d) es w.
Proof. intros Hp. destruct es; simpl; by rewrite Hp. Qed.


Lemma await_pending p e es w :
  promises w !! p = Some Pending →
  await p (e :: es) w = await p es (dispatch e w).
Proof. intros Hp. cbn [await]. by rewrite Hp. Qed.

Lemma await_sent p es w : sent (final_world (await p es w)) = sent w.
Proof.
  revert w. induction es as [|e es IH]; intros w; cbn [await].
  - by repeat case_match.
  - repeat case_match; try done; by rewrite IH, dispatch_sent.
Qed.

Lemma delay_sent es w es' w' : delay es w = Some (es', w') → sent w' = sent w.
Proof.
  revert w. induction es as [|e es IH]; intros w Hd; [done|].
  destruct e as [ev ctx|n|]; cbn [delay] in Hd.
  - by rewrite (IH _ Hd), dispatch_sent.
  - by rewrite (IH _ Hd), dispatch_sent.
  - by simplify_eq.
Qed.

(** Retrying an operation that hands back the same promise issues no
    send of its own. *)
Lemma retry_same_promise_sent n p es w :
  sent (final_world (retry n (λ w, (p, w)) es w)) = sent w.
Proof.
  revert es w. induction n as [|n IH]; intros es w; simpl.
  - pose proof (await_sent p es w) as Ha.
    destruct (await p es w) as [[d|e] rest w'|w']; done.
  - pose proof (await_sent p es w) as Ha.
    destruct (await p es w) as [[d|e] rest w'|w']; simpl in *; try done.
    destruct (retryable e); [|done].
    destruct (delay rest w') as [[es2 w2]|] eqn:Hd; [|done].
    rewrite IH. by rewrite (delay_sent _ _ _ _ Hd).
Qed.

(** ... and hands back the outcome the promise already has. *)
Lemma retry_same_promise_rejected n p e es w :
  promises w !! p = Some (Rejected e) →
  match retry n (λ w, (p, w)) es w with
  | Done r _ w' => r = Throw e ∧ promises w' !! p = Some (Rejected e)
  | Hang w' => True
  end.
Proof.
  revert es w. induction n as [|n IH]; intros es w Hp; simpl.
  - destruct es; simpl; by rewrite Hp.
  - assert (await p es w = Done (Throw e) es w) as ->.
    { destruct es; simpl; by rewrite Hp. }
    destruct (retryable e); [|done].
    destruct (delay es w) as [[es2 w2]|] eqn:Hd; [|done].
    apply IH. rewrite (delay_keeps_settled _ p _ _ _ ltac:(by rewrite Hp) Hd).
    done.
Qed.

(** With a timer expiry for each backoff, the retries run out and the
    rejection reaches the caller. *)
Lemma retry_same_promise_returns n p e es w :
  promises w !! p = Some (Rejected e) →
  ∃ rest, retry n (λ w, (p, w)) (replicate n TimerFired ++ es) w
          = Done (Throw e) rest w.
Proof.
  revert es. induction n as [|n IH]; intros es Hp; simpl.
  - exists es. destruct es; simpl; by rewrite Hp.
  - rewrite Hp. destruct (retryable e).
    + apply IH, Hp.
    + by eexists.
Qed.


(** However many retries the policy allows, [_trySend] hands the link
    one message when the link has credit and none when it has not. *)
Lemma _trySend_sends_once m es w :
  sent (final_world (_trySend m es w))
  = sent w ++ (if sendable_now w then [m] else []).
Proof.
  unfold _trySend. pose proof (sendEventPromise_sent_le m w) as Hs.
  destruct (sendEventPromise m w) as [p w1]. simpl in Hs.
  by rewrite retry_same_promise_sent.
Qed.

Lemma handlers_wf_mentions w : handlers_wf w → mentions (length (promises w)) w = [].
Proof.
  unfold handlers_wf, mentions. destruct (_sender w) as [l|]; [|done].
  intros Hwf. induction Hwf as [|x xs [Hx _] _ IH]; [done|].
  rewrite filter_cons_False; [done|lia].
Qed.

Lemma handlers_wf_send m w : handlers_wf w → handlers_wf (sendEventPromise m w).2.
Proof.
  intros Hwf. unfold handlers_wf in *. destruct (_sender w) as [l|] eqn:Hl.
  - destruct (sendable l) eqn:Hs.
    + rewrite (sendEventPromise_sendable m w l Hl Hs). simpl.
      rewrite length_app. simpl. apply Forall_app. split.
      * eapply Forall_impl; [exact Hwf|]. simpl. intros x [? ?]. split; [lia|done].
      * unfold own_handlers. repeat constructor; simpl; lia.
    + rewrite (sendEventPromise_no_credit m w l Hl Hs). simpl. rewrite Hl.
      rewrite length_app. simpl.
      eapply Forall_impl; [exact Hwf|]. simpl. intros x [? ?]. split; [lia|done].
  - unfold sendEventPromise, new_promise. simpl. rewrite Hl. simpl.
    unfold reject. rewrite settle_sender. simpl. by rewrite Hl.
Qed.

End RetryFacts.

(** ** MessageSender._trySend: settlement of an attempt *)

Section TrySendSettlement.

Context {E : SenderEnv}.
Implicit Types (w : World) (p q : nat) (h : Handler) (ev : SenderEvent)
  (ctx : EventContext) (l : Link) (m : Payload) (es : list LoopEvent).


(** C3.  After a send attempt, an accepted disposition resolves its
    promise with the delivery and [_trySend] returns that delivery; a
    rejected disposition that carries the error reported by the peer
    rejects it with that error translated; a released or modified
    disposition rejects it with the translated remote error when the
    delivery carries one, and otherwise with an error saying that a
    release (modified) disposition was received. *)
Theorem trySend_disposition_outcome m w l ctx :
  _sender w = Some l → sendable l = true → handlers_wf w →
  let p := length (promises w) in
  let w1 := (sendEventPromise m w).2 in
  promises (emit accepted ctx w1).2 !! p = Some (Resolved (delivery ctx))
  ∧ (∀ es, _trySend m (Disposition accepted ctx :: es) w
           = Done (Return (delivery ctx)) es (emit accepted ctx w1).2)
  ∧ (∀ e, remote_error (delivery ctx) = Some e →
       promises (emit rejected ctx w1).2 !! p
       = Some (Rejected (translate (FromAmqp e)))
       ∧ promises (emit released ctx w1).2 !! p
         = Some (Rejected (translate (FromAmqp e)))
       ∧ promises (emit modified ctx w1).2 !! p
         = Some (Rejected (translate (FromAmqp e))))
  ∧ (remote_error (delivery ctx) = None →
       promises (emit released ctx w1).2 !! p
       = Some (Rejected (PlainError release_message))
       ∧ promises (emit modified ctx w1).2 !! p
         = Some (Rejected (PlainError modified_message)))
  ∧ (∃ who, release_message = (who ++
       "received a release disposition.Hence we are rejecting the promise.")%string)
  ∧ (∃ who, modified_message = (who ++
       "received a modified disposition.Hence we are rejecting the promise.")%string).
Proof.
  intros Hl Hs Hwf p w1.
  pose proof (sendEventPromise_owned m w l Hl Hs Hwf) as Ho.
  pose proof (sendEventPromise_sendable m w l Hl Hs) as Heq.
  pose proof (handlers_wf_send m w Hwf) as Hwf1.
  unfold w1, _trySend. destruct (sendEventPromise m w) as [p' w1'] eqn:Hsp.
  destruct Ho as (-> & Hp & Hm & Hf). fold p in Hp, Hm, Hf. cbn [fst snd] in *.
  assert (_sender w1' ≠ None) as Hs1 by (injection Heq as ->; done).
  pose proof (λ ev s, emit_own ev ctx p s w1' Hwf1 Hs1 Hm Hp) as Hown.
  destruct (Hown accepted _ eq_refl) as (_ & Hacc & _).
  split; [done|]. split.
  { intros es. change (length (promises w)) with p.
    destruct retries; cbn [retry];
      by rewrite (await_pending _ _ _ _ Hp), (await_resolved _ _ _ _ Hacc). }
  split.
  { intros e He.
    destruct (Hown rejected (Rejected (translate (FromAmqp e)))) as (_ & Hrej & _);
      [by unfold spec_outcome; rewrite He|].
    destruct (Hown released (Rejected (translate (FromAmqp e)))) as (_ & Hrel & _);
      [by unfold spec_outcome; rewrite He|].
    destruct (Hown modified (Rejected (translate (FromAmqp e)))) as (_ & Hmod & _);
      [by unfold spec_outcome; rewrite He|].
    done. }
  split.
  { intros He.
    destruct (Hown released (Rejected (PlainError release_message)))
      as (_ & Hrel & _); [by unfold spec_outcome; rewrite He|].
    destruct (Hown modified (Rejected (PlainError modified_message)))
      as (_ & Hmod & _); [by unfold spec_outcome; rewrite He|].
    done. }
  split.
  - exists ("[" ++ connectionId ++ "]Sender '" ++ this_id ++ "', ")%string.
    unfold release_message. by rewrite !string_app_assoc.
  - exists ("[" ++ connectionId ++ "]Sender " ++ dquote ++ this_id ++ dquote
            ++ ", ")%string.
    unfold modified_message. by rewrite !string_app_assoc.
Qed.

(** C4.  A send attempt on a link that reports no credit rejects its
    promise at once with the error "... cannot send the message right
    now. Please try later."; the link is left exactly as it was, so
    nothing was sent, queued or registered, and no effect was recorded;
    whatever the retry policy does afterwards, [_trySend] hands the link
    no message and can only fail with that error. *)
Theorem trySend_no_credit_rejects m w l :
  _sender w = Some l → sendable l = false →
  let p := length (promises w) in
  let w1 := (sendEventPromise m w).2 in
  (sendEventPromise m w).1 = p
  ∧ promises w1 !! p = Some (Rejected (PlainError try_later_message))
  ∧ (∃ who, try_later_message =
       (who ++ "cannot send the message right now. Please try later.")%string)
  ∧ _sender w1 = Some l
  ∧ trace w1 = trace w
  ∧ (∀ es, match _trySend m es w with
           | Done r _ w' =>
               r = Throw (PlainError try_later_message) ∧ sent w' = sent w
           | Hang w' => sent w' = sent w
           end)
  ∧ (∃ rest, _trySend m (replicate retries TimerFired) w
             = Done (Throw (PlainError try_later_message)) rest w1).
Proof.
  intros Hl Hs p w1.
  pose proof (sendEventPromise_no_credit m w l Hl Hs) as Heq.
  assert (sendEventPromise m w = (p, w1)) as Hsp.
  { unfold w1. by rewrite Heq. }
  assert (sendable_now w = false) as Hnow by (unfold sendable_now; by rewrite Hl).
  assert (promises w1 !! p = Some (Rejected (PlainError try_later_message))) as Hp.
  { unfold w1. rewrite Heq. simpl.
    by rewrite lookup_app_r, Nat.sub_diag by done. }
  split; [by rewrite Heq|]. split; [done|].
  split.
  { exists ("[" ++ connectionId ++ "]Sender " ++ dquote ++ this_id ++ dquote
            ++ ", ")%string.
    unfold try_later_message. by rewrite !string_app_assoc. }
  split; [by unfold w1; rewrite Heq|]. split; [by unfold w1; rewrite Heq|].
  split.
  - intros es. pose proof (_trySend_sends_once m es w) as Hsent.
    rewrite Hnow, app_nil_r in Hsent. unfold _trySend in *.
    rewrite Hsp in *.
    pose proof (retry_same_promise_rejected retries p _ es w1 Hp) as Hr.
    destruct (retry retries _ es w1) as [r rest w'|w']; simpl in *.
    + destruct Hr as [-> _]. done.
    + done.
  - unfold _trySend. rewrite Hsp.
    destruct (retry_same_promise_returns retries p _ [] w1 Hp) as [rest Hr].
    rewrite app_nil_r in Hr. eauto.
Qed.

End TrySendSettlement.

(** ** A concrete sender *)

Import Fixtures.

Section TrySendExamples.

#[local] Abbreviation env := sample_env.
#[local] Abbreviation m := sample_payload.


Lemma trySend_disposition_outcome_witness :
  let w := world_with (Some (open_link 1)) in
  let ctx := sample_delivery None in
  _sender w = Some (open_link 1)
  ∧ sendable (open_link 1) = true
  ∧ handlers_wf w
  ∧ promises (emit (E := env) accepted ctx
                (sendEventPromise (E := env) m w).2).2 !! 0
    = Some (Resolved (delivery ctx)).
Proof.
  intros w ctx.
  assert (_sender w = Some (open_link 1)) as H1 by reflexivity.
  assert (sendable (open_link 1) = true) as H2 by reflexivity.
  assert (handlers_wf w) as H3 by (vm_compute; constructor).
  split; [exact H1|]. split; [exact H2|]. split; [exact H3|].
  exact (proj1
    (trySend_disposition_outcome (E := env) m w (open_link 1) ctx H1 H2 H3)).
Defined.

Lemma trySend_no_credit_rejects_witness :
  let w := world_with (Some (open_link 0)) in
  _sender w = Some (open_link 0)
  ∧ sendable (open_link 0) = false
  ∧ _sender (sendEventPromise (E := env) m w).2 = Some (open_link 0).
Proof.
  intros w.
  assert (_sender w = Some (open_link 0)) as H1 by reflexivity.
  assert (sendable (open_link 0) = false) as H2 by reflexivity.
  split; [exact H1|]. split; [exact H2|].
  exact (proj1 (proj2 (proj2 (proj2
    (trySend_no_credit_rejects (E := env) m w (open_link 0) H1 H2))))).
Defined.

(** C6.  The retry policy around [_trySend] does not run the send
    attempt again.  On a link without credit the attempt is rejected;
    credit arrives during the backoff; every further attempt is handed
    the promise of the first and fails as the first did, and the link
    is never handed the message.  Retrying the attempt itself, as
    specified, sends the message on the second attempt and returns its
    delivery. *)
Theorem trySend_retry_reobserves_first_attempt :
  let w := world_with (Some (open_link 0)) in
  let ctx := sample_delivery None in
  let es := [Flow 1; TimerFired; Disposition accepted ctx; TimerFired] in
  (∃ w', _trySend (E := env) m es w
         = Done (Throw (PlainError (try_later_message (E := env)))) [] w'
         ∧ sent w' = [])
  ∧ (∃ w', _trySend_as_specified (H := env) m es w
           = Done (Return (delivery ctx)) [TimerFired] w'
           ∧ sent w' = [m]).
Proof.
  split; eexists; split; vm_compute; reflexivity.
Qed.

End TrySendExamples.

(** ** MessageSender.sendBatch *)

Section SendBatchEnvelope.

Context {E : SenderEnv}.
Implicit Types (w : World) (first b : gmap string JsVal) (k : string).

Lemma copy_if_set_lookup k' k first b :
  copy_if_set k' first b !! k =
    if decide (k = k') then
      (if truthy (get first k) then Some (get first k) else b !! k)
    else b !! k.
Proof.
  unfold copy_if_set. case_decide as Hk.
  - subst k'. destruct (truthy (get first k)); [|done]. by rewrite lookup_insert_eq.
  - destruct (truthy (get first k')); [|done]. by rewrite lookup_insert_ne.
Qed.

Lemma foldl_copy_lookup (ks : list string) k first b :
  foldl (λ b k, copy_if_set k first b) b ks !! k =
    if decide (k ∈ ks) then
      (if truthy (get first k) then Some (get first k) else b !! k)
    else b !! k.
Proof.
  revert b. induction ks as [|k' ks IH]; intros b; cbn [foldl].
  - by rewrite decide_False by apply not_elem_of_nil.
  - rewrite IH, copy_if_set_lookup.
    destruct (decide (k = k')) as [->|Hne].
    + rewrite (decide_True (P := k' ∈ k' :: ks)) by (apply elem_of_cons; by left).
      by repeat case_match.
    + destruct (decide (k ∈ ks)) as [Hin|Hin].
      * by rewrite decide_True by (apply elem_of_cons; by right).
      * rewrite decide_False; [done|].
        intros [?|?]%elem_of_cons; done.
Qed.

Lemma batchMessage_of_cons first rest :
  batchMessage_of (first :: rest) =
    Return (foldl (λ b k, copy_if_set k first b)
              {["body" := JSections (message_encode <$> (first :: rest))]}
              metadata_keys).
Proof. reflexivity. Qed.

(** Each message of a batch is converted on its own. *)
Lemma to_wire_all_each ds ms :
  to_wire_all ds = Return ms → Forall2 (λ d m, to_wire d = Return m) ds ms.
Proof.
  revert ms. induction ds as [|d ds IH]; intros ms; simpl.
  - intros [= <-]. constructor.
  - destruct (to_wire d) as [m|e] eqn:Hd; [|done].
    destruct (to_wire_all ds) as [ms'|e]; [|done].
    intros [= <-]. constructor; [done|by apply IH].
Qed.

(** What the envelope of a non-empty batch holds: the encoded messages
    in order under body, and of message_annotations,
    application_properties and the message properties those whose value
    in the first message is truthy. *)
Lemma batchMessage_of_lookup first (rest : list (gmap string JsVal)) k :
  k ≠ "body" →
  ∃ envelope,
    batchMessage_of (first :: rest) = Return envelope
    ∧ envelope !! k =
        if decide (k ∈ metadata_keys) then
          (if truthy (get first k) then Some (get first k) else None)
        else None.
Proof.
  intros Hk. eexists. split; [apply batchMessage_of_cons|].
  rewrite foldl_copy_lookup. rewrite lookup_singleton_ne by done.
  by repeat case_match.
Qed.

(** C5.  [sendBatch] does not always set the properties of the first
    message on the envelope, as its documentation has it: a property
    that the first message carries with a falsy value (the number 0,
    the empty string, false, null) is absent from the envelope that
    goes to the link, while every property the first message carries
    with a truthy value is on the envelope with that value.  This holds
    whatever [toAmqpMessage], the encoders and the property table
    are. *)
Theorem sendBatch_envelope_omits_falsy_property
    (d0 : JsVal) (ds : list JsVal) first (rest : list (gmap string JsVal))
    k (v : JsVal) ie es w w' :
  to_wire_all (d0 :: ds) = Return (first :: rest) →
  k ∈ metadata_keys → k ≠ "body" →
  toAmqpMessage d0 !! k = Some v → truthy v = false →
  ensure_init ie w = (None, w') →
  ∃ envelope,
    first !! k = Some v
    ∧ batchMessage_of (first :: rest) = Return envelope
    ∧ envelope !! k = None
    ∧ (∀ k', k' ∈ metadata_keys → k' ≠ "body" →
         truthy (get first k') = true → envelope !! k' = first !! k')
    ∧ sendBatch (JArray (d0 :: ds)) ie es w =
        _trySend (PEncoded (message_encode envelope) batch_format) es w'.
Proof.
  intros Hds Hk Hbody Hv Hfalsy Hinit.
  assert (first !! k = Some v) as Hfirst.
  { pose proof Hds as Hds'. cbn [to_wire_all] in Hds'. unfold to_wire in Hds'.
    destruct (prop d0 "body") as [b|e]; [|done].
    destruct (to_wire_all ds) as [ms|e]; [|done].
    simplify_eq. by rewrite lookup_insert_ne. }
  eexists. split; [done|]. split; [apply batchMessage_of_cons|].
  split; [|split].
  - rewrite foldl_copy_lookup, decide_True by done.
    unfold get. rewrite Hfirst. simpl. rewrite Hfalsy.
    by apply lookup_singleton_ne.
  - intros k' Hk' Hbody' Htruthy.
    rewrite foldl_copy_lookup, decide_True by done. rewrite Htruthy.
    unfold get in *. by destruct (first !! k').
  - unfold sendBatch. cbn [batch_arg_ok truthy isArray andb negb].
    by rewrite Hinit, Hds.
Qed.

Lemma ensure_init_promises ie w : promises (ensure_init ie w).2 = promises w.
Proof.
  unfold ensure_init, _init, init_start, init_after_claim, init_after_create,
    init_after_renewal, init_failed.
  destruct w as [s c t ps tr]. simpl.
  repeat (case_match; simplify_eq; simpl in *; try done).
Qed.

Lemma ensure_init_no_delivery ie w :
  ∃ tr, trace (ensure_init ie w).2 = trace w ++ tr
        ∧ Forall (λ e, is_delivery_effect e = false) tr.
Proof.
  unfold ensure_init, _init, init_start, init_after_claim, init_after_create,
    init_after_renewal, init_failed.
  destruct w as [s c t ps tr]. simpl.
  repeat (case_match; simplify_eq; simpl in *);
    rewrite <- ?app_assoc; simpl;
    try (eexists; split; [reflexivity|]; by repeat constructor);
    exists []; by rewrite app_nil_r.
Qed.

(** C10.  [sendBatch] on the empty list goes through initialisation and
    then fails: with initialisation done it throws reading
    message_annotations of the absent first message, and otherwise it
    throws what initialisation threw; in both cases the sender is left
    as initialisation left it, so no promise was built, no handler
    registered and nothing handed to the link.  [sendBatch] on a value
    that is missing or not an array fails with the validation error and
    leaves the sender untouched. *)
Theorem sendBatch_empty_or_invalid ie es w :
  sendBatch (JArray []) ie es w =
    Done (Throw (match (ensure_init ie w).1 with
                 | Some e => e
                 | None => TypeError
                     "Cannot read property 'message_annotations' of undefined"
                 end))
         es (ensure_init ie w).2
  ∧ promises (ensure_init ie w).2 = promises w
  ∧ (∃ tr, trace (ensure_init ie w).2 = trace w ++ tr
           ∧ Forall (λ e, is_delivery_effect e = false) tr)
  ∧ (∀ datas, isArray datas = false →
       sendBatch datas ie es w =
         Done (Throw (PlainError "data is required and it must be an Array."))
              es w).
Proof.
  split; [|split; [|split]].
  - unfold sendBatch. simpl. by destruct (ensure_init ie w) as [[e|] w'].
  - apply ensure_init_promises.
  - apply ensure_init_no_delivery.
  - intros datas Hd. unfold sendBatch, batch_arg_ok. rewrite Hd.
    by rewrite andb_false_r.
Qed.

End SendBatchEnvelope.

(** ** sendBatch and close on a concrete sender *)

Section SendBatchExamples.

#[local] Abbreviation env := sample_env.

Lemma sendBatch_envelope_omits_falsy_property_witness :
  let w := world_with (Some (open_link 1)) in
  to_wire_all (E := env) [JObj first_message; JObj second_message]
    = Return [first_message; second_message]
  ∧ "message_id" ∈ metadata_keys (H := env)
  ∧ toAmqpMessage (SenderEnv := env) (JObj first_message) !! "message_id"
    = Some (JNum 0)
  ∧ truthy (JNum 0) = false
  ∧ ensure_init (E := env) Scenario.good_init w = (None, w)
  ∧ ∃ envelope,
      first_message !! "message_id" = Some (JNum 0)
      ∧ batchMessage_of (E := env) [first_message; second_message]
        = Return envelope
      ∧ envelope !! "message_id" = None.
Proof.
  intros w.
  assert (to_wire_all (E := env) [JObj first_message; JObj second_message]
          = Return [first_message; second_message]) as H1
    by (vm_compute; reflexivity).
  assert ("message_id" ∈ metadata_keys (H := env)) as H2.
  { apply (bool_decide_unpack _). vm_compute. exact I. }
  assert ("message_id" ≠ "body") as H3 by discriminate.
  assert (toAmqpMessage (SenderEnv := env) (JObj first_message) !! "message_id"
          = Some (JNum 0)) as H4 by (vm_compute; reflexivity).
  assert (truthy (JNum 0) = false) as H5 by reflexivity.
  assert (ensure_init (E := env) Scenario.good_init w = (None, w)) as H6
    by reflexivity.
  split; [exact H1|]. split; [exact H2|]. split; [exact H4|].
  split; [exact H5|]. split; [exact H6|].
  destruct (sendBatch_envelope_omits_falsy_property (E := env)
              (JObj first_message) [JObj second_message]
              first_message [second_message] "message_id" (JNum 0)
              Scenario.good_init [] w w H1 H2 H3 H4 H5 H6)
    as (envelope & Ha & Hb & Hc & _).
  exists envelope. split; [exact Ha|]. split; [exact Hb|exact Hc].
Defined.

Lemma sendBatch_empty_or_invalid_witness :
  isArray JUndefined = false
  ∧ ∀ ie es w,
      sendBatch (E := env) JUndefined ie es w =
        Done (Throw (PlainError "data is required and it must be an Array."))
             es w.
Proof.
  assert (isArray JUndefined = false) as H1 by reflexivity.
  split; [exact H1|]. intros ie es w.
  exact (proj2 (proj2 (proj2
    (sendBatch_empty_or_invalid (E := env) ie es w))) JUndefined H1).
Defined.

End SendBatchExamples.

(** ** MessageSender.close *)

Section CloseFacts.

Context {E : SenderEnv}.
Implicit Types (w : World) (l : Link).

Lemma close_without_link r w : _sender w = None → close r w = (Return (), w).
Proof. intros Hs. unfold close. by rewrite Hs. Qed.

(** A failing link close is passed on and nothing is cleared. *)
Lemma close_failure e w l :
  _sender w = Some l →
  close (Some e) w = (Throw e, log ELinkClose w).
Proof. intros Hs. unfold close. by rewrite Hs. Qed.

(** C7.  [close] on a sender that holds a link closes that link, clears
    the context's sender slot, drops the link and cancels the
    token-renewal timer, in this order and once each, when the link's
    own close succeeds; [close] on a sender without a link, as it is
    after that first call, returns without error and changes nothing,
    so two calls in a row cancel the timer once. *)
Theorem close_idempotent w l :
  _sender w = Some l →
  let w1 := (close None w).2 in
  (close None w).1 = Return ()
  ∧ _sender w1 = None
  ∧ ctx_sender w1 = false
  ∧ trace w1 = trace w ++ [ELinkClose; EClearTimeout (_tokenRenewalTimer w)]
  ∧ promises w1 = promises w
  ∧ (∀ r, close r w1 = (Return (), w1))
  ∧ (∀ r w', _sender w' = None → close r w' = (Return (), w')).
Proof.
  intros Hs w1. unfold w1, close. rewrite Hs.
  destruct w as [s c t ps tr]. simpl in *. subst s.
  unfold with_link, log. simpl. rewrite <- app_assoc.
  repeat split; try done.
  intros r w' Hw'. by rewrite Hw'.
Qed.

End CloseFacts.

Lemma close_idempotent_witness :
  let w := world_with (Some (open_link 1)) in
  _sender w = Some (open_link 1)
  ∧ close None (close None w).2 = (Return (), (close None w).2).
Proof.
  intros w.
  assert (_sender w = Some (open_link 1)) as H1 by reflexivity.
  split; [exact H1|].
  exact (proj1 (proj2 (proj2 (proj2 (proj2 (proj2
    (close_idempotent w (open_link 1) H1)))))) None).
Defined.

(** ** SubscriptionClient.receive and receiveBatch *)

Section ReceiveGuards.

Import SubscriptionClient.
Context {R : Receivers}.
Implicit Types (c : Client) (rcvr : Receiver).

(** C8.  [receive] while the context holds a streaming receiver that is
    open throws the error that asks to stop the previous receive, and leaves
    the client and its context exactly as they were: no receiver is
    created and the slot keeps the receiver it held.  [receive] when the
    slot is empty, or holds a receiver that is not open, creates a
    streaming receiver from the client's options, stores it in the slot,
    starts it and returns a handle on it. *)
Theorem receive_rejects_while_open options c :
  (∀ rcvr, streamingReceiver c = Some rcvr → isOpen rcvr = true →
     receive options c = (Throw (PlainError (receive_conflict rcvr c)), c))
  ∧ (streamingReceiver c = None
     ∨ (∃ rcvr, streamingReceiver c = Some rcvr ∧ isOpen rcvr = false) →
     let sReceiver :=
       StreamingReceiver_create c
         {| maxConcurrentCalls := this_maxConcurrentCalls c;
            receiveMode := this_receiveMode c;
            autoComplete := options ≫= mh_autoComplete |} in
     ∃ c', receive options c = (Return {| rh_receiver := sReceiver |}, c')
           ∧ streamingReceiver c' = Some sReceiver
           ∧ batchingReceiver c' = batchingReceiver c
           ∧ effects c' = effects c ++ [EStreamingReceive sReceiver]).
Proof.
  split.
  - intros rcvr Hs Ho. unfold receive, may_receive. by rewrite Hs, Ho.
  - intros Hfree sReceiver.
    assert (may_receive c = true) as Hmay.
    { unfold may_receive. destruct Hfree as [->|(rcvr & -> & ->)]; done. }
    unfold receive. rewrite Hmay. unfold sReceiver.
    destruct options as [o|]; simpl; eexists; (split; [reflexivity|done]).
Qed.

(** C9.  [receiveBatch] while the context holds a batching receiver
    that is open and receiving throws, and leaves the client and its
    context exactly as they were, with nothing asked of any receiver.
    In every other case, with no batching receiver, or one that is not
    open, or one that is not receiving, the call goes ahead: a batching
    receiver is created, stored in the slot and asked for the batch,
    and what it answers is what the call returns or throws. *)
Theorem receiveBatch_rejects_while_receiving {Message : Type}
    (maxMessageCount : Z) (maxWaitTimeInSeconds : option Z)
    (result : Res (list Message)) c :
  (∀ rcvr, batchingReceiver c = Some rcvr → isOpen rcvr = true →
     isReceivingMessages rcvr = true →
     receiveBatch maxMessageCount maxWaitTimeInSeconds result c
     = (Throw (PlainError (receiveBatch_conflict rcvr c)), c))
  ∧ (batchingReceiver c = None
     ∨ (∃ rcvr, batchingReceiver c = Some rcvr
                ∧ (isOpen rcvr = false ∨ isReceivingMessages rcvr = false)) →
     let bReceiver :=
       BatchingReceiver_create c
         {| maxConcurrentCalls := this_maxConcurrentCalls c;
            receiveMode := this_receiveMode c;
            autoComplete := None |} in
     ∃ c', receiveBatch maxMessageCount maxWaitTimeInSeconds result c
           = (result, c')
           ∧ batchingReceiver c' = Some bReceiver
           ∧ streamingReceiver c' = streamingReceiver c
           ∧ effects c' = effects c ++
               [EBatchingReceive bReceiver maxMessageCount maxWaitTimeInSeconds]).
Proof.
  split.
  - intros rcvr Hs Ho Hr. unfold receiveBatch, may_receiveBatch.
    by rewrite Hs, Ho, Hr.
  - intros Hfree bReceiver.
    assert (may_receiveBatch c = true) as Hmay.
    { unfold may_receiveBatch.
      destruct Hfree as [->|(rcvr & -> & [->| ->])]; [done|done|].
      apply orb_true_r. }
    unfold receiveBatch. rewrite Hmay. by eexists.
Qed.

End ReceiveGuards.

Lemma receive_rejects_while_open_witness :
  let rcvr := sample_receiver "streaming" "receiver-0" true true sample_options in
  SubscriptionClient.streamingReceiver busy_client = Some rcvr
  ∧ SubscriptionClient.isOpen rcvr = true
  ∧ SubscriptionClient.receive (R := sample_receivers) None busy_client
    = (Throw (PlainError (SubscriptionClient.receive_conflict rcvr busy_client)),
       busy_client).
Proof.
  intros rcvr.
  assert (SubscriptionClient.streamingReceiver busy_client = Some rcvr) as H1
    by reflexivity.
  assert (SubscriptionClient.isOpen rcvr = true) as H2 by reflexivity.
  split; [exact H1|]. split; [exact H2|].
  exact (proj1 (receive_rejects_while_open (R := sample_receivers) None busy_client)
           rcvr H1 H2).
Defined.

Lemma receiveBatch_rejects_while_receiving_witness :
  let rcvr := sample_receiver "batching" "receiver-1" true true sample_options in
  SubscriptionClient.batchingReceiver busy_client = Some rcvr
  ∧ SubscriptionClient.isOpen rcvr = true
  ∧ SubscriptionClient.isReceivingMessages rcvr = true
  ∧ SubscriptionClient.receiveBatch (R := sample_receivers) 3 (Some 3%Z)
      (Return ([] : list JsVal)) busy_client
    = (Throw (PlainError
                (SubscriptionClient.receiveBatch_conflict rcvr busy_client)),
       busy_client).
Proof.
  intros rcvr.
  assert (SubscriptionClient.batchingReceiver busy_client = Some rcvr) as H1
    by reflexivity.
  assert (SubscriptionClient.isOpen rcvr = true) as H2 by reflexivity.
  assert (SubscriptionClient.isReceivingMessages rcvr = true) as H3 by reflexivity.
  split; [exact H1|]. split; [exact H2|]. split; [exact H3|].
  exact (proj1 (receiveBatch_rejects_while_receiving (R := sample_receivers)
                  3 (Some 3%Z) (Return ([] : list JsVal)) busy_client)
           rcvr H1 H2 H3).
Defined.

(** ** Concurrent callers take turns at initialisation *)

Section ConcurrentFacts.

Import Concurrent.
Context {E : SenderEnv}.
Implicit Types (s : Sys) (w : World) (ph : InitPhase) (run r : nat)
  (c : CallState).

Lemma lookup_snoc {A} (l : list A) (x y : A) i :
  (l ++ [x]) !! i = Some y ↔ l !! i = Some y ∨ (i = length l ∧ x = y).
Proof.
  rewrite lookup_app_Some. split.
  - intros [?|[Hge Hi]]; [by left|right].
    destruct (i - length l) as [|k] eqn:Hk; simpl in Hi; [|done].
    split; [lia|by simplify_eq].
  - intros [?|[-> ->]]; [by left|right].
    split; [lia|]. by rewrite Nat.sub_diag.
Qed.

Lemma run_of_wake run o c : run_of (wake run o c) = run_of c.
Proof. destruct c as [| |r|]; simpl; try done. by case_decide; subst. Qed.

Lemma wake_waiting run o c r :
  wake run o c = Waiting r → c = Waiting r ∧ r ≠ run.
Proof.
  destruct c as [| |r'|]; simpl; try done. case_decide; [done|].
  intros [= ->]. done.
Qed.

Lemma wake_initialised run o c r o' :
  wake run o c = Initialised r o' →
  (c = Waiting run ∧ r = run ∧ o' = o) ∨ c = Initialised r o'.
Proof.
  destruct c as [| |r'|]; simpl; try done; [|by right].
  case_decide; [|done]. intros [= <- <-]. subst. by left.
Qed.

Lemma serialised_fresh : serialised fresh.
Proof.
  constructor; simpl; try done.
  - intros r. split; [by intros ?%elem_of_nil|done].
  - constructor.
Qed.

(** The one place where a run changes phase keeps the invariant: the
    run holds the key, every other run is finished or not called yet,
    and the run is before or at its [createSender] only with the link
    not open. *)
Lemma serialised_record_phase run ph w s :
  holder s = Some run → run < length (runs s) →
  (∀ r ph', r ≠ run → runs s !! r = Some (Started ph') → unfinished ph' = false) →
  (∀ r, r ∈ queue s ↔ r ≠ run ∧ runs s !! r = Some Queued) →
  NoDup (queue s) →
  (∀ i j c c' r, calls s !! i = Some c → calls s !! j = Some c' →
                 run_of c = Some r → run_of c' = Some r → i = j) →
  (∀ i r, calls s !! i = Some (Waiting r) →
          r = run ∨ runs s !! r = Some Queued) →
  (∀ i r o, calls s !! i = Some (Initialised r o) →
            r ≠ run ∧ runs s !! r = Some (Started (Finished o))) →
  (ph = AwaitClaim ∨ ph = AwaitCreate → _isOpen w = false) →
  serialised (record_phase run ph w s).
Proof.
  intros Hh Hlt Hothers Hq Hnd Hown Hwait Hdone Hclosed.
  assert (∀ r x, r ≠ run →
            <[run := Started ph]> (runs s) !! r = Some x ↔ runs s !! r = Some x)
    as Hne by (intros r x Hr; by rewrite list_lookup_insert_ne).
  assert (<[run := Started ph]> (runs s) !! run = Some (Started ph)) as Heq
    by (by apply list_lookup_insert_eq).
  destruct (unfinished ph) eqn:Hph.
  - assert (record_phase run ph w s =
            {| world := w; holder := holder s; queue := queue s;
               runs := <[run := Started ph]> (runs s); calls := calls s |}) as ->
      by (by destruct ph).
    constructor; simpl.
    + intros r ph' Hr Hun. destruct (decide (r = run)) as [->|Hr']; [done|].
      apply Hne in Hr; [|done]. by rewrite (Hothers r ph' Hr' Hr) in Hun.
    + intros r Hr. assert (r = run) as -> by congruence. by exists ph.
    + intros r. rewrite Hq. split.
      * intros [Hr Hx]. by apply Hne.
      * intros Hx. destruct (decide (r = run)) as [->|Hr'].
        -- rewrite Heq in Hx. done.
        -- split; [done|by apply Hne in Hx].
    + done.
    + done.
    + intros i r Hi. destruct (decide (r = run)) as [->|Hr'].
      * right. by exists ph.
      * left. destruct (Hwait i r Hi) as [?|Hx]; [done|]. by apply Hne.
    + intros i r o Hi. destruct (Hdone i r o Hi) as [Hr' Hx]. by apply Hne.
    + intros r ph' Hr Hcase. destruct (decide (r = run)) as [->|Hr'].
      * rewrite Heq in Hr. simplify_eq. by apply Hclosed.
      * apply Hne in Hr; [|done]. pose proof (Hothers r ph' Hr' Hr).
        by destruct Hcase as [-> | ->].
  - destruct ph as [| | |o]; try done.
    unfold record_phase. constructor; simpl.
    + intros r ph' Hr Hun. destruct (decide (r = run)) as [->|Hr'].
      * rewrite Heq in Hr. by simplify_eq.
      * apply Hne in Hr; [|done]. by rewrite (Hothers r ph' Hr' Hr) in Hun.
    + done.
    + intros r. rewrite Hq. split.
      * intros [Hr Hx]. by apply Hne.
      * intros Hx. destruct (decide (r = run)) as [->|Hr'].
        -- rewrite Heq in Hx. done.
        -- split; [done|by apply Hne in Hx].
    + done.
    + intros i j c c' r Hi Hj Hc Hc'. rewrite list_lookup_fmap in Hi, Hj.
      destruct (calls s !! i) as [ci|] eqn:Hci; [|done].
      destruct (calls s !! j) as [cj|] eqn:Hcj; [|done].
      simpl in *. simplify_eq. rewrite run_of_wake in Hc, Hc'.
      by eapply Hown.
    + intros i r Hi. rewrite list_lookup_fmap in Hi.
      destruct (calls s !! i) as [ci|] eqn:Hci; [|done].
      simpl in Hi. injection Hi as Hi.
      destruct (wake_waiting _ _ _ _ Hi) as [-> Hr'].
      left. destruct (Hwait i r Hci) as [?|Hx]; [done|]. by apply Hne.
    + intros i r o' Hi. rewrite list_lookup_fmap in Hi.
      destruct (calls s !! i) as [ci|] eqn:Hci; [|done].
      simpl in Hi. injection Hi as Hi.
      destruct (wake_initialised _ _ _ _ _ Hi) as [(-> & -> & ->)| ->].
      * done.
      * destruct (Hdone i r o' Hci) as [Hr' Hx]. by apply Hne.
    + intros r ph' Hr Hcase. destruct (decide (r = run)) as [->|Hr'].
      * rewrite Heq in Hr. simplify_eq. by destruct Hcase.
      * apply Hne in Hr; [|done]. pose proof (Hothers r ph' Hr' Hr).
        by destruct Hcase as [-> | ->].
Qed.

(** [_init] looks at the link first: with the link open it ends at once
    and does nothing; with the link not open it goes to negotiate the
    claim. *)
Lemma init_start_cases w :
  (_isOpen w = true ∧ init_start w = (Finished None, w))
  ∨ (_isOpen w = false ∧ init_start w = (AwaitClaim, log ENegotiateClaim w)).
Proof. unfold init_start. destruct (_isOpen w); [by left|by right]. Qed.

Lemma serialised_start run rest s :
  holder s = None → run < length (runs s) →
  (∀ r ph', runs s !! r = Some (Started ph') → unfinished ph' = false) →
  (∀ r, r ∈ rest ↔ r ≠ run ∧ runs s !! r = Some Queued) →
  NoDup rest →
  (∀ i j c c' r, calls s !! i = Some c → calls s !! j = Some c' →
                 run_of c = Some r → run_of c' = Some r → i = j) →
  (∀ i r, calls s !! i = Some (Waiting r) →
          r = run ∨ runs s !! r = Some Queued) →
  (∀ i r o, calls s !! i = Some (Initialised r o) →
            r ≠ run ∧ runs s !! r = Some (Started (Finished o))) →
  serialised (start run rest s).
Proof.
  intros Hh Hlt Hothers Hq Hnd Hown Hwait Hdone. unfold start.
  destruct (init_start (world s)) as [ph w] eqn:Hstart.
  apply serialised_record_phase; simpl; try done.
  - intros r ph' _. apply Hothers.
  - intros Hcase.
    destruct (init_start_cases (world s)) as [[Ho Heq]|[Ho Heq]];
      rewrite Heq in Hstart; simplify_eq; [by destruct Hcase|].
    by destruct (world s).
Qed.

Lemma serialised_idle s :
  serialised s → holder s = None →
  ∀ r ph, runs s !! r = Some (Started ph) → unfinished ph = false.
Proof.
  intros Hinv Hh r ph Hr. destruct (unfinished ph) eqn:Hun; [|done].
  by rewrite (ser_holder s Hinv r ph Hr Hun) in Hh.
Qed.

Lemma serialised_bound s i c r :
  serialised s → calls s !! i = Some c → run_of c = Some r →
  r < length (runs s).
Proof.
  intros Hinv Hi Hc. destruct c as [| |r'|r' o]; simpl in Hc; simplify_eq.
  - destruct (ser_waiting s Hinv i r Hi) as [Hx|(ph & Hx & _)];
      by eapply lookup_lt_Some.
  - pose proof (ser_done s Hinv i r o Hi). by eapply lookup_lt_Some.
Qed.

Lemma isOpen_log e w : _isOpen (log e w) = _isOpen w.
Proof. by destruct w. Qed.

Lemma serialised_acquire s : serialised s → serialised (acquire s).
Proof.
  intros Hinv. unfold acquire.
  set (run := length (runs s)).
  assert (∀ i j c c' r,
            (calls s ++ [Waiting run]) !! i = Some c →
            (calls s ++ [Waiting run]) !! j = Some c' →
            run_of c = Some r → run_of c' = Some r → i = j) as Hown.
  { intros i j c c' r [Hi|[-> <-]]%lookup_snoc [Hj|[-> <-]]%lookup_snoc Hc Hc'.
    - by eapply (ser_own s Hinv).
    - simpl in Hc'. injection Hc' as <-.
      pose proof (serialised_bound s i c run Hinv Hi Hc). unfold run in *. lia.
    - simpl in Hc. injection Hc as <-.
      pose proof (serialised_bound s j c' run Hinv Hj Hc'). unfold run in *. lia.
    - done. }
  assert (∀ i r o, (calls s ++ [Waiting run]) !! i = Some (Initialised r o) →
            r ≠ run ∧ (runs s ++ [Queued]) !! r = Some (Started (Finished o)))
    as Hdone.
  { intros i r o [Hi|[_ ?]]%lookup_snoc; [|done].
    pose proof (ser_done s Hinv i r o Hi) as Hr.
    pose proof (lookup_lt_Some _ _ _ Hr). split; [unfold run; lia|].
    by rewrite lookup_app_l. }
  destruct (holder s) as [r0|] eqn:Hh; [|destruct (queue s) as [|q0 qs] eqn:Hqs].
  - (* the key is held: the closure is queued *)
    constructor; simpl.
    + intros r ph [Hr|[_ ?]]%lookup_snoc Hun; [|done].
      rewrite <- Hh. by eapply (ser_holder s Hinv).
    + intros r Hr. rewrite <- Hh in Hr.
      destruct (ser_held s Hinv r Hr) as (ph & Hx & Hun).
      exists ph. split; [|done]. apply lookup_snoc. by left.
    + intros r. rewrite elem_of_app, list_elem_of_singleton, lookup_snoc.
      rewrite (ser_queue s Hinv). unfold run.
      split; intros [?|?]; [by left|by right|by left|right; tauto].
    + apply NoDup_app. split; [apply (ser_nodup s Hinv)|]. split; [|apply NoDup_singleton].
      intros r Hr ->%list_elem_of_singleton.
      apply (ser_queue s Hinv) in Hr. apply lookup_lt_Some in Hr. unfold run in *. lia.
    + exact Hown.
    + intros i r [Hi|[_ Hc]]%lookup_snoc.
      * destruct (ser_waiting s Hinv i r Hi) as [Hx|(ph & Hx & Hun)].
        -- left. apply lookup_snoc. by left.
        -- right. exists ph. split; [|done]. apply lookup_snoc. by left.
      * injection Hc as <-. left. apply lookup_snoc. by right.
    + intros i r o Hi. by destruct (Hdone i r o Hi).
    + intros r ph [Hr|[_ ?]]%lookup_snoc Hcase; [|done].
      rewrite isOpen_log. by eapply (ser_closed s Hinv).
  - (* the key is free: the closure is called at once *)
    apply serialised_start; simpl.
    + done.
    + rewrite length_app. simpl. unfold run. lia.
    + intros r ph [Hr|[_ ?]]%lookup_snoc; [|done].
      by eapply serialised_idle.
    + intros r. split; [by intros ?%elem_of_nil|].
      intros [Hr [Hx|[? _]]%lookup_snoc]; [|done].
      apply (ser_queue s Hinv) in Hx. rewrite Hqs in Hx.
      by apply elem_of_nil in Hx.
    + constructor.
    + exact Hown.
    + intros i r [Hi|[_ Hc]]%lookup_snoc; [|injection Hc as <-; by left].
      exfalso. destruct (ser_waiting s Hinv i r Hi) as [Hx|(ph & Hx & Hun)].
      * apply (ser_queue s Hinv) in Hx. rewrite Hqs in Hx.
        by apply elem_of_nil in Hx.
      * by rewrite (ser_holder s Hinv r ph Hx Hun) in Hh.
    + exact Hdone.
  - (* the key is free but promised to a waiter: the closure is queued *)
    rewrite <- Hqs. clear Hqs. constructor; simpl.
    + intros r ph [Hr|[_ ?]]%lookup_snoc Hun; [|done].
      rewrite <- Hh. by eapply (ser_holder s Hinv).
    + done.
    + intros r. rewrite elem_of_app, list_elem_of_singleton, lookup_snoc.
      rewrite (ser_queue s Hinv). unfold run.
      split; intros [?|?]; [by left|by right|by left|right; tauto].
    + apply NoDup_app.
      split; [apply (ser_nodup s Hinv)|]. split; [|apply NoDup_singleton].
      intros r Hr ->%list_elem_of_singleton.
      apply (ser_queue s Hinv) in Hr. apply lookup_lt_Some in Hr. unfold run in *. lia.
    + exact Hown.
    + intros i r [Hi|[_ Hc]]%lookup_snoc.
      * destruct (ser_waiting s Hinv i r Hi) as [Hx|(ph & Hx & Hun)].
        -- left. apply lookup_snoc. by left.
        -- right. exists ph. split; [|done]. apply lookup_snoc. by left.
      * injection Hc as <-. left. apply lookup_snoc. by right.
    + intros i r o Hi. by destruct (Hdone i r o Hi).
    + intros r ph [Hr|[_ ?]]%lookup_snoc Hcase; [|done].
      rewrite isOpen_log. by eapply (ser_closed s Hinv).
Qed.

Lemma serialised_grant s s' : serialised s → grant s = Some s' → serialised s'.
Proof.
  intros Hinv Hg. unfold grant in Hg.
  destruct (holder s) as [r0|] eqn:Hh; [done|].
  destruct (queue s) as [|run rest] eqn:Hqs; [done|]. simplify_eq.
  pose proof (ser_nodup s Hinv) as Hnd. rewrite Hqs in Hnd.
  apply NoDup_cons in Hnd as [Hnotin Hnd].
  assert (runs s !! run = Some Queued) as Hrun.
  { apply (ser_queue s Hinv). rewrite Hqs. by left. }
  apply serialised_start.
  - done.
  - by eapply lookup_lt_Some.
  - by apply serialised_idle.
  - intros r. split.
    + intros Hr. split; [by intros ->|].
      apply (ser_queue s Hinv). rewrite Hqs. by right.
    + intros [Hr Hx]. apply (ser_queue s Hinv) in Hx. rewrite Hqs in Hx.
      by apply elem_of_cons in Hx as [?|?].
  - done.
  - apply (ser_own s Hinv).
  - intros i r Hi. right.
    destruct (ser_waiting s Hinv i r Hi) as [Hx|(ph & Hx & Hun)]; [done|].
    by rewrite (ser_holder s Hinv r ph Hx Hun) in Hh.
  - intros i r o Hi. pose proof (ser_done s Hinv i r o Hi) as Hx.
    split; [|done]. intros ->. rewrite Hrun in Hx. done.
Qed.

Lemma serialised_add_call c s :
  run_of c = None → serialised s → serialised (add_call c s).
Proof.
  intros Hc Hinv. constructor; simpl;
    [apply (ser_holder s Hinv)|apply (ser_held s Hinv)|apply (ser_queue s Hinv)
    |apply (ser_nodup s Hinv)| | | |apply (ser_closed s Hinv)].
  - intros i j c1 c2 r [Hi|[_ <-]]%lookup_snoc [Hj|[_ <-]]%lookup_snoc H1 H2;
      try congruence.
    by eapply (ser_own s Hinv).
  - intros i r [Hi|[_ ->]]%lookup_snoc; [by eapply (ser_waiting s Hinv)|done].
  - intros i r o [Hi|[_ ->]]%lookup_snoc; [by eapply (ser_done s Hinv)|done].
Qed.

Lemma suspended_started expected x :
  suspended_at expected x = true →
  ∃ ph, x = Started ph ∧ unfinished ph = true ∧ ph = expected.
Proof. destruct expected, x as [|[| | |]]; try done; by eexists. Qed.

Lemma serialised_resume run expected k s s' :
  serialised s →
  (∀ ph' w', k (world s) = (ph', w') → ph' = AwaitClaim ∨ ph' = AwaitCreate →
             expected = AwaitClaim ∧ _isOpen w' = _isOpen (world s)) →
  resume run expected k s = Some s' → serialised s'.
Proof.
  intros Hinv Hk Hres. unfold resume in Hres.
  destruct (runs s !! run) as [x|] eqn:Hrun; [|done].
  destruct (suspended_at expected x) eqn:Hsus; [|done].
  destruct (k (world s)) as [ph' w] eqn:Hkw. simplify_eq.
  destruct (suspended_started _ _ Hsus) as (ph & -> & Hun & Hph).
  pose proof (ser_holder s Hinv run ph Hrun Hun) as Hh.
  apply serialised_record_phase.
  - done.
  - by eapply lookup_lt_Some.
  - intros r ph'' Hne Hr. destruct (unfinished ph'') eqn:Hun'; [|done].
    pose proof (ser_holder s Hinv r ph'' Hr Hun'). congruence.
  - intros r. rewrite (ser_queue s Hinv). split; [|by intros [_ ?]].
    intros Hx. split; [|done]. intros ->. rewrite Hrun in Hx. done.
  - apply (ser_nodup s Hinv).
  - apply (ser_own s Hinv).
  - intros i r Hi.
    destruct (ser_waiting s Hinv i r Hi) as [Hx|(ph'' & Hx & Hun')]; [by right|].
    left. pose proof (ser_holder s Hinv r ph'' Hx Hun'). congruence.
  - intros i r o Hi. pose proof (ser_done s Hinv i r o Hi) as Hx.
    split; [|done]. intros ->. rewrite Hrun in Hx. by simplify_eq.
  - intros Hcase. destruct (Hk ph' w eq_refl Hcase) as [-> Heq].
    rewrite Heq. subst ph.
    by eapply (ser_closed s Hinv run AwaitClaim); [|left].
Qed.

Lemma serialised_step s e s' : serialised s → step s e = Some s' → serialised s'.
Proof.
  intros Hinv Hstep. destruct e; simpl in Hstep.
  - simplify_eq. unfold call. repeat case_match;
      [by apply serialised_add_call|by apply serialised_acquire
      |by apply serialised_add_call].
  - simplify_eq. unfold call. repeat case_match;
      [by apply serialised_add_call|by apply serialised_acquire
      |by apply serialised_add_call].
  - eapply serialised_resume; [done| |done].
    intros ph' w' Hk Hcase. unfold init_after_claim, init_failed in Hk.
    destruct r; simplify_eq; [by destruct Hcase|].
    split; [done|apply isOpen_log].
  - eapply serialised_resume; [done| |done].
    intros ph' w' Hk Hcase. unfold init_after_create, init_failed in Hk.
    destruct r; simplify_eq; by destruct Hcase.
  - eapply serialised_resume; [done| |done].
    intros ph' w' Hk Hcase. unfold init_after_renewal, init_failed in Hk.
    destruct r; simplify_eq; by destruct Hcase.
  - by eapply serialised_grant.
  - simplify_eq. constructor; simpl;
      [apply (ser_holder s Hinv)|apply (ser_held s Hinv)|apply (ser_queue s Hinv)
      |apply (ser_nodup s Hinv)|apply (ser_own s Hinv)
      |apply (ser_waiting s Hinv)|apply (ser_done s Hinv)|].
    intros r ph _ _. unfold _isOpen, with_link.
    by destruct (world s) as [[l|] ? ? ? ?].
Qed.

Lemma serialised_exec es s s' : serialised s → exec s es = Some s' → serialised s'.
Proof.
  revert s. induction es as [|e es IH]; intros s Hinv Hex; simpl in Hex.
  - by simplify_eq.
  - destruct (step s e) as [s1|] eqn:Hstep; [|done].
    eapply IH; [|done]. by eapply serialised_step.
Qed.

Lemma filter_none {A} (P : A → Prop) `{!∀ x, Decision (P x)} (l : list A) :
  (∀ i x, l !! i = Some x → ¬ P x) → filter P l = [].
Proof.
  induction l as [|x xs IH]; intros Hnone; [done|].
  rewrite filter_cons_False by (by apply (Hnone 0)).
  apply IH. intros i y Hi. by apply (Hnone (S i)).
Qed.

Lemma filter_at_most_one {A} (P : A → Prop) `{!∀ x, Decision (P x)} (l : list A) :
  (∀ i j x y, l !! i = Some x → l !! j = Some y → P x → P y → i = j) →
  (length (filter P l) ≤ 1)%nat.
Proof.
  induction l as [|x xs IH]; intros Huniq; [simpl; lia|].
  rewrite filter_cons. destruct (decide (P x)) as [Hx|Hx].
  - rewrite filter_none; [simpl; lia|].
    intros i y Hi Hy. by specialize (Huniq 0 (S i) x y eq_refl Hi Hx Hy).
  - apply IH. intros i j y z Hi Hj Hy Hz.
    assert (S i = S j) by (by eapply Huniq). lia.
Qed.

(** At most one run of [_init] is under way, so at most one is between
    its call to [createSender] and the settling of that call. *)
Lemma serialised_running s : serialised s → (running s ≤ 1)%nat.
Proof.
  intros Hinv. unfold running. apply filter_at_most_one.
  intros i j x y Hi Hj Hx Hy.
  destruct x as [|phx]; [done|]. destruct y as [|phy]; [done|].
  pose proof (ser_holder s Hinv i phx Hi Hx).
  pose proof (ser_holder s Hinv j phy Hj Hy). congruence.
Qed.

Lemma serialised_in_flight s : serialised s → (in_flight s ≤ 1)%nat.
Proof.
  intros Hinv. unfold in_flight. apply filter_at_most_one.
  intros i j x y Hi Hj Hx Hy.
  destruct x as [|phx]; [done|]. destruct y as [|phy]; [done|].
  assert (unfinished phx = true) by (by destruct phx).
  assert (unfinished phy = true) by (by destruct phy).
  pose proof (ser_holder s Hinv i phx Hi ltac:(done)).
  pose proof (ser_holder s Hinv j phy Hj ltac:(done)). congruence.
Qed.

End ConcurrentFacts.

(** ** A burst of calls before any link exists *)

Section BurstFacts.

Import Concurrent.
Context {E : SenderEnv}.
Implicit Types (s : Sys) (w : World) (ph : InitPhase) (run r : nat).

Lemma exec_app s es1 es2 :
  exec s (es1 ++ es2) = exec s es1 ≫= λ s', exec s' es2.
Proof.
  revert s. induction es1 as [|e es1 IH]; intros s; simpl; [done|].
  destruct (step s e); simpl; [apply IH|done].
Qed.

Lemma world_record_phase run ph w s : world (record_phase run ph w s) = w.
Proof. by destruct ph. Qed.

(** No attempt to open the link is made while the link is open. *)
Lemma no_attempt_while_open s e s' :
  serialised s → _isOpen (world s) = true → step s e = Some s' →
  attempts s' = attempts s.
Proof.
  intros Hinv Hopen Hstep.
  assert (∀ run expected k, expected = AwaitClaim ∨ expected = AwaitCreate →
            resume run expected k s = Some s' → False) as Hres.
  { intros run expected k Hcase Hr. unfold resume in Hr.
    destruct (runs s !! run) as [x|] eqn:Hrun; [|done].
    destruct (suspended_at expected x) eqn:Hsus; [|done].
    destruct (suspended_started _ _ Hsus) as (ph & -> & _ & ->).
    by rewrite (ser_closed s Hinv run _ Hrun Hcase) in Hopen. }
  destruct e; simpl in Hstep.
  - simplify_eq. unfold call. rewrite Hopen. simpl. by destruct (send_arg_ok data).
  - simplify_eq. unfold call. rewrite Hopen. simpl. by destruct (batch_arg_ok datas).
  - destruct (Hres run AwaitClaim _ ltac:(by left) Hstep).
  - destruct (Hres run AwaitCreate _ ltac:(by right) Hstep).
  - unfold resume in Hstep.
    destruct (runs s !! run) as [x|]; [|done].
    destruct (suspended_at AwaitRenewal x); [|done].
    destruct (init_after_renewal r (world s)) as [ph' w] eqn:Hk. simplify_eq.
    unfold attempts. rewrite world_record_phase.
    unfold init_after_renewal in Hk. by destruct r; simplify_eq.
  - unfold grant in Hstep. destruct (holder s); [done|].
    destruct (queue s) as [|run rest]; [done|]. simplify_eq.
    unfold attempts, start.
    destruct (init_start_cases (world s)) as [[_ ->]|[Hc _]]; [|congruence].
    by rewrite world_record_phase.
  - simplify_eq. unfold attempts. simpl. unfold with_link.
    by destruct (world s) as [[l|] ? ? ? ?].
Qed.

Lemma first_call data :
  send_arg_ok data = true →
  step fresh (CallSend data) =
    Some {| world := log ENegotiateClaim
                       (log (ELockAcquire senderLock) fresh_world);
            holder := Some 0; queue := [];
            runs := [Started AwaitClaim]; calls := [Waiting 0] |}.
Proof. intros Hok. simpl. unfold call, acquire. by rewrite Hok. Qed.

Lemma acquired_fields n w :
  _sender (acquired n w) = _sender w
  ∧ ctx_sender (acquired n w) = ctx_sender w
  ∧ _tokenRenewalTimer (acquired n w) = _tokenRenewalTimer w
  ∧ promises (acquired n w) = promises w
  ∧ filter (λ e, is_create e = true) (trace (acquired n w))
    = filter (λ e, is_create e = true) (trace w).
Proof.
  induction n as [|n (H1 & H2 & H3 & H4 & H5)]; [done|]. simpl.
  repeat split; try done. rewrite filter_app, H5. simpl. by rewrite app_nil_r.
Qed.

(** Calls issued while the key is held are queued behind the holder;
    none of their closures is called. *)
Lemma calls_queue data n s r :
  holder s = Some r → _isOpen (world s) = false →
  send_arg_ok data = true →
  exec s (replicate n (CallSend data))
  = Some {| world := acquired n (world s); holder := holder s;
            queue := queue s ++ seq (length (runs s)) n;
            runs := runs s ++ replicate n Queued;
            calls := calls s ++ (Waiting <$> seq (length (runs s)) n) |}.
Proof.
  intros Hh Hopen Hok. revert s Hh Hopen.
  induction n as [|n IH]; intros s Hh Hopen; simpl.
  - rewrite !app_nil_r. by destruct s.
  - unfold call, acquire. rewrite Hok, Hopen, Hh. simpl.
    rewrite IH; simpl; [|done|by rewrite isOpen_log].
    rewrite length_app. simpl. rewrite Nat.add_1_r, <- !app_assoc. simpl.
    do 2 f_equal.
    clear. induction n as [|n IHn]; [done|]. simpl. by rewrite <- IHn.
Qed.

Lemma wake_later a o b n :
  a < b → wake a o <$> (Waiting <$> seq b n) = Waiting <$> seq b n.
Proof.
  revert b. induction n as [|n IH]; intros b Hlt; [done|]. cbn [seq].
  rewrite !fmap_cons, IH by lia. simpl. by rewrite decide_False by lia.
Qed.

Lemma wake_settled a o (cs : list CallState) :
  Forall (λ c, ∀ r, c ≠ Waiting r) cs → wake a o <$> cs = cs.
Proof.
  induction 1 as [|c cs Hc _ IH]; [done|]. rewrite fmap_cons, IH. f_equal.
  destruct c as [| |r|]; try done. by destruct (Hc r).
Qed.

(** With the link open, the key goes down the queue and every run ends
    at once: no claim is negotiated and no link asked for. *)
Lemma grants_skip n : ∀ s a pre cs,
  holder s = None → queue s = seq a n → _isOpen (world s) = true →
  runs s = pre ++ replicate n Queued → length pre = a →
  calls s = cs ++ (Waiting <$> seq a n) →
  Forall (λ c, ∀ r, c ≠ Waiting r) cs →
  exec s (replicate n Grant)
  = Some {| world := world s; holder := None; queue := [];
            runs := pre ++ replicate n (Started (Finished None));
            calls := cs ++ ((λ r, Initialised r None) <$> seq a n) |}.
Proof.
  induction n as [|n IH]; intros s a pre cs Hh Hq Hopen Hruns Hlen Hcalls Hcs.
  - simpl in *. rewrite <- Hh, <- Hq, <- Hruns, <- Hcalls. by destruct s.
  - cbn [replicate exec step]. unfold grant. rewrite Hh, Hq. cbn [seq].
    unfold start.
    destruct (init_start_cases (world s)) as [[_ ->]|[Hc _]]; [|congruence].
    cbn [record_phase]. rewrite Hruns, Hcalls. cbn [seq replicate fmap list_fmap].
    erewrite (IH _ (S a) (pre ++ [Started (Finished None)])
                (cs ++ [Initialised a None])).
    + cbn [world]. rewrite <- !app_assoc. done.
    + done.
    + done.
    + done.
    + cbn [runs]. rewrite insert_app_r_alt, Hlen, Nat.sub_diag by lia.
      by rewrite <- app_assoc.
    + rewrite length_app. simpl. lia.
    + cbn [calls]. rewrite fmap_app, fmap_cons.
      change (list_fmap _ _ Waiting (seq (S a) n)) with (Waiting <$> seq (S a) n).
      rewrite wake_settled, wake_later by (done || lia). simpl.
      rewrite decide_True by done. by rewrite <- app_assoc.
    + apply Forall_app. split; [done|]. by repeat constructor.
Qed.

(** A call that goes to the lock hands it a run of its own: when the
    key is free the run starts at once and goes to negotiate the claim;
    otherwise it is put at the end of the queue and nothing is
    called. *)
Lemma acquire_own_run s :
  _isOpen (world s) = false →
  calls (acquire s) = calls s ++ [Waiting (length (runs s))]
  ∧ (holder s = None → queue s = [] →
     runs (acquire s) = runs s ++ [Started AwaitClaim]
     ∧ holder (acquire s) = Some (length (runs s)))
  ∧ (holder s ≠ None ∨ queue s ≠ [] →
     runs (acquire s) = runs s ++ [Queued]
     ∧ queue (acquire s) = queue s ++ [length (runs s)]
     ∧ holder (acquire s) = holder s).
Proof.
  intros Hopen. unfold acquire, start.
  destruct (holder s) as [r0|] eqn:Hh; [|destruct (queue s) as [|q0 qs] eqn:Hq].
  - simpl. split; [done|]. split; [done|]. by intros _.
  - cbn [world holder queue runs calls].
    destruct (init_start_cases (log (ELockAcquire senderLock) (world s)))
      as [[Hc _]|[_ ->]]; [by rewrite isOpen_log, Hopen in Hc|].
    cbn [record_phase calls runs holder].
    split; [done|]. split; [|by intros [?|?]].
    intros _ _. split; [|done].
    by rewrite insert_app_r_alt, Nat.sub_diag by lia.
  - simpl. split; [done|]. split; [done|]. by intros _.
Qed.

(** A burst of calls whose first attempt yields an open link: the runs
    of the waiters find the link open and end at once, so one attempt
    was made and every waiter succeeds, whatever became of the renewal
    the first run awaited. *)
Lemma burst_first_opens data n l rr :
  send_arg_ok data = true → l_isOpen l = true →
  ∃ s, exec fresh (burst (S n) data ++ first_opens n l rr) = Some s
       ∧ holder s = None ∧ queue s = []
       ∧ runs s = Started (Finished (init_outcome (inr l) rr))
                  :: replicate n (Started (Finished None))
       ∧ calls s = Initialised 0 (init_outcome (inr l) rr)
                   :: ((λ r, Initialised r None) <$> seq 1 n)
       ∧ attempts s = 1
       ∧ _sender (world s) = Some l.
Proof.
  intros Hok Hopen. unfold burst, first_opens.
  cbn [replicate app exec]. rewrite (first_call data Hok).
  rewrite exec_app, (calls_queue data n _ 0) by done.
  cbn [mbind option_bind world holder queue runs calls length app].
  set (w0 := acquired n _).
  destruct (acquired_fields n
              (log ENegotiateClaim (log (ELockAcquire senderLock) fresh_world)))
    as (H1 & H2 & H3 & H4 & H5).
  fold w0 in H1, H2, H3, H4, H5. clearbody w0.
  destruct w0 as [s0 c0 t0 ps0 tr0]. simpl in H1, H2, H3, H4, H5. subst.
  remember (seq 1 n) as q eqn:Hq.
  remember (replicate n Queued) as rs eqn:Hrs.
  remember (Waiting <$> q) as cs eqn:Hcs.
  assert (∀ o, wake 0 o <$> cs = cs) as Hwake
    by (intros o; subst cs q; apply wake_later; lia).
  simpl. destruct rr as [e|t]; simpl;
    change (list_fmap CallState CallState ?f cs) with (f <$> cs);
    rewrite Hwake; subst.
  - erewrite (grants_skip n _ 1 [Started (Finished (Some (translate e)))]
                [Initialised 0 (Some (translate e))]);
      [|done|done|done|done|done|done|by repeat constructor].
    eexists. split; [reflexivity|]. cbn [holder queue runs calls world].
    repeat split; try done.
    unfold attempts. simpl. rewrite !filter_app, H5. done.
  - erewrite (grants_skip n _ 1 [Started (Finished None)]
                [Initialised 0 None]);
      [|done|done|done|done|done|done|by repeat constructor].
    eexists. split; [reflexivity|]. cbn [holder queue runs calls world].
    repeat split; try done.
    unfold attempts. simpl. rewrite !filter_app, H5. done.
Qed.

(** A burst of calls whose first attempt fails: the failure goes to the
    first call; the key passes to the second, whose run finds the link
    not open and sets out on an attempt of its own. *)
Lemma burst_first_fails data n e :
  send_arg_ok data = true →
  ∃ s, exec fresh (burst (S (S n)) data ++ first_fails e) = Some s
       ∧ calls s !! 0 = Some (Initialised 0 (Some (translate e)))
       ∧ calls s !! 1 = Some (Waiting 1)
       ∧ runs s !! 1 = Some (Started AwaitClaim)
       ∧ holder s = Some 1
       ∧ attempts s = 1
       ∧ ∃ s', step s (ClaimDone 1 None) = Some s' ∧ attempts s' = 2.
Proof.
  intros Hok. unfold burst, first_fails.
  change (replicate (S (S n)) (CallSend data))
    with (CallSend data :: replicate (S n) (CallSend data)).
  rewrite <- app_comm_cons. cbn [exec]. rewrite (first_call data Hok).
  rewrite exec_app, (calls_queue data (S n) _ 0) by done.
  cbn [mbind option_bind world holder queue runs calls length app].
  set (w0 := acquired (S n) _).
  destruct (acquired_fields (S n)
              (log ENegotiateClaim (log (ELockAcquire senderLock) fresh_world)))
    as (H1 & H2 & H3 & H4 & H5).
  fold w0 in H1, H2, H3, H4, H5. clearbody w0.
  destruct w0 as [s0 c0 t0 ps0 tr0]. simpl in H1, H2, H3, H4, H5. subst.
  cbn [seq replicate].
  remember (seq 2 n) as q eqn:Hq.
  remember (replicate n Queued) as rs eqn:Hrs.
  rewrite fmap_cons.
  remember (Waiting <$> q) as cs eqn:Hcs.
  simpl. eexists. split; [reflexivity|]. simpl.
  repeat split; try done.
  - unfold attempts. simpl. rewrite !filter_app, H5. done.
  - eexists. split; [reflexivity|].
    unfold attempts. simpl. rewrite !filter_app, H5. done.
Qed.

(** A caller that is alone goes through the scheduler exactly as
    [ensure_init] describes it. *)
Lemma lone_call_agrees data ie :
  send_arg_ok data = true →
  ∃ es s, exec fresh (CallSend data :: es) = Some s
          ∧ world s = (ensure_init ie fresh_world).2
          ∧ calls s = [Initialised 0 (ensure_init ie fresh_world).1].
Proof.
  intros Hok. cbn [exec]. rewrite (first_call data Hok).
  destruct ie as [[e|] cr rr].
  - exists [ClaimDone 0 (Some e)]. by eexists.
  - destruct cr as [e|l].
    + exists [ClaimDone 0 None; CreateDone 0 (inl e)]. by eexists.
    + destruct rr as [e|t].
      * exists [ClaimDone 0 None; CreateDone 0 (inr l); RenewalDone 0 (inl e)].
        by eexists.
      * exists [ClaimDone 0 None; CreateDone 0 (inr l); RenewalDone 0 (inr t)].
        by eexists.
Qed.

(** C1 (as amended).  In every state the callers of a sender can
    reach: a valid [send] or [sendBatch] call that finds the link not
    open goes to [defaultLock.acquire] under the sender's key and hands
    it a run of [_init] of its own, which starts at once when the key
    is free and is queued otherwise; a queued run is started when the
    key reaches it; [_init] looks at the link again when it starts and
    does nothing when the link is open; at most one run is under way,
    so at most one attempt to open the link is in flight; a run is
    before or at its [createSender] only while the link is not open,
    and no attempt is made from a state in which the link is open;
    every call past initialisation holds the outcome of its own run.
    In particular, of any number of calls issued before a link exists,
    when the attempt of the first yields an open link the runs of all
    the others end without an attempt and with success, and one attempt
    has been made; when the attempt of the first fails, that call gets
    the failure, and the run of the next sets out on an attempt of its
    own. *)
Theorem concurrent_sends_take_turns es s :
  exec fresh es = Some s →
  (∀ data, send_arg_ok data = true → _isOpen (world s) = false →
     step s (CallSend data) = Some (acquire s))
  ∧ (∀ datas, batch_arg_ok datas = true → _isOpen (world s) = false →
       step s (CallSendBatch datas) = Some (acquire s))
  ∧ (_isOpen (world s) = false →
       calls (acquire s) = calls s ++ [Waiting (length (runs s))]
       ∧ (holder s = None → queue s = [] →
          runs (acquire s) = runs s ++ [Started AwaitClaim]
          ∧ holder (acquire s) = Some (length (runs s)))
       ∧ (holder s ≠ None ∨ queue s ≠ [] →
          runs (acquire s) = runs s ++ [Queued]
          ∧ queue (acquire s) = queue s ++ [length (runs s)]
          ∧ holder (acquire s) = holder s))
  ∧ (∀ r, runs s !! r = Some Queued ↔ r ∈ queue s)
  ∧ (∀ run rest, holder s = None → queue s = run :: rest →
       step s Grant = Some (start run rest s))
  ∧ (∀ w, init_start w =
          if _isOpen w then (Finished None, w)
          else (AwaitClaim, log ENegotiateClaim w))
  ∧ (running s ≤ 1)%nat
  ∧ (in_flight s ≤ 1)%nat
  ∧ (∀ r ph, runs s !! r = Some (Started ph) →
       ph = AwaitClaim ∨ ph = AwaitCreate → _isOpen (world s) = false)
  ∧ (∀ e s', _isOpen (world s) = true → step s e = Some s' →
       attempts s' = attempts s)
  ∧ (∀ i j c c' r, calls s !! i = Some c → calls s !! j = Some c' →
       run_of c = Some r → run_of c' = Some r → i = j)
  ∧ (∀ i r o, calls s !! i = Some (Initialised r o) →
       runs s !! r = Some (Started (Finished o)))
  ∧ (∀ data n l rr, send_arg_ok data = true → l_isOpen l = true →
       ∃ s', exec fresh (burst (S n) data ++ first_opens n l rr) = Some s'
             ∧ attempts s' = 1
             ∧ calls s' = Initialised 0 (init_outcome (inr l) rr)
                          :: ((λ r, Initialised r None) <$> seq 1 n))
  ∧ (∀ data n e, send_arg_ok data = true →
       ∃ s', exec fresh (burst (S (S n)) data ++ first_fails e) = Some s'
             ∧ calls s' !! 0 = Some (Initialised 0 (Some (translate e)))
             ∧ calls s' !! 1 = Some (Waiting 1)
             ∧ runs s' !! 1 = Some (Started AwaitClaim)
             ∧ attempts s' = 1
             ∧ ∃ s'', step s' (ClaimDone 1 None) = Some s''
                      ∧ attempts s'' = 2).
Proof.
  intros Hex.
  pose proof (serialised_exec es _ _ serialised_fresh Hex) as Hinv.
  split; [intros data Hok Hopen; simpl; unfold call; by rewrite Hok, Hopen|].
  split; [intros datas Hok Hopen; simpl; unfold call; by rewrite Hok, Hopen|].
  split; [by apply acquire_own_run|].
  split; [intros r; symmetry; apply (ser_queue s Hinv)|].
  split; [intros run rest Hh Hq; simpl; unfold grant; by rewrite Hh, Hq|].
  split; [intros w; unfold init_start; by destruct (_isOpen w)|].
  split; [by apply serialised_running|].
  split; [by apply serialised_in_flight|].
  split; [apply (ser_closed s Hinv)|].
  split; [intros e s' Hopen Hstep; by eapply no_attempt_while_open|].
  split; [apply (ser_own s Hinv)|].
  split; [apply (ser_done s Hinv)|].
  split.
  - intros data n l rr Hok Hopen.
    destruct (burst_first_opens data n l rr Hok Hopen)
      as (s' & H1 & _ & _ & _ & H2 & H3 & _). eauto.
  - intros data n e Hok.
    destruct (burst_first_fails data n e Hok)
      as (s' & H1 & H2 & H3 & H4 & _ & H5 & H6). eauto 10.
Qed.

End BurstFacts.

Section BurstExamples.

Import Concurrent.
#[local] Abbreviation env := sample_env.

(** C1, as stated, fails: of two calls issued before a link exists, the
    first makes an attempt that fails; the key passes to the second,
    which makes an attempt of its own that succeeds.  Two attempts were
    made, one at a time, and the two calls hold different outcomes. *)
Lemma failed_attempt_is_repeated :
  let data := JObj sample_message in
  let e := PlainError "link refused" in
  let es := burst 2 data ++ first_fails e ++
            [ClaimDone 1 None; CreateDone 1 (inr (open_link 2));
             RenewalDone 1 (inr 11%nat)] in
  ∃ s, exec (E := env) fresh es = Some s
       ∧ attempts s = 2
       ∧ calls s = [Initialised 0 (Some (translate (SenderEnv := env) e));
                    Initialised 1 None]
       ∧ ¬ (∀ i j r r' o o',
              calls s !! i = Some (Initialised r o) →
              calls s !! j = Some (Initialised r' o') → o = o').
Proof.
  intros data e es. eexists. split; [vm_compute; reflexivity|].
  split; [vm_compute; reflexivity|]. split; [vm_compute; reflexivity|].
  intros Hall. specialize (Hall 0 1 0 1 _ _ eq_refl eq_refl). discriminate Hall.
Qed.

Lemma concurrent_sends_take_turns_witness :
  let data := JObj sample_message in
  let es := [CallSend data; CallSend data] in
  ∃ s, exec (E := env) fresh es = Some s
       ∧ (running s ≤ 1)%nat.
Proof.
  intros data es.
  destruct (exec (E := env) fresh es) as [s|] eqn:Hex;
    [|vm_compute in Hex; discriminate Hex].
  exists s. split; [reflexivity|].
  exact (proj1 (proj2 (proj2 (proj2 (proj2 (proj2 (proj2
    (concurrent_sends_take_turns (E := env) es s Hex)))))))).
Defined.

End BurstExamples.

(** ** What a send attempt leaves alone *)

Section OpeningFacts.

Context {E : SenderEnv}.
Implicit Types (w : World) (p : nat) (h : Handler) (ev : SenderEvent)
  (ctx : EventContext) (m : Payload) (es : list LoopEvent).

Lemma opening_settle p s w : opening (settle p s w) = opening w.
Proof. unfold settle. by repeat case_match. Qed.

Lemma opening_unregister ev p w : opening (unregister ev p w) = opening w.
Proof.
  unfold opening, creates, acquires, unregister, with_link.
  destruct w as [[l|] c t ps tr]; simpl; rewrite !filter_app; simpl;
    by rewrite !app_nil_r.
Qed.

Lemma opening_register ev p w : opening (register ev p w) = opening w.
Proof.
  unfold opening, creates, acquires, register, with_link.
  destruct w as [[l|] c t ps tr]; simpl; rewrite !filter_app; simpl;
    by rewrite !app_nil_r.
Qed.

Lemma opening_stripped p w : opening (stripped p w) = opening w.
Proof. unfold stripped. by rewrite !opening_unregister. Qed.

Lemma opening_fire h ctx w : opening (fire h ctx w).2 = opening w.
Proof.
  assert (opening (log (EFired h) w) = opening w) as H0.
  { unfold opening, creates, acquires. destruct w as [[l|] c t ps tr]; simpl;
      rewrite !filter_app; simpl; by rewrite !app_nil_r. }
  pose proof (fire_shape h ctx w) as Hshape. simpl in Hshape.
  destruct (_sender w) as [l|]; [|by destruct Hshape as [e ->]].
  destruct Hshape as [[s ->]|[e ->]]; cbn [snd];
    by rewrite ?opening_settle, opening_stripped.
Qed.

Lemma opening_dispatch e w : opening (dispatch e w) = opening w.
Proof.
  destruct e as [ev ctx|n|]; simpl; [|by destruct w as [[l|] c t ps tr]|done].
  unfold emit. destruct (_sender w) as [l|]; [|done].
  generalize (listeners ev l). intros hs. revert w.
  induction hs as [|h hs IH]; intros w; simpl; [done|].
  pose proof (opening_fire h ctx w) as Hf.
  destruct (fire h ctx w) as [[[]|e] w']; cbn [snd] in *; [|done].
  by rewrite IH.
Qed.

Lemma opening_await p es w : opening (final_world (await p es w)) = opening w.
Proof.
  revert w. induction es as [|e es IH]; intros w; cbn [await].
  - by repeat case_match.
  - repeat case_match; try done; by rewrite IH, opening_dispatch.
Qed.

Lemma opening_delay es w es' w' :
  delay es w = Some (es', w') → opening w' = opening w.
Proof.
  revert w. induction es as [|e es IH]; intros w Hd; [done|].
  destruct e as [ev ctx|n|]; cbn [delay] in Hd.
  - by rewrite (IH _ Hd), opening_dispatch.
  - by rewrite (IH _ Hd), opening_dispatch.
  - by simplify_eq.
Qed.

Lemma opening_retry n p es w :
  opening (final_world (retry n (λ w, (p, w)) es w)) = opening w.
Proof.
  revert es w. induction n as [|n IH]; intros es w; simpl.
  - pose proof (opening_await p es w) as Ha.
    destruct (await p es w) as [[d|e] rest w'|w']; done.
  - pose proof (opening_await p es w) as Ha.
    destruct (await p es w) as [[d|e] rest w'|w']; simpl in *; try done.
    destruct (retryable e); [|done].
    destruct (delay rest w') as [[es2 w2]|] eqn:Hd; [|done].
    rewrite IH. by rewrite (opening_delay _ _ _ _ Hd).
Qed.

Lemma opening_sendEventPromise m w :
  opening (sendEventPromise m w).2 = opening w.
Proof.
  destruct (_sender w) as [l|] eqn:Hl.
  - destruct (sendable l) eqn:Hs.
    + rewrite (sendEventPromise_sendable m w l Hl Hs). simpl.
      unfold opening, creates, acquires, _isOpen. simpl.
      rewrite Hl, !filter_app. simpl. by rewrite !app_nil_r.
    + rewrite (sendEventPromise_no_credit m w l Hl Hs). done.
  - unfold sendEventPromise, new_promise. simpl. rewrite Hl. simpl.
    unfold reject. by rewrite opening_settle.
Qed.

Lemma opening_trySend m es w :
  opening (final_world (_trySend m es w)) = opening w.
Proof.
  unfold _trySend. pose proof (opening_sendEventPromise m w) as Hs.
  destruct (sendEventPromise m w) as [p w1]. simpl in Hs.
  by rewrite opening_retry.
Qed.

(** A valid argument of [send] has a body to read. *)
Lemma to_wire_valid data :
  send_arg_ok data = true →
  ∃ body, prop data "body" = Return body
          ∧ to_wire data
            = Return (<["body" := dataTransformer_encode body]> (toAmqpMessage data)).
Proof.
  intros Hok. unfold to_wire.
  destruct data; simpl in *; try done; by eexists.
Qed.

End OpeningFacts.

(** ** Initialisation as send and sendBatch see it *)

Section InitialisationFacts.

Context {E : SenderEnv}.
Implicit Types (w : World) (ie : InitEnv) (es : list LoopEvent)
  (data datas : JsVal) (l : Link).

Lemma ensure_init_open ie w : _isOpen w = true → ensure_init ie w = (None, w).
Proof. intros Ho. unfold ensure_init. by rewrite Ho. Qed.

Lemma ensure_init_error_translated ie w e :
  (ensure_init ie w).1 = Some e → ∃ e0, e = translate e0.
Proof.
  unfold ensure_init, _init, init_start, init_after_claim, init_after_create,
    init_after_renewal, init_failed.
  destruct w as [s c t ps tr]. simpl.
  repeat (case_match; simplify_eq; simpl in *; try done);
    intros [= <-]; by eexists.
Qed.

(** X1.  When initialisation fails, [send] and [sendBatch] throw what
    [_init] threw, which went through [translate]; the events of the loop
    are left unconsumed, no promise is built, and the trace gains neither
    a handler registration nor a send. *)
Theorem send_stops_at_failed_initialisation data datas ie es w e :
  (ensure_init ie w).1 = Some e →
  send_arg_ok data = true → batch_arg_ok datas = true →
  send data ie es w = Done (Throw e) es (ensure_init ie w).2
  ∧ sendBatch datas ie es w = Done (Throw e) es (ensure_init ie w).2
  ∧ (∃ e0, e = translate e0)
  ∧ promises (ensure_init ie w).2 = promises w
  ∧ (∃ tr, trace (ensure_init ie w).2 = trace w ++ tr
           ∧ Forall (λ e, is_delivery_effect e = false) tr).
Proof.
  intros He Hd Hb.
  split; [|split; [|split; [|split]]].
  - unfold send. rewrite Hd. simpl.
    destruct (ensure_init ie w) as [r w']. simpl in He. by subst r.
  - unfold sendBatch. rewrite Hb. simpl.
    destruct (ensure_init ie w) as [r w']. simpl in He. by subst r.
  - by eapply ensure_init_error_translated.
  - apply ensure_init_promises.
  - apply ensure_init_no_delivery.
Qed.

Lemma creates_log e w :
  creates (log e w) = creates w + (if Concurrent.is_create e then 1 else 0).
Proof.
  unfold creates. simpl. rewrite filter_app, length_app.
  destruct e; simpl; lia.
Qed.

Lemma acquires_log e w :
  acquires (log e w) = acquires w + (if is_acquire e then 1 else 0).
Proof.
  unfold acquires. simpl. rewrite filter_app, length_app.
  destruct e; simpl; lia.
Qed.

(** The context slot after [if (!this._context.sender)
    this._context.sender = this]. *)
Lemma slot_filled w :
  let w' := if ctx_sender w then w else set_ctx_sender true w in
  _sender w' = _sender w ∧ ctx_sender w' = true
  ∧ _tokenRenewalTimer w' = _tokenRenewalTimer w
  ∧ promises w' = promises w ∧ trace w' = trace w.
Proof. simpl. by destruct (ctx_sender w) eqn:Hw. Qed.

(** [ensure_init] on a sender whose link is not open, path by path. *)
Lemma ensure_init_closed ie w :
  _isOpen w = false →
  ensure_init ie w =
    let w1 := log ENegotiateClaim (log (ELockAcquire senderLock) w) in
    match claim ie with
    | Some e => (Some (translate e), w1)
    | None =>
        let w2 := log ECreateSender w1 in
        match created ie with
        | inl e => (Some (translate e), w2)
        | inr l =>
            let w3 := set_sender (Some l) w2 in
            let w4 := log EEnsureTokenRenewal
                        (if ctx_sender w3 then w3 else set_ctx_sender true w3) in
            match renewal ie with
            | inl e => (Some (translate e), w4)
            | inr t => (None, set_timer (Some t) w4)
            end
        end
    end.
Proof.
  intros Ho. unfold ensure_init. rewrite Ho. cbn [negb].
  unfold _init, init_start.
  change (_isOpen (log (ELockAcquire senderLock) w)) with (_isOpen w).
  rewrite Ho. cbn [negb]. destruct ie as [[e1|] [e2|l] [e3|t]]; reflexivity.
Qed.

(** X2.  When claim negotiation fails, [createSender] is never called;
    when claim negotiation or [createSender] fails, the sender keeps the
    link, context slot, renewal timer and promises it had, and the caller
    gets the translated error. *)
Theorem init_failure_before_link ie w e :
  _isOpen w = false →
  claim ie = Some e ∨ (claim ie = None ∧ created ie = inl e) →
  let w' := (ensure_init ie w).2 in
  (ensure_init ie w).1 = Some (translate e)
  ∧ _sender w' = _sender w
  ∧ ctx_sender w' = ctx_sender w
  ∧ _tokenRenewalTimer w' = _tokenRenewalTimer w
  ∧ promises w' = promises w
  ∧ (claim ie = Some e → creates w' = creates w)
  ∧ (claim ie = None → creates w' = S (creates w)).
Proof.
  intros Ho Hfail. rewrite (ensure_init_closed ie w Ho). cbn zeta.
  destruct Hfail as [Hc|[Hc Hcr]]; rewrite Hc, ?Hcr; cbn [fst snd];
    rewrite ?creates_log; cbn [Concurrent.is_create];
    repeat split; try done; intros; lia.
Qed.

(** X3.  When token renewal fails after the link was created, [_init]
    throws, yet the link stays in [_sender] and the sender is in the
    context slot, while the renewal timer is left as it was; if that link
    is open, every later [send] or [sendBatch] skips initialisation, so
    renewal is not attempted again. *)
Theorem init_renewal_failure_keeps_link ie w l e :
  _isOpen w = false →
  claim ie = None → created ie = inr l → renewal ie = inl e →
  l_isOpen l = true →
  let w' := (ensure_init ie w).2 in
  (ensure_init ie w).1 = Some (translate e)
  ∧ _sender w' = Some l
  ∧ ctx_sender w' = true
  ∧ _tokenRenewalTimer w' = _tokenRenewalTimer w
  ∧ (∀ ie', ensure_init ie' w' = (None, w')).
Proof.
  intros Ho Hc Hcr Hr Hl. rewrite (ensure_init_closed ie w Ho). cbn zeta.
  rewrite Hc, Hcr, Hr. cbn [fst snd].
  set (w3 := set_sender (Some l) _).
  destruct (slot_filled w3) as (H1 & H2 & H3 & _). cbn zeta in *.
  split; [done|]. split; [exact H1|]. split; [exact H2|]. split; [exact H3|].
  intros ie'. apply ensure_init_open. unfold _isOpen.
  change (_sender (log EEnsureTokenRenewal ?x)) with (_sender x).
  by rewrite H1.
Qed.

(** X4.  The source keeps the sender in the client cache across a close
    and a restart: after [close] has cleared the context slot and dropped
    the link, a successful initialisation stores the new link, puts the
    sender back in the slot and sets the renewal timer. *)
Theorem close_then_init_restores_slot ie w l l' t :
  _sender w = Some l →
  claim ie = None → created ie = inr l' → renewal ie = inr t →
  let w1 := (close None w).2 in
  let w2 := (ensure_init ie w1).2 in
  ctx_sender w1 = false ∧ _sender w1 = None
  ∧ (ensure_init ie w1).1 = None
  ∧ _sender w2 = Some l'
  ∧ ctx_sender w2 = true
  ∧ _tokenRenewalTimer w2 = Some t
  ∧ creates w2 = S (creates w)
  ∧ acquires w2 = S (acquires w).
Proof.
  intros Hs Hc Hcr Hr w1.
  assert (ctx_sender w1 = false ∧ _sender w1 = None
          ∧ creates w1 = creates w ∧ acquires w1 = acquires w)
    as (Hc1 & Hs1 & Hcr1 & Ha1).
  { destruct w as [s c t0 ps tr]. simpl in Hs. subst s.
    unfold w1, close, creates, acquires. simpl. rewrite !filter_app. simpl.
    by rewrite !app_nil_r. }
  assert (_isOpen w1 = false) as Ho by (unfold _isOpen; by rewrite Hs1).
  cbn zeta. rewrite (ensure_init_closed ie w1 Ho). cbn zeta.
  rewrite Hc, Hcr, Hr. cbn [fst snd].
  set (w3 := set_sender (Some l') _).
  destruct (slot_filled w3) as (H1 & H2 & H3 & _ & H5). cbn zeta in *.
  split; [done|]. split; [done|]. split; [done|].
  split; [exact H1|]. split; [exact H2|]. split; [done|].
  unfold creates, acquires in *.
  change (trace (set_timer (Some t) (log EEnsureTokenRenewal ?x)))
    with (trace x ++ [EEnsureTokenRenewal]).
  rewrite H5. unfold w3. simpl. rewrite !filter_app. simpl.
  rewrite !app_nil_r, ?length_app. simpl. rewrite Hcr1, Ha1. split; lia.
Qed.

End InitialisationFacts.

(** ** What send and sendBatch hand to the link *)

Section DeliveryFacts.

Context {E : SenderEnv}.
Implicit Types (w : World) (ie : InitEnv) (es : list LoopEvent)
  (data datas : JsVal) (l : Link) (p : nat) (m : Payload).

(** X5.  When [send] gets past initialisation onto a link with credit,
    the link is handed one message: [toAmqpMessage(data)] with its body
    replaced by the data transformer's encoding of [data.body], whatever
    body [toAmqpMessage] had put there, and whatever the retry policy
    does afterwards. *)
Theorem send_hands_over_encoded_body data ie es w w1 :
  send_arg_ok data = true →
  ensure_init ie w = (None, w1) → sendable_now w1 = true →
  ∃ body, prop data "body" = Return body
          ∧ sent (final_world (send data ie es w)) =
              sent w1 ++
              [PMessage (<["body" := dataTransformer_encode body]>
                           (toAmqpMessage data))].
Proof.
  intros Hok Hinit Hs.
  destruct (to_wire_valid data Hok) as (body & Hb & Hw).
  exists body. split; [done|].
  unfold send. rewrite Hok, Hinit, Hw. simpl.
  by rewrite _trySend_sends_once, Hs.
Qed.

(** X6.  On an open link, one call of [send] or of [sendBatch] hands the
    link at most one message, whatever the argument, the number of
    messages in the batch, the events and the number of retries. *)
Theorem one_call_one_message_at_most data datas ie es w :
  _isOpen w = true →
  (∃ extra, sent (final_world (send data ie es w)) = sent w ++ extra
            ∧ (length extra ≤ 1)%nat)
  ∧ (∃ extra, sent (final_world (sendBatch datas ie es w)) = sent w ++ extra
              ∧ (length extra ≤ 1)%nat).
Proof.
  intros Ho. pose proof (ensure_init_open ie w Ho) as Hinit.
  assert (∀ m, ∃ extra, sent (final_world (_trySend m es w)) = sent w ++ extra
                        ∧ (length extra ≤ 1)%nat) as Htry.
  { intros m. rewrite _trySend_sends_once. eexists. split; [done|].
    destruct (sendable_now w); simpl; lia. }
  assert (∃ extra : list Payload, sent w = sent w ++ extra
                                  ∧ (length extra ≤ 1)%nat) as Hnone.
  { exists []. rewrite app_nil_r. simpl. split; [done|lia]. }
  split.
  - unfold send. destruct (send_arg_ok data); simpl; [|done].
    rewrite Hinit. by destruct (to_wire data).
  - unfold sendBatch. destruct (batch_arg_ok datas); simpl; [|done].
    rewrite Hinit. destruct (to_wire_all _); [|done].
    by destruct (batchMessage_of _).
Qed.

Lemma send_opening_open data ie es w :
  _isOpen w = true → opening (final_world (send data ie es w)) = opening w.
Proof.
  intros H0. unfold send. destruct (send_arg_ok data); simpl; [|done].
  rewrite (ensure_init_open ie w H0). destruct (to_wire data); [|done].
  apply opening_trySend.
Qed.

Lemma sendBatch_opening_open datas ie es w :
  _isOpen w = true → opening (final_world (sendBatch datas ie es w)) = opening w.
Proof.
  intros H0. unfold sendBatch. destruct (batch_arg_ok datas); simpl; [|done].
  rewrite (ensure_init_open ie w H0). destruct (to_wire_all _); [|done].
  destruct (batchMessage_of _); [|done]. apply opening_trySend.
Qed.

Lemma send_opening_initialised data ie es w l t :
  send_arg_ok data = true → _isOpen w = false →
  claim ie = None → created ie = inr l → renewal ie = inr t →
  opening (final_world (send data ie es w))
  = (l_isOpen l, S (creates w), S (acquires w), true, Some t).
Proof.
  intros Hok Ho Hc Hcr Hr.
  destruct (to_wire_valid data Hok) as (body & _ & Hw).
  unfold send. rewrite Hok, (ensure_init_closed ie w Ho). cbn zeta.
  rewrite Hc, Hcr, Hr, Hw. cbn [negb]. rewrite opening_trySend.
  set (w3 := set_sender (Some l) _).
  destruct (slot_filled w3) as (H1 & H2 & H3 & _ & H5). cbn zeta in *.
  unfold opening, _isOpen, creates, acquires.
  change (trace (set_timer (Some t) (log EEnsureTokenRenewal ?x)))
    with (trace x ++ [EEnsureTokenRenewal]).
  change (_sender (set_timer (Some t) (log EEnsureTokenRenewal ?x)))
    with (_sender x).
  change (ctx_sender (set_timer (Some t) (log EEnsureTokenRenewal ?x)))
    with (ctx_sender x).
  rewrite H1, H2, H5. unfold w3. simpl. rewrite !filter_app. simpl.
  rewrite !app_nil_r, ?length_app. simpl.
  repeat f_equal; lia.
Qed.

(** X7.  Once a [send] has initialised the sender with an open link,
    the link is still open when the call ends, however the delivery went;
    every later [send] or [sendBatch] then skips the lock and [_init], so
    [createSender] has been called once and the lock taken once. *)
Theorem later_sends_skip_initialisation data ie es w l t :
  send_arg_ok data = true → _isOpen w = false →
  claim ie = None → created ie = inr l → renewal ie = inr t →
  l_isOpen l = true →
  let w' := final_world (send data ie es w) in
  _isOpen w' = true
  ∧ creates w' = S (creates w)
  ∧ acquires w' = S (acquires w)
  ∧ (∀ data' datas' ie' es',
       creates (final_world (send data' ie' es' w')) = creates w'
       ∧ acquires (final_world (send data' ie' es' w')) = acquires w'
       ∧ creates (final_world (sendBatch datas' ie' es' w')) = creates w'
       ∧ acquires (final_world (sendBatch datas' ie' es' w')) = acquires w').
Proof.
  intros Hok Ho Hc Hcr Hr Hl w'.
  pose proof (send_opening_initialised data ie es w l t Hok Ho Hc Hcr Hr) as Hw'.
  rewrite Hl in Hw'. fold w' in Hw'.
  injection Hw' as H1 H2 H3 _ _.
  split; [done|]. split; [done|]. split; [done|].
  intros data' datas' ie' es'.
  pose proof (send_opening_open data' ie' es' w' H1) as Hs.
  pose proof (sendBatch_opening_open datas' ie' es' w' H1) as Hb.
  injection Hs as _ -> -> _ _. injection Hb as _ -> -> _ _. done.
Qed.

(** X8.  A batch one of whose elements is [undefined] is rejected as a
    whole on an open link: the conversion loop throws a TypeError reading
    [body] of that element, no promise is built and the sender is left
    exactly as it was, whatever the elements before and after it. *)
Theorem sendBatch_undefined_element
    (before : list (gmap string JsVal)) (after : list JsVal) ie es w :
  _isOpen w = true →
  sendBatch (JArray ((JObj <$> before) ++ JUndefined :: after)) ie es w =
    Done (Throw (TypeError "Cannot read property 'body' of undefined")) es w.
Proof.
  intros Ho. unfold sendBatch. simpl. rewrite (ensure_init_open ie w Ho).
  assert (to_wire_all ((JObj <$> before) ++ JUndefined :: after) =
          Throw (TypeError "Cannot read property 'body' of undefined")) as ->;
    [|done].
  induction before as [|b bs IH]; simpl; [done|].
  change (list_fmap _ _ JObj bs) with (JObj <$> bs). by rewrite IH.
Qed.

End DeliveryFacts.

(** ** Handlers on the link across sends, events and close *)

Section ListenerFacts.

Context {E : SenderEnv}.
Implicit Types (w : World) (es : list LoopEvent) (l : Link) (p q : nat)
  (m : Payload) (h : Handler) (ev : SenderEvent) (ctx : EventContext).

Lemma own_handlers_filter p q :
  filter (λ x : SenderEvent * Handler, h_promise x.2 = p) (own_handlers q)
  = if decide (p = q) then own_handlers q else [].
Proof.
  unfold own_handlers. case_decide as Hpq.
  - subst q. by rewrite !filter_cons_True by done.
  - rewrite !filter_cons_False; [done|simpl; congruence..].
Qed.

(** What a send attempt does to the registrations and to the promise of
    any attempt. *)
Lemma sendEventPromise_mentions m w p :
  let p0 := length (promises w) in
  let w' := (sendEventPromise m w).2 in
  mentions p w' =
    mentions p w ++
    (if decide (p = p0) then if sendable_now w then own_handlers p0 else []
     else [])
  ∧ (p ≠ p0 → promises w' !! p = promises w !! p)
  ∧ (sendable_now w = true → promises w' !! p0 = Some Pending).
Proof.
  simpl. unfold sendable_now. destruct (_sender w) as [l|] eqn:Hl.
  - destruct (sendable l) eqn:Hs.
    + rewrite (sendEventPromise_sendable m w l Hl Hs). simpl.
      unfold mentions. simpl. rewrite Hl, filter_app, own_handlers_filter.
      split; [done|]. split.
      * intros Hne. destruct (decide (p < length (promises w))) as [Hlt|Hge].
        -- by rewrite lookup_app_l.
        -- rewrite !lookup_ge_None_2; [done|lia|rewrite length_app; simpl; lia].
      * intros _. by rewrite lookup_app_r, Nat.sub_diag by done.
    + rewrite (sendEventPromise_no_credit m w l Hl Hs). simpl.
      unfold mentions. simpl. rewrite Hl.
      split; [by case_decide; rewrite app_nil_r|]. split; [|done].
      intros Hne. destruct (decide (p < length (promises w))) as [Hlt|Hge].
      * by rewrite lookup_app_l.
      * rewrite !lookup_ge_None_2; [done|lia|rewrite length_app; simpl; lia].
  - unfold sendEventPromise, new_promise. simpl. rewrite Hl. simpl.
    unfold reject, mentions. rewrite settle_sender. simpl. rewrite Hl.
    split; [by case_decide|]. split; [|done].
    intros Hne. rewrite settle_other by done. simpl.
    destruct (decide (p < length (promises w))) as [Hlt|Hge].
    + by rewrite lookup_app_l.
    + rewrite !lookup_ge_None_2; [done|lia|rewrite length_app; simpl; lia].
Qed.




(** X10.  Dispositions are not matched to deliveries: with two sends
    outstanding on one link, both messages have gone to the link, and the
    first disposition the link raises for which the contract names an
    outcome settles both promises, with that same outcome; an accepted
    one resolves both calls with the same delivery. *)
Theorem outstanding_sends_settle_together m1 m2 w l ev ctx s :
  _sender w = Some l → (2 ≤ l_credit l)%nat → handlers_wf w →
  spec_outcome ev ctx = Some s →
  let p1 := (sendEventPromise m1 w).1 in
  let w1 := (sendEventPromise m1 w).2 in
  let p2 := (sendEventPromise m2 w1).1 in
  let w2 := (sendEventPromise m2 w1).2 in
  let w3 := (emit ev ctx w2).2 in
  p1 ≠ p2
  ∧ sent w2 = sent w ++ [m1; m2]
  ∧ promises w2 !! p1 = Some Pending ∧ promises w2 !! p2 = Some Pending
  ∧ promises w3 !! p1 = Some s
  ∧ is_settled (promises w3 !! p1) = true
  ∧ promises w3 !! p2 = promises w3 !! p1
  ∧ (ev = accepted → promises w3 !! p1 = Some (Resolved (delivery ctx))).
Proof.
  intros Hl Hcredit Hwf Hout.
  assert (sendable l = true) as Hs1 by (unfold sendable; apply Nat.ltb_lt; lia).
  pose proof (sendEventPromise_sendable m1 w l Hl Hs1) as Heq1.
  pose proof (sendEventPromise_owned m1 w l Hl Hs1 Hwf) as Ho1.
  pose proof (handlers_wf_send m1 w Hwf) as Hwf1.
  destruct (sendEventPromise m1 w) as [p1 w1] eqn:Hsp1.
  destruct Ho1 as (-> & Hp1 & Hm1 & _). cbn [fst snd] in *.
  injection Heq1 as Hw1.
  assert (∃ l1, _sender w1 = Some l1 ∧ sendable l1 = true
                ∧ l_sent l1 = l_sent l ++ [m1]) as (l1 & Hl1 & Hs2 & Hsent1).
  { rewrite Hw1. eexists. split; [reflexivity|]. split; [|done].
    unfold sendable. simpl. apply Nat.ltb_lt. lia. }
  assert (length (promises w1) = S (length (promises w))) as Hlen.
  { rewrite Hw1. simpl. rewrite length_app. simpl. lia. }
  pose proof (sendEventPromise_sendable m2 w1 l1 Hl1 Hs2) as Heq2.
  pose proof (sendEventPromise_owned m2 w1 l1 Hl1 Hs2 Hwf1) as Ho2.
  pose proof (handlers_wf_send m2 w1 Hwf1) as Hwf2.
  destruct (sendEventPromise_mentions m2 w1 (length (promises w)))
    as (Hm12 & Hp12 & _).
  destruct (sendEventPromise m2 w1) as [p2 w2] eqn:Hsp2.
  destruct Ho2 as (-> & Hp2 & Hm2 & _). cbn [fst snd] in *.
  injection Heq2 as Hw2.
  rewrite decide_False, app_nil_r in Hm12 by lia.
  assert (promises w2 !! length (promises w) = Some Pending) as Hp1'
    by (rewrite Hp12 by lia; done).
  assert (_sender w2 ≠ None) as Hs by (by rewrite Hw2).
  destruct (emit_own ev ctx (length (promises w)) s w2 Hwf2 Hs) as (_ & Ha1 & _);
    [congruence|done|done|].
  destruct (emit_own ev ctx (length (promises w1)) s w2 Hwf2 Hs Hm2 Hp2 Hout)
    as (_ & Ha2 & _).
  assert (is_settled (Some s) = true) as Hset.
  { unfold spec_outcome in Hout.
    destruct ev; destruct (remote_error (delivery ctx)); by simplify_eq. }
  split; [lia|]. split.
  { unfold sent. rewrite Hw2, Hl. simpl. by rewrite Hsent1, <- app_assoc. }
  split; [done|]. split; [done|]. rewrite Ha1, Ha2.
  split; [done|]. split; [done|]. split; [done|].
  intros ->. unfold spec_outcome in Hout. by simplify_eq.
Qed.

Lemma dispatch_without_link e w : _sender w = None → dispatch e w = w.
Proof.
  intros Hs. destruct e as [ev ctx|n|]; simpl; [|by unfold with_link; rewrite Hs|done].
  unfold emit. by rewrite Hs.
Qed.

(** X11.  [close] strands a send that is still outstanding: once the
    link is closed and dropped, the promise of the attempt is pending and
    stays so; awaiting it, and retrying on it, never returns whatever the
    loop delivers, and even a late run of one of its handlers does not
    settle it, because [removeListeners] throws on the absent link. *)
Theorem close_strands_outstanding_send m w l :
  _sender w = Some l → sendable l = true →
  let p := (sendEventPromise m w).1 in
  let w1 := (sendEventPromise m w).2 in
  let w2 := (close None w1).2 in
  (close None w1).1 = Return ()
  ∧ promises w2 !! p = Some Pending
  ∧ (∀ es, await p es w2 = Hang w2)
  ∧ (∀ n es, retry n (λ w, (p, w)) es w2 = Hang w2)
  ∧ (∀ h ctx, promises (fire h ctx w2).2 !! p = Some Pending).
Proof.
  intros Hl Hs. rewrite (sendEventPromise_sendable m w l Hl Hs). cbn [fst snd].
  set (p := length (promises w)).
  set (w1 := {| _sender := _; ctx_sender := _; _tokenRenewalTimer := _;
                promises := _; trace := _ |}).
  set (w2 := (close None w1).2).
  assert (_sender w2 = None ∧ promises w2 = promises w ++ [Pending])
    as (Hs2 & Hps) by done.
  assert (promises w2 !! p = Some Pending) as Hp.
  { rewrite Hps. unfold p. by rewrite lookup_app_r, Nat.sub_diag by done. }
  assert (∀ es, await p es w2 = Hang w2) as Hawait.
  { induction es as [|e es IH]; cbn [await]; rewrite Hp; [done|].
    by rewrite (dispatch_without_link e w2 Hs2). }
  split; [done|]. split; [done|]. split; [done|]. split.
  - intros n es. destruct n; simpl; by rewrite Hawait.
  - intros h ctx. unfold fire, removeListeners.
    change (_sender (log (EFired h) w2)) with (_sender w2).
    rewrite Hs2. exact Hp.
Qed.



End ListenerFacts.

(** ** TopicClient *)

Section TopicFacts.

Context {E : SenderEnv}.
Variable JSON_stringify : JsErr → string.
Implicit Types (c : TopicClient.Client) (w : World) (l : Link).

(** X12.  [TopicClient.close] does nothing when the connection is absent
    or not open: the sender in the context keeps its open link and its
    renewal timer.  With the connection open it closes the sender, which
    empties the slot, and a second close then returns without error; when
    the link's close fails it throws a new Error whose message carries
    the client id and the serialised cause, and the sender stays in the
    slot with its link. *)
Theorem topic_close_cases r c w l :
  TopicClient.context_sender c = Some w → _sender w = Some l →
  ctx_sender w = true →
  (TopicClient.connected c = false →
     TopicClient.close JSON_stringify r c = (Return (), c))
  ∧ (TopicClient.connected c = true →
       (∃ c', TopicClient.close JSON_stringify None c = (Return (), c')
              ∧ TopicClient.context_sender c' = None
              ∧ ∀ r', TopicClient.close JSON_stringify r' c' = (Return (), c'))
       ∧ (∀ e, ∃ w',
            TopicClient.close JSON_stringify (Some e) c
            = (Throw (PlainError (TopicClient.close_message JSON_stringify e c)),
               TopicClient.store w' c)
            ∧ TopicClient.context_sender (TopicClient.store w' c) = Some w'
            ∧ _sender w' = Some l
            ∧ _tokenRenewalTimer w' = _tokenRenewalTimer w)).
Proof.
  intros Hc Hs Hslot. split.
  - intros Hcon. unfold TopicClient.close. by rewrite Hcon.
  - intros Hcon. unfold TopicClient.close. rewrite Hcon, Hc. split.
    + unfold close. rewrite Hs. simpl. eexists. split; [reflexivity|].
      split; [done|]. intros r'.
      unfold TopicClient.close, TopicClient.connected in *. simpl.
      by rewrite Hcon.
    + intros e. rewrite (close_failure e w l Hs).
      exists (log ELinkClose w). unfold TopicClient.store. simpl.
      by rewrite Hslot.
Qed.

Lemma topic_send_present data ie es c w :
  TopicClient.context_sender c = Some w →
  TopicClient.send data ie es c =
    (TopicClient.void (send data ie es w),
     TopicClient.store (final_world (send data ie es w)) c).
Proof.
  intros Hc. unfold TopicClient.send, TopicClient.MessageSender_create.
  by rewrite Hc.
Qed.

Lemma topic_send_empty data ie es c :
  TopicClient.context_sender c = None →
  TopicClient.send data ie es c =
    (TopicClient.void (send data ie es Concurrent.fresh_world),
     TopicClient.store (final_world (send data ie es Concurrent.fresh_world)) c).
Proof.
  intros Hc. unfold TopicClient.send, TopicClient.MessageSender_create.
  by rewrite Hc.
Qed.

(** X13.  Two [TopicClient.send] calls in a row on a context without a
    sender use one sender and one link: the first call builds the sender,
    puts it in the slot and initialises it; when that yields an open link
    the second call finds the sender in the slot and sends without taking
    the lock or calling [createSender] again.  What the first call gives
    back is the outcome of the sender's [send] with the delivery
    dropped. *)
Theorem topic_sends_share_one_link data1 data2 ie ie2 es1 es2 c l t :
  TopicClient.context_sender c = None →
  send_arg_ok data1 = true →
  claim ie = None → created ie = inr l → renewal ie = inr t →
  l_isOpen l = true →
  let r1 := TopicClient.send data1 ie es1 c in
  let r2 := TopicClient.send data2 ie2 es2 r1.2 in
  r1.1 = TopicClient.void (send data1 ie es1 Concurrent.fresh_world)
  ∧ ∃ w1 w2,
      TopicClient.context_sender r1.2 = Some w1
      ∧ TopicClient.context_sender r2.2 = Some w2
      ∧ w1 = final_world (send data1 ie es1 Concurrent.fresh_world)
      ∧ w2 = final_world (send data2 ie2 es2 w1)
      ∧ creates w2 = 1 ∧ acquires w2 = 1 ∧ _isOpen w2 = true.
Proof.
  intros Hc Hok Hcl Hcr Hr Hl r1 r2.
  pose proof (send_opening_initialised data1 ie es1 Concurrent.fresh_world
                l t Hok eq_refl Hcl Hcr Hr) as Ho1.
  rewrite Hl in Ho1.
  set (w1 := final_world (send data1 ie es1 Concurrent.fresh_world)) in *.
  injection Ho1 as Hopen1 Hcreates1 Hacq1 Hslot1 _.
  pose proof (send_opening_open data2 ie2 es2 w1 Hopen1) as Ho2.
  set (w2 := final_world (send data2 ie2 es2 w1)) in *.
  injection Ho2 as Hopen2 Hcreates2 Hacq2 Hslot2 _.
  assert (r1 = (TopicClient.void (send data1 ie es1 Concurrent.fresh_world),
                TopicClient.store w1 c)) as Hr1
    by (by apply topic_send_empty).
  assert (TopicClient.context_sender r1.2 = Some w1) as Hc1.
  { rewrite Hr1. unfold TopicClient.store. simpl. by rewrite Hslot1. }
  assert (TopicClient.context_sender r2.2 = Some w2) as Hc2.
  { unfold r2. rewrite (topic_send_present data2 ie2 es2 r1.2 w1 Hc1).
    unfold TopicClient.store. simpl. fold w2. by rewrite Hslot2, Hslot1. }
  split; [by rewrite Hr1|]. exists w1, w2.
  split; [done|]. split; [done|]. split; [done|]. split; [done|].
  split; [by rewrite Hcreates2, Hcreates1|].
  split; [by rewrite Hacq2, Hacq1|]. by rewrite Hopen2.
Qed.

End TopicFacts.

(** ** SubscriptionClient: construction, repeated receive and close *)

Section SubscriptionFacts.

Import SubscriptionClient.
Context {R : Receivers}.
Implicit Types (c : Client).

(** X14.  A subscription client never asks for zero concurrent calls:
    the constructor replaces a missing or zero [maxConcurrentCalls] by 1
    and a missing or zero [receiveMode] by peek-lock, keeps any other
    value, and names the entity
    topicPath/Subscriptions/subscriptionName; every receiver [receive]
    creates for the client is given the client's [maxConcurrentCalls] and
    the client's [receiveMode], and of the options [receive] itself is
    called with only [autoComplete]. *)
Theorem constructed_client_concurrency (peekLock : Z)
    (topicPath subscriptionName : string)
    (options : option SubscriptionLifecycle.SubscriptionClientOptions)
    (streaming batching : option Receiver) :
  let c := SubscriptionLifecycle.constructor peekLock topicPath
             subscriptionName options streaming batching in
  this_maxConcurrentCalls c ≠ 0%Z
  ∧ name c = (topicPath ++ "/Subscriptions/" ++ subscriptionName)%string
  ∧ (∀ n, options ≫= SubscriptionLifecycle.opt_maxConcurrentCalls = Some n →
          n ≠ 0%Z → this_maxConcurrentCalls c = n)
  ∧ (options ≫= SubscriptionLifecycle.opt_maxConcurrentCalls = None
     ∨ options ≫= SubscriptionLifecycle.opt_maxConcurrentCalls = Some 0%Z →
     this_maxConcurrentCalls c = 1%Z)
  ∧ (∀ n, options ≫= SubscriptionLifecycle.opt_receiveMode = Some n →
          n ≠ 0%Z → this_receiveMode c = n)
  ∧ (options ≫= SubscriptionLifecycle.opt_receiveMode = None
     ∨ options ≫= SubscriptionLifecycle.opt_receiveMode = Some 0%Z →
     this_receiveMode c = peekLock)
  ∧ (∀ mho h c', receive mho c = (Return h, c') →
       ∃ ro, rh_receiver h = StreamingReceiver_create c ro
             ∧ streamingReceiver c' = Some (StreamingReceiver_create c ro)
             ∧ maxConcurrentCalls ro = this_maxConcurrentCalls c
             ∧ maxConcurrentCalls ro ≠ 0%Z
             ∧ receiveMode ro = this_receiveMode c
             ∧ autoComplete ro = mho ≫= mh_autoComplete).
Proof.
  intros c.
  assert (∀ v, SubscriptionLifecycle.or_default v 1 ≠ 0%Z) as Hnz.
  { intros [n|]; simpl; [|done]. destruct (n =? 0)%Z eqn:Hn; [done|].
    by apply Z.eqb_neq. }
  assert (this_maxConcurrentCalls c ≠ 0%Z) as Hc by apply Hnz.
  split; [done|]. split; [done|]. split; [|split; [|split; [|split]]].
  - intros n Hn Hne. unfold c, SubscriptionLifecycle.constructor. simpl.
    destruct options as [o|]; simpl in *; [|done]. rewrite Hn. simpl.
    by apply Z.eqb_neq in Hne as ->.
  - intros Hn. unfold c, SubscriptionLifecycle.constructor. simpl.
    destruct options as [o|]; simpl in *; [|done].
    by destruct Hn as [->| ->].
  - intros n Hn Hne. unfold c, SubscriptionLifecycle.constructor. simpl.
    destruct options as [o|]; simpl in *; [|done]. rewrite Hn. simpl.
    by apply Z.eqb_neq in Hne as ->.
  - intros Hn. unfold c, SubscriptionLifecycle.constructor. simpl.
    destruct options as [o|]; simpl in *; [|done].
    by destruct Hn as [->| ->].
  - intros mho h c' Hrcv. unfold receive in Hrcv.
    destruct (may_receive c); [|by repeat case_match].
    injection Hrcv as <- <-. eexists. split; [reflexivity|].
    split; [reflexivity|]. split; [done|]. split; [done|]. split; [done|].
    by destruct mho.
Qed.

(** X15.  The guard of [receive] looks at the link, not at the call: a
    receiver just created has no open link, so a second [receive] issued
    right after the first is accepted, creates and starts a second
    receiver and puts it in the slot in place of the first, which keeps
    running. *)
Theorem receive_twice_replaces_receiver o1 o2 c :
  (∀ c ro, isOpen (StreamingReceiver_create c ro) = false) →
  may_receive c = true →
  ∃ h1 c1 h2 c2,
    receive o1 c = (Return h1, c1)
    ∧ receive o2 c1 = (Return h2, c2)
    ∧ streamingReceiver c1 = Some (rh_receiver h1)
    ∧ streamingReceiver c2 = Some (rh_receiver h2)
    ∧ effects c2 = effects c ++ [EStreamingReceive (rh_receiver h1);
                                 EStreamingReceive (rh_receiver h2)].
Proof.
  intros Hnew Hmay. unfold receive at 1. rewrite Hmay.
  eexists _, _. 
  set (c1 := note _ _).
  assert (may_receive c1 = true) as Hmay1.
  { unfold may_receive, c1. simpl. by rewrite Hnew. }
  unfold receive. rewrite Hmay1. eexists _, _.
  split; [reflexivity|]. split; [reflexivity|]. split; [done|]. split; [done|].
  unfold c1. simpl. by rewrite <- app_assoc.
Qed.

(** X16.  [SubscriptionClient.close] makes no call at all when the
    connection is absent or not open.  With the connection open it closes
    the streaming receiver, if the context has one, and then the
    management session, and never the batching receiver; when closing the
    streaming receiver fails the management session is not closed; every
    failure reaches the caller as a new Error carrying the client id and
    the serialised cause. *)
Theorem subscription_close_calls (JSON_stringify : JsErr → string)
    (id : string) (connection : option bool) (sr ms : option JsErr) c :
  let out := SubscriptionLifecycle.close JSON_stringify id connection sr ms c in
  (connection = None ∨ connection = Some false → out = (Return (), []))
  ∧ (∀ r, SubscriptionLifecycle.CloseBatching r ∉ out.2)
  ∧ (connection = Some true →
       (∀ r, streamingReceiver c = Some r →
          (∀ e, sr = Some e →
                out = (Throw (PlainError
                         (SubscriptionLifecycle.close_message JSON_stringify id e)),
                       [SubscriptionLifecycle.CloseStreaming r]))
          ∧ (sr = None →
               out.2 = [SubscriptionLifecycle.CloseStreaming r;
                        SubscriptionLifecycle.CloseManagementSession]))
       ∧ (streamingReceiver c = None →
            out.2 = [SubscriptionLifecycle.CloseManagementSession])
       ∧ (∀ e, (sr = None ∨ streamingReceiver c = None) → ms = Some e →
            out.1 = Throw (PlainError
                      (SubscriptionLifecycle.close_message JSON_stringify id e)))
       ∧ (out.1 = Return () →
            ms = None ∧ (sr = None ∨ streamingReceiver c = None))).
Proof.
  intros out. unfold out, SubscriptionLifecycle.close.
  split; [by intros [->| ->]|]. split.
  - intros r Hin. repeat case_match; simpl in Hin;
      repeat (apply elem_of_cons in Hin as [Hin|Hin]; [done|]);
      by apply elem_of_nil in Hin.
  - intros ->. split; [|split; [|split]].
    + intros r ->. split; [by intros e ->|]. intros ->. by destruct ms.
    + intros ->. by destruct ms.
    + intros e Hsr ->. destruct Hsr as [->| ->]; [|done].
      by destruct (streamingReceiver c).
    + intros Hret. destruct (streamingReceiver c), sr, ms; simpl in Hret;
        try done; split; try done; first [by left|by right].
Qed.

End SubscriptionFacts.

(** ** The further properties on concrete senders and clients *)

Import Scenario.

Lemma send_stops_at_failed_initialisation_witness :
  let w := world_with None in
  let e := sample_translate (PlainError "unauthorized") in
  (ensure_init (E := sample_env) claim_fails w).1 = Some e
  ∧ send_arg_ok (JObj sample_message) = true
  ∧ batch_arg_ok (JArray []) = true
  ∧ send (E := sample_env) (JObj sample_message) claim_fails [] w
    = Done (Throw e) [] (ensure_init (E := sample_env) claim_fails w).2.
Proof.
  intros w e.
  assert ((ensure_init (E := sample_env) claim_fails w).1 = Some e) as H1
    by reflexivity.
  assert (send_arg_ok (JObj sample_message) = true) as H2 by reflexivity.
  assert (batch_arg_ok (JArray []) = true) as H3 by reflexivity.
  split; [exact H1|]. split; [exact H2|]. split; [exact H3|].
  exact (proj1 (send_stops_at_failed_initialisation (E := sample_env)
                  (JObj sample_message) (JArray []) claim_fails [] w e H1 H2 H3)).
Defined.

Lemma init_failure_before_link_witness :
  let w := world_with None in
  _isOpen w = false
  ∧ claim claim_fails = Some (PlainError "unauthorized")
  ∧ creates (ensure_init (E := sample_env) claim_fails w).2 = creates w.
Proof.
  intros w.
  assert (_isOpen w = false) as H1 by reflexivity.
  assert (claim claim_fails = Some (PlainError "unauthorized")) as H2
    by reflexivity.
  split; [exact H1|]. split; [exact H2|].
  exact (proj1 (proj2 (proj2 (proj2 (proj2 (proj2
    (init_failure_before_link (E := sample_env) claim_fails w
       (PlainError "unauthorized") H1 (or_introl H2))))))) H2).
Defined.

Lemma init_renewal_failure_keeps_link_witness :
  let w := world_with None in
  _isOpen w = false
  ∧ claim renewal_fails = None
  ∧ created renewal_fails = inr (open_link 2)
  ∧ renewal renewal_fails = inl (PlainError "renewal failed")
  ∧ l_isOpen (open_link 2) = true
  ∧ _sender (ensure_init (E := sample_env) renewal_fails w).2
    = Some (open_link 2).
Proof.
  intros w.
  assert (_isOpen w = false) as H1 by reflexivity.
  assert (claim renewal_fails = None) as H2 by reflexivity.
  assert (created renewal_fails = inr (open_link 2)) as H3 by reflexivity.
  assert (renewal renewal_fails = inl (PlainError "renewal failed")) as H4
    by reflexivity.
  assert (l_isOpen (open_link 2) = true) as H5 by reflexivity.
  split; [exact H1|]. split; [exact H2|]. split; [exact H3|].
  split; [exact H4|]. split; [exact H5|].
  exact (proj1 (proj2
    (init_renewal_failure_keeps_link (E := sample_env) renewal_fails w
       (open_link 2) (PlainError "renewal failed") H1 H2 H3 H4 H5))).
Defined.

Lemma close_then_init_restores_slot_witness :
  let w := world_with (Some (open_link 1)) in
  _sender w = Some (open_link 1)
  ∧ claim good_init = None
  ∧ created good_init = inr (open_link 2)
  ∧ renewal good_init = inr 11%nat
  ∧ ctx_sender (ensure_init (E := sample_env) good_init (close None w).2).2
    = true.
Proof.
  intros w.
  assert (_sender w = Some (open_link 1)) as H1 by reflexivity.
  assert (claim good_init = None) as H2 by reflexivity.
  assert (created good_init = inr (open_link 2)) as H3 by reflexivity.
  assert (renewal good_init = inr 11%nat) as H4 by reflexivity.
  split; [exact H1|]. split; [exact H2|]. split; [exact H3|]. split; [exact H4|].
  exact (proj1 (proj2 (proj2 (proj2 (proj2
    (close_then_init_restores_slot (E := sample_env) good_init w
       (open_link 1) (open_link 2) 11%nat H1 H2 H3 H4)))))).
Defined.

Lemma send_hands_over_encoded_body_witness :
  let w := world_with (Some (open_link 1)) in
  send_arg_ok (JObj sample_message) = true
  ∧ ensure_init (E := sample_env) good_init w = (None, w)
  ∧ sendable_now w = true
  ∧ ∃ body, prop (JObj sample_message) "body" = Return body
            ∧ sent (final_world
                      (send (E := sample_env) (JObj sample_message)
                         good_init [] w))
              = sent w ++
                [PMessage (<["body" := dataTransformer_encode
                                         (SenderEnv := sample_env) body]>
                             (toAmqpMessage (SenderEnv := sample_env)
                                (JObj sample_message)))].
Proof.
  intros w.
  assert (send_arg_ok (JObj sample_message) = true) as H1 by reflexivity.
  assert (ensure_init (E := sample_env) good_init w = (None, w)) as H2
    by reflexivity.
  assert (sendable_now w = true) as H3 by reflexivity.
  split; [exact H1|]. split; [exact H2|]. split; [exact H3|].
  exact (send_hands_over_encoded_body (E := sample_env) (JObj sample_message)
           good_init [] w w H1 H2 H3).
Defined.

Lemma one_call_one_message_at_most_witness :
  let w := world_with (Some (open_link 1)) in
  _isOpen w = true
  ∧ ∃ extra,
      sent (final_world
              (sendBatch (E := sample_env)
                 (JArray [JObj first_message; JObj second_message])
                 good_init [] w))
      = sent w ++ extra
      ∧ (length extra ≤ 1)%nat.
Proof.
  intros w.
  assert (_isOpen w = true) as H1 by reflexivity.
  split; [exact H1|].
  exact (proj2 (one_call_one_message_at_most (E := sample_env)
                  (JObj sample_message)
                  (JArray [JObj first_message; JObj second_message])
                  good_init [] w H1)).
Defined.

Lemma later_sends_skip_initialisation_witness :
  let w := world_with None in
  send_arg_ok (JObj sample_message) = true
  ∧ _isOpen w = false
  ∧ claim good_init = None
  ∧ created good_init = inr (open_link 2)
  ∧ renewal good_init = inr 11%nat
  ∧ l_isOpen (open_link 2) = true
  ∧ _isOpen (final_world
               (send (E := sample_env) (JObj sample_message) good_init [] w))
    = true.
Proof.
  intros w.
  assert (send_arg_ok (JObj sample_message) = true) as H1 by reflexivity.
  assert (_isOpen w = false) as H2 by reflexivity.
  assert (claim good_init = None) as H3 by reflexivity.
  assert (created good_init = inr (open_link 2)) as H4 by reflexivity.
  assert (renewal good_init = inr 11%nat) as H5 by reflexivity.
  assert (l_isOpen (open_link 2) = true) as H6 by reflexivity.
  split; [exact H1|]. split; [exact H2|]. split; [exact H3|].
  split; [exact H4|]. split; [exact H5|]. split; [exact H6|].
  exact (proj1 (later_sends_skip_initialisation (E := sample_env)
                  (JObj sample_message) good_init [] w (open_link 2) 11%nat
                  H1 H2 H3 H4 H5 H6)).
Defined.

Lemma sendBatch_undefined_element_witness :
  let w := world_with (Some (open_link 1)) in
  _isOpen w = true
  ∧ sendBatch (E := sample_env)
      (JArray ((JObj <$> [first_message]) ++ JUndefined :: [JObj second_message]))
      good_init [] w
    = Done (Throw (TypeError "Cannot read property 'body' of undefined")) [] w.
Proof.
  intros w.
  assert (_isOpen w = true) as H1 by reflexivity.
  split; [exact H1|].
  exact (sendBatch_undefined_element (E := sample_env) [first_message]
           [JObj second_message] good_init [] w H1).
Defined.


Lemma outstanding_sends_settle_together_witness :
  let w := world_with (Some (open_link 2)) in
  let refused := {| condition := "amqp:not-allowed"; description := "refused" |} in
  let ctx := sample_delivery (Some refused) in
  let s := Rejected (sample_translate (FromAmqp refused)) in
  _sender w = Some (open_link 2)
  ∧ (2 ≤ l_credit (open_link 2))%nat
  ∧ handlers_wf w
  ∧ spec_outcome (H := sample_env) rejected ctx = Some s
  ∧ (sendEventPromise (E := sample_env) sample_payload w).1
    ≠ (sendEventPromise (E := sample_env) sample_payload
         (sendEventPromise (E := sample_env) sample_payload w).2).1.
Proof.
  intros w refused ctx s.
  assert (_sender w = Some (open_link 2)) as H1 by reflexivity.
  assert (2 ≤ l_credit (open_link 2))%nat as H2 by (simpl; lia).
  assert (handlers_wf w) as H3 by (vm_compute; constructor).
  assert (spec_outcome (H := sample_env) rejected ctx = Some s) as H4
    by reflexivity.
  split; [exact H1|]. split; [exact H2|]. split; [exact H3|].
  split; [exact H4|].
  exact (proj1 (outstanding_sends_settle_together (E := sample_env)
                  sample_payload sample_payload w (open_link 2) rejected
                  ctx s H1 H2 H3 H4)).
Defined.

Lemma close_strands_outstanding_send_witness :
  let w := world_with (Some (open_link 1)) in
  _sender w = Some (open_link 1)
  ∧ sendable (open_link 1) = true
  ∧ (close None (sendEventPromise (E := sample_env) sample_payload w).2).1
    = Return ().
Proof.
  intros w.
  assert (_sender w = Some (open_link 1)) as H1 by reflexivity.
  assert (sendable (open_link 1) = true) as H2 by reflexivity.
  split; [exact H1|]. split; [exact H2|].
  exact (proj1 (close_strands_outstanding_send (E := sample_env) sample_payload
                  w (open_link 1) H1 H2)).
Defined.


Lemma topic_close_cases_witness :
  let w := world_with (Some (open_link 1)) in
  let c := topic_client (Some w) in
  TopicClient.context_sender c = Some w
  ∧ _sender w = Some (open_link 1)
  ∧ ctx_sender w = true
  ∧ TopicClient.connected c = true
  ∧ ∃ c', TopicClient.close sample_stringify None c = (Return (), c')
          ∧ TopicClient.context_sender c' = None
          ∧ ∀ r', TopicClient.close sample_stringify r' c' = (Return (), c').
Proof.
  intros w c.
  assert (TopicClient.context_sender c = Some w) as H1 by reflexivity.
  assert (_sender w = Some (open_link 1)) as H2 by reflexivity.
  assert (ctx_sender w = true) as H3 by reflexivity.
  assert (TopicClient.connected c = true) as H4 by reflexivity.
  split; [exact H1|]. split; [exact H2|]. split; [exact H3|]. split; [exact H4|].
  exact (proj1 (proj2 (topic_close_cases sample_stringify None c w
                         (open_link 1) H1 H2 H3) H4)).
Defined.

Lemma topic_sends_share_one_link_witness :
  let c := topic_client None in
  TopicClient.context_sender c = None
  ∧ send_arg_ok (JObj sample_message) = true
  ∧ claim good_init = None
  ∧ created good_init = inr (open_link 2)
  ∧ renewal good_init = inr 11%nat
  ∧ l_isOpen (open_link 2) = true
  ∧ (TopicClient.send (E := sample_env) (JObj sample_message) good_init [] c).1
    = TopicClient.void
        (send (E := sample_env) (JObj sample_message) good_init []
           Concurrent.fresh_world).
Proof.
  intros c.
  assert (TopicClient.context_sender c = None) as H1 by reflexivity.
  assert (send_arg_ok (JObj sample_message) = true) as H2 by reflexivity.
  assert (claim good_init = None) as H3 by reflexivity.
  assert (created good_init = inr (open_link 2)) as H4 by reflexivity.
  assert (renewal good_init = inr 11%nat) as H5 by reflexivity.
  assert (l_isOpen (open_link 2) = true) as H6 by reflexivity.
  split; [exact H1|]. split; [exact H2|]. split; [exact H3|].
  split; [exact H4|]. split; [exact H5|]. split; [exact H6|].
  exact (proj1 (topic_sends_share_one_link (E := sample_env)
                  (JObj sample_message) (JObj sample_message) good_init
                  good_init [] [] c (open_link 2) 11%nat
                  H1 H2 H3 H4 H5 H6)).
Defined.

Lemma constructed_client_concurrency_witness :
  SubscriptionClient.this_maxConcurrentCalls idle_client ≠ 0%Z
  ∧ SubscriptionClient.this_maxConcurrentCalls idle_client = 1%Z.
Proof.
  pose proof (constructed_client_concurrency (R := sample_receivers) 1
                "topic" "sub"
                (Some {| SubscriptionLifecycle.opt_receiveMode := None;
                         SubscriptionLifecycle.opt_maxConcurrentCalls :=
                           Some 0%Z |})
                None None) as H.
  split; [exact (proj1 H)|].
  exact (proj1 (proj2 (proj2 (proj2 H))) (or_intror eq_refl)).
Defined.

Lemma receive_twice_replaces_receiver_witness :
  (∀ c ro, SubscriptionClient.isOpen
             (SubscriptionClient.StreamingReceiver_create
                (Receivers := sample_receivers) c ro) = false)
  ∧ SubscriptionClient.may_receive idle_client = true
  ∧ ∃ h1 c1 h2 c2,
      SubscriptionClient.receive (R := sample_receivers) None idle_client
        = (Return h1, c1)
      ∧ SubscriptionClient.receive (R := sample_receivers) None c1
        = (Return h2, c2)
      ∧ SubscriptionClient.streamingReceiver c1
        = Some (SubscriptionClient.rh_receiver h1)
      ∧ SubscriptionClient.streamingReceiver c2
        = Some (SubscriptionClient.rh_receiver h2)
      ∧ SubscriptionClient.effects c2
        = SubscriptionClient.effects idle_client ++
          [SubscriptionClient.EStreamingReceive (SubscriptionClient.rh_receiver h1);
           SubscriptionClient.EStreamingReceive (SubscriptionClient.rh_receiver h2)].
Proof.
  assert (∀ c ro, SubscriptionClient.isOpen
                    (SubscriptionClient.StreamingReceiver_create
                       (Receivers := sample_receivers) c ro) = false) as H1
    by (intros c ro; reflexivity).
  assert (SubscriptionClient.may_receive idle_client = true) as H2
    by reflexivity.
  split; [exact H1|]. split; [exact H2|].
  exact (receive_twice_replaces_receiver (R := sample_receivers) None None
           idle_client H1 H2).
Defined.

Lemma subscription_close_calls_witness :
  SubscriptionLifecycle.close sample_stringify "sub-1" (Some true)
    (Some (PlainError "receiver close failed")) None busy_client
  = (Throw (PlainError
              (SubscriptionLifecycle.close_message sample_stringify "sub-1"
                 (PlainError "receiver close failed"))),
     [SubscriptionLifecycle.CloseStreaming
        (sample_receiver "streaming" "receiver-0" true true sample_options)]).
Proof.
  exact (proj1 (proj1 (proj2 (proj2
    (subscription_close_calls sample_stringify "sub-1" (Some true)
       (Some (PlainError "receiver close failed")) None busy_client)) eq_refl)
    (sample_receiver "streaming" "receiver-0" true true sample_options)
    eq_refl) (PlainError "receiver close failed") eq_refl).
Defined.
